(** * Client-side behaviour of the portfolio site

    A shallow embedding of the UI state machines of the portfolio site: the
    [Contact] form component and the vanilla form script, the theme manager,
    the intersection-observer animators, the project gallery and the typing
    effect. Each handler of the source is a Rocq function over an explicit
    state; browser callbacks (timers, observers, promises) are events fed to
    those functions. *)

From Stdlib Require Import String Ascii NArith List Bool Lia.
From Stdlib Require Import QArith.
From stdpp Require Import base decidable option list gmap.
Import ListNotations.

#[local] Set Warnings "-clear-no-such-hyp".

(** ** JavaScript strings

    A JavaScript string is a sequence of 16-bit code units. *)
Module JS.
Local Open Scope N_scope.

Abbreviation codeunit := N (only parsing).
Abbreviation jsstring := (list N) (only parsing).

(** An ASCII literal as a JavaScript string. *)
Definition str (s : string) : jsstring :=
  List.map N_of_ascii (list_ascii_of_string s).

(** WhiteSpace and LineTerminator code points of ECMAScript: what
    [String.prototype.trim] strips and what the class escape [\s] matches. *)
Definition isWhiteSpace (c : codeunit) : bool :=
  (c =? 9) || (c =? 10) || (c =? 11) || (c =? 12) || (c =? 13) || (c =? 32)
  || (c =? 160) || (c =? 5760)
  || ((8192 <=? c) && (c <=? 8202))
  || (c =? 8232) || (c =? 8233) || (c =? 8239) || (c =? 8287)
  || (c =? 12288) || (c =? 65279).

Fixpoint trimStart (s : jsstring) : jsstring :=
  match s with
  | [] => []
  | c :: s' => if isWhiteSpace c then trimStart s' else s
  end.

Definition trimEnd (s : jsstring) : jsstring := rev (trimStart (rev s)).

(** [s.trim()] *)
Definition trim (s : jsstring) : jsstring := trimEnd (trimStart s).

(** Truthiness of a string: only the empty string is falsy. *)
Definition truthy (s : jsstring) : bool :=
  match s with [] => false | _ :: _ => true end.

(** Truthiness of a value that is a string, [null] or [undefined]. *)
Definition truthy_opt (o : option jsstring) : bool :=
  match o with Some s => truthy s | None => false end.

(** [a === b] on values that are strings or [null]. *)
Definition strict_eq (a b : option jsstring) : bool :=
  bool_decide (a = b).

(** A string without any non-whitespace code unit (the empty string
    included). *)
Definition blank (s : jsstring) : bool := forallb isWhiteSpace s.

Definition AT : codeunit := 64.   (* "@" *)
Definition DOT : codeunit := 46.  (* "." *)

(** The string has a "." somewhere after an "@". *)
Definition dotAfterAt (s : jsstring) : Prop :=
  exists a b c, s = a ++ AT :: b ++ DOT :: c.

End JS.

(** ** Regular expressions

    The fragment of ECMAScript patterns the validators use: literals, the
    class escapes [\s] and [\S], negated classes, concatenation and [+],
    with optional [^] and [$] anchors around the whole pattern. [test] is
    decided with Brzozowski derivatives. *)
Module RegExp.
Import JS.
Local Open Scope N_scope.

(** What may stand inside a character class, or alone as an atom. *)
Inductive atom :=
| Lit (c : codeunit)     (* a literal character, [@] or [\.] *)
| Space                  (* [\s] *)
| NonSpace.              (* [\S] *)

Definition atom_matches (a : atom) (c : codeunit) : bool :=
  match a with
  | Lit d => c =? d
  | Space => isWhiteSpace c
  | NonSpace => negb (isWhiteSpace c)
  end.

Inductive regex :=
| Eps                            (* matches the empty string *)
| Any                            (* any one code unit, line terminators too *)
| Atom (a : atom)
| NegClass (items : list atom)   (* [[^...]] *)
| Cat (r1 r2 : regex)
| Star (r : regex).

(** [r+] *)
Definition Plus (r : regex) : regex := Cat r (Star r).

Definition class_matches (items : list atom) (c : codeunit) : bool :=
  existsb (fun a => atom_matches a c) items.

Fixpoint nullable (r : regex) : bool :=
  match r with
  | Eps => true
  | Any => false
  | Atom _ => false
  | NegClass _ => false
  | Cat r1 r2 => nullable r1 && nullable r2
  | Star _ => true
  end.

(** The derivative of [r] by [c], as a list of alternatives: what may
    follow [c] in a word of [r]. *)
Fixpoint deriv (c : codeunit) (r : regex) : list regex :=
  match r with
  | Eps => []
  | Any => [Eps]
  | Atom a => if atom_matches a c then [Eps] else []
  | NegClass items => if class_matches items c then [] else [Eps]
  | Cat r1 r2 =>
      List.map (fun d => Cat d r2) (deriv c r1)
      ++ (if nullable r1 then deriv c r2 else [])
  | Star r1 => List.map (fun d => Cat d (Star r1)) (deriv c r1)
  end.

(** Does some alternative of [rs] match the whole of [s]? *)
Fixpoint matches_any (rs : list regex) (s : jsstring) : bool :=
  match s with
  | [] => existsb nullable rs
  | c :: s' => matches_any (concat (List.map (deriv c) rs)) s'
  end.

Definition matches (r : regex) (s : jsstring) : bool := matches_any [r] s.

(** The strings a regular expression denotes; an iteration of [Star]
    consumes at least one code unit. *)
Inductive lang : regex -> jsstring -> Prop :=
| LEps : lang Eps []
| LAny c : lang Any [c]
| LAtom a c : atom_matches a c = true -> lang (Atom a) [c]
| LNegClass items c : class_matches items c = false -> lang (NegClass items) [c]
| LCat r1 r2 s1 s2 : lang r1 s1 -> lang r2 s2 -> lang (Cat r1 r2) (s1 ++ s2)
| LStarNil r : lang (Star r) []
| LStarCons r c s1 s2 :
    lang r (c :: s1) -> lang (Star r) s2 -> lang (Star r) (c :: s1 ++ s2).

(** [r] matches exactly the single code units that satisfy [f]. *)
Definition oneChar (r : regex) (f : N -> bool) : Prop :=
  forall s, lang r s <-> exists c, s = [c] /\ f c = true.

(** A pattern literal: its body and whether it is anchored by [^] and [$]. *)
Record pattern := {
  anchoredStart : bool;
  body : regex;
  anchoredEnd : bool
}.

(** [pattern.test(s)] for a pattern without the [g], [y] or [m] flag: is
    there a match anywhere in [s] (at the ends, when anchored)? *)
Definition test (p : pattern) (s : jsstring) : bool :=
  matches
    (Cat (if anchoredStart p then Eps else Star Any)
         (Cat (body p) (if anchoredEnd p then Eps else Star Any)))
    s.

End RegExp.

(** ** The [Contact] component (next-personal-website) *)
Module Contact.
Import JS RegExp.

Inductive field := FName | FEmail | FMessage.

#[global] Instance field_eq_dec : EqDecision field.
Proof. solve_decision. Defined.

#[global] Instance field_countable : Countable field.
Proof.
  refine (inj_countable'
            (fun f => match f with FName => 0 | FEmail => 1 | FMessage => 2 end)
            (fun n => match n with 0 => FName | 1 => FEmail | _ => FMessage end)
            _).
  intros []; reflexivity.
Defined.

Record FormData := {
  name : jsstring;
  email : jsstring;
  message : jsstring
}.

(** [FormErrors]: an object with an optional message per field. A key can
    be present with the value [undefined] (after [handleChange]). *)
Abbreviation FormErrors := (gmap field (option jsstring)) (only parsing).

Inductive status := Success | Error.

(** The four [useState] cells of the component. *)
Record state := {
  formData : FormData;
  errors : FormErrors;
  isSubmitting : bool;
  submitStatus : option status
}.

Definition emptyForm : FormData := {| name := []; email := []; message := [] |}.

Definition initial : state :=
  {| formData := emptyForm; errors := ∅; isSubmitting := false;
     submitStatus := None |}.

Definition setFormData (fd : FormData) (s : state) : state :=
  {| formData := fd; errors := errors s; isSubmitting := isSubmitting s;
     submitStatus := submitStatus s |}.

Definition setErrors (e : FormErrors) (s : state) : state :=
  {| formData := formData s; errors := e; isSubmitting := isSubmitting s;
     submitStatus := submitStatus s |}.

Definition setIsSubmitting (b : bool) (s : state) : state :=
  {| formData := formData s; errors := errors s; isSubmitting := b;
     submitStatus := submitStatus s |}.

Definition setSubmitStatus (st : option status) (s : state) : state :=
  {| formData := formData s; errors := errors s;
     isSubmitting := isSubmitting s; submitStatus := st |}.

(** [{...prev, [f]: value}] *)
Definition withField (f : field) (value : jsstring) (fd : FormData) : FormData :=
  match f with
  | FName => {| name := value; email := email fd; message := message fd |}
  | FEmail => {| name := name fd; email := value; message := message fd |}
  | FMessage => {| name := name fd; email := email fd; message := value |}
  end.

(** [errors[f]]: [undefined] when the key is absent or holds [undefined]. *)
Definition getError (e : FormErrors) (f : field) : option jsstring :=
  match e !! f with Some v => v | None => None end.

(** [/\S+@\S+\.\S+/] *)
Definition emailPattern : pattern :=
  {| anchoredStart := false;
     body := Cat (Plus (Atom NonSpace))
            (Cat (Atom (Lit AT))
            (Cat (Plus (Atom NonSpace))
            (Cat (Atom (Lit DOT))
                 (Plus (Atom NonSpace)))));
     anchoredEnd := false |}.

(** [validateForm]: the new error object (handed to [setErrors]) and the
    returned boolean. *)
Definition validateForm (fd : FormData) : FormErrors * bool :=
  let newErrors : FormErrors := ∅ in
  let newErrors :=
    if negb (truthy (trim (name fd)))
    then <[FName := Some (str "Name is required")]> newErrors
    else newErrors in
  let newErrors :=
    if negb (truthy (trim (email fd)))
    then <[FEmail := Some (str "Email is required")]> newErrors
    else if negb (test emailPattern (email fd))
    then <[FEmail := Some (str "Email is invalid")]> newErrors
    else newErrors in
  let newErrors :=
    if negb (truthy (trim (message fd)))
    then <[FMessage := Some (str "Message is required")]> newErrors
    else newErrors in
  (newErrors, bool_decide (size newErrors = 0)).

(** [handleChange] for an input whose [name] attribute is [f]. *)
Definition handleChange (f : field) (value : jsstring) (s : state) : state :=
  let s1 := setFormData (withField f value (formData s)) s in
  if truthy_opt (getError (errors s) f)
  then setErrors (<[f := None]> (errors s1)) s1
  else s1.

(** How the awaited submission settles. *)
Inductive outcome := Resolved | Rejected.

(** [handleSubmit] up to its [await]: either validation failed and the
    handler returned, or the component committed the submitting state and
    waits for the submission to settle. *)
Inductive submission :=
| Blocked (s : state)
| Awaiting (s : state).

Definition handleSubmit (s : state) : submission :=
  let (newErrors, valid) := validateForm (formData s) in
  let s := setErrors newErrors s in
  if negb valid then Blocked s
  else Awaiting (setSubmitStatus None (setIsSubmitting true s)).

(** The rest of [handleSubmit], run on the state current when the awaited
    promise settles: the [try] continuation or the [catch] block, then
    [finally]. *)
Definition afterAwait (o : outcome) (s : state) : state :=
  let s :=
    match o with
    | Resolved => setFormData emptyForm (setSubmitStatus (Some Success) s)
    | Rejected => setSubmitStatus (Some Error) s
    end in
  setIsSubmitting false s.

(** The awaited operation of the source: a timer promise, which always
    resolves. *)
Definition simulatedSubmission (_ : FormData) : outcome := Resolved.

(** One submit event with the awaited operation [op] in place of the timer
    promise: the states committed in order, and the data of every
    invocation of [op]. *)
Record run := {
  trace : list state;
  invocations : list FormData
}.

Definition submitWith (op : FormData -> outcome) (s : state) : run :=
  match handleSubmit s with
  | Blocked s1 => {| trace := [s1]; invocations := [] |}
  | Awaiting s1 =>
      {| trace := [s1; afterAwait (op (formData s1)) s1];
         invocations := [formData s1] |}
  end.

(** What the component renders from a state. *)
Definition submitDisabled (s : state) : bool := isSubmitting s.

Definition buttonLabel (s : state) : jsstring :=
  if isSubmitting s then str "Sending..." else str "Send Message".

Definition successMessage (s : state) : option jsstring :=
  match submitStatus s with
  | Some Success => Some (str "Message sent successfully!")
  | _ => None
  end.

Definition errorMessage (s : state) : option jsstring :=
  match submitStatus s with
  | Some Error => Some (str "Failed to send message. Please try again.")
  | _ => None
  end.

(** [{errors.f && <span className="error-message">...</span>}] *)
Definition fieldErrorShown (s : state) (f : field) : bool :=
  truthy_opt (getError (errors s) f).

(** The data of the specification's submit example. *)
Definition exampleData : FormData :=
  {| name := str "A"; email := str "a@b.com"; message := str "hi" |}.

(** The phase of the submission state machine a state is in. *)
Inductive phase := Idle | Submitting | Succeeded | Failed.

Definition phaseOf (s : state) : phase :=
  if isSubmitting s then Submitting
  else match submitStatus s with
       | None => Idle
       | Some Success => Succeeded
       | Some Error => Failed
       end.

End Contact.

(** ** The contact form of the page script (personal.js) *)
Module ScriptForm.
Import JS RegExp.

(** An input with its enclosing form group: the input's value and default
    value, the class list of [parentElement] and [style.display] of the
    group's [.error-message]. *)
Record control := {
  value : jsstring;
  defaultValue : jsstring;
  groupClasses : gset jsstring;
  errorDisplay : jsstring
}.

Record button := {
  textContent : jsstring;
  disabled : bool;
  btnClasses : gset jsstring
}.

Record form := {
  nameInput : control;
  emailInput : control;
  subjectInput : control;
  messageInput : control;
  submitBtn : button
}.

(** [/^[^\s@]+@[^\s@]+\.[^\s@]+$/] *)
Definition emailRegex : pattern :=
  {| anchoredStart := true;
     body := Cat (Plus (NegClass [Space; Lit AT]))
            (Cat (Atom (Lit AT))
            (Cat (Plus (NegClass [Space; Lit AT]))
            (Cat (Atom (Lit DOT))
                 (Plus (NegClass [Space; Lit AT])))));
     anchoredEnd := true |}.

(** [classList.add('error')] on the group and [display = 'block'] on its
    message. *)
Definition showError (c : control) : control :=
  {| value := value c; defaultValue := defaultValue c;
     groupClasses := groupClasses c ∪ {[ str "error" ]};
     errorDisplay := str "block" |}.

Definition hasError (c : control) : bool :=
  bool_decide (str "error" ∈ groupClasses c).

(** The validation half of the submit listener: the four controls after
    the checks, and [isValid]. *)
Definition validate (f : form) : form * bool :=
  let isValid := true in
  let '(n, isValid) :=
    if bool_decide (trim (value (nameInput f)) = [])
    then (showError (nameInput f), false) else (nameInput f, isValid) in
  let '(e, isValid) :=
    if negb (test emailRegex (value (emailInput f)))
    then (showError (emailInput f), false) else (emailInput f, isValid) in
  let '(s, isValid) :=
    if bool_decide (trim (value (subjectInput f)) = [])
    then (showError (subjectInput f), false) else (subjectInput f, isValid) in
  let '(m, isValid) :=
    if bool_decide (trim (value (messageInput f)) = [])
    then (showError (messageInput f), false) else (messageInput f, isValid) in
  ({| nameInput := n; emailInput := e; subjectInput := s; messageInput := m;
      submitBtn := submitBtn f |}, isValid).

(** The two nested timers of a valid submit; each closes over
    [originalText]. *)
Inductive timer :=
| SendTimer (originalText : jsstring)     (* 1500 ms: the simulated send *)
| ResetTimer (originalText : jsstring).   (* 2000 ms: reset after "Sent!" *)

Definition withButton (b : button) (f : form) : form :=
  {| nameInput := nameInput f; emailInput := emailInput f;
     subjectInput := subjectInput f; messageInput := messageInput f;
     submitBtn := b |}.

(** The submit listener: the form after it ran and the timer it armed, if
    any. *)
Definition onSubmit (f : form) : form * option timer :=
  let (f, isValid) := validate f in
  if isValid then
    let originalText := textContent (submitBtn f) in
    (withButton {| textContent := str "Sending..."; disabled := true;
                   btnClasses := btnClasses (submitBtn f) |} f,
     Some (SendTimer originalText))
  else (f, None).

Definition resetControl (c : control) : control :=
  {| value := defaultValue c; defaultValue := defaultValue c;
     groupClasses := groupClasses c; errorDisplay := errorDisplay c |}.

(** [form.reset()] *)
Definition reset (f : form) : form :=
  {| nameInput := resetControl (nameInput f);
     emailInput := resetControl (emailInput f);
     subjectInput := resetControl (subjectInput f);
     messageInput := resetControl (messageInput f);
     submitBtn := submitBtn f |}.

(** A timer callback fires. *)
Definition onTimer (t : timer) (f : form) : form * option timer :=
  match t with
  | SendTimer originalText =>
      (withButton {| textContent := str "Sent!";
                     disabled := disabled (submitBtn f);
                     btnClasses := btnClasses (submitBtn f) ∪ {[ str "success" ]} |} f,
       Some (ResetTimer originalText))
  | ResetTimer originalText =>
      let f := reset f in
      (withButton {| textContent := originalText; disabled := false;
                     btnClasses := btnClasses (submitBtn f) ∖ {[ str "success" ]} |} f,
       None)
  end.

(** A submit event followed by every timer it leads to, in order: the
    forms the page goes through. *)
Fixpoint drain (fuel : nat) (t : option timer) (f : form) : list form :=
  match fuel, t with
  | S fuel, Some t => let (f', t') := onTimer t f in f' :: drain fuel t' f'
  | _, _ => []
  end.

Definition submitAndWait (f : form) : list form :=
  let (f1, t) := onSubmit f in f1 :: drain 2 t f1.

End ScriptForm.

(** ** The theme manager (personal.js) *)
Module Theme.
Import JS.

(** The sun and the crescent moon of the toggle, as UTF-16. *)
Definition SUN : jsstring := [9728%N; 65039%N].
Definition MOON : jsstring := [55356%N; 57113%N].

Record page := {
  bodyClasses : gset jsstring;            (* document.body.classList *)
  toggleText : jsstring;                  (* themeToggle.textContent *)
  localStorage : gmap jsstring jsstring
}.

(** The start-up code; [prefersDark] is [prefersDarkScheme.matches]. *)
Definition init (prefersDark : bool) (p : page) : page :=
  let savedTheme := localStorage p !! str "theme" in
  if strict_eq savedTheme (Some (str "dark"))
     || (negb (truthy_opt savedTheme) && prefersDark)
  then {| bodyClasses := bodyClasses p ∪ {[ str "dark-mode" ]};
          toggleText := SUN;
          localStorage := localStorage p |}
  else p.

(** [classList.toggle(c)] *)
Definition classToggle (c : jsstring) (cl : gset jsstring) : gset jsstring :=
  if bool_decide (c ∈ cl) then cl ∖ {[ c ]} else cl ∪ {[ c ]}.

(** The click listener of the toggle. *)
Definition onToggleClick (p : page) : page :=
  let classes := classToggle (str "dark-mode") (bodyClasses p) in
  if bool_decide (str "dark-mode" ∈ classes)
  then {| bodyClasses := classes; toggleText := SUN;
          localStorage := <[ str "theme" := str "dark" ]> (localStorage p) |}
  else {| bodyClasses := classes; toggleText := MOON;
          localStorage := <[ str "theme" := str "light" ]> (localStorage p) |}.

(** The theme the document displays. *)
Definition displayed (p : page) : jsstring :=
  if bool_decide (str "dark-mode" ∈ bodyClasses p) then str "dark" else str "light".

(** The persisted preference. *)
Definition persisted (p : page) : option jsstring :=
  localStorage p !! str "theme".

(** A page load: the document is built from the markup, the storage is
    what earlier visits left, and the start-up code runs. *)
Definition load (markupClasses : gset jsstring) (markupText : jsstring)
    (prefersDark : bool) (storage : gmap jsstring jsstring) : page :=
  init prefersDark
       {| bodyClasses := markupClasses; toggleText := markupText;
          localStorage := storage |}.

End Theme.

(** ** Intersection observers: the reveal and skill-bar animators *)
Module Observers.
Import JS.

(** DOM elements are named by numbers. *)
Abbreviation elem := nat (only parsing).

(** An [IntersectionObserverEntry], as far as the callbacks read it. *)
Record entry := {
  target : elem;
  isIntersecting : bool
}.

(** The DOM and observer calls the callbacks make. *)
Inductive action :=
| ClassAdd (e : elem) (c : jsstring)         (* e.classList.add(c) *)
| SetWidth (e : elem) (w : jsstring)         (* e.style.width = w *)
| SetTransition (e : elem) (t : jsstring)    (* e.style.transition = t *)
| Unobserve (e : elem).                      (* observer.unobserve(e) *)

#[global] Instance action_eq_dec : EqDecision action.
Proof. solve_decision. Defined.

(** The page as one observer sees it: class lists and inline styles of the
    elements, the observer's targets, and the calls made so far (latest
    last). [styleWidth] holds, for an element, the text of the last
    assignment to [style.width] that took effect; [cssAccepts] is the CSS
    parser of the browser: does it take this text as a value of [width]? *)
Record page := {
  classList : gmap elem (gset jsstring);
  styleWidth : gmap elem jsstring;
  styleTransition : gmap elem jsstring;
  observed : gset elem;
  log : list action;
  cssAccepts : jsstring -> bool
}.

(** [e.style.width = w]: the empty string removes the declaration, a text
    the parser accepts replaces it, any other text is ignored. *)
Definition assignWidth (e : elem) (w : jsstring) (p : page) : gmap elem jsstring :=
  match w with
  | [] => delete e (styleWidth p)
  | _ :: _ => if cssAccepts p w then <[ e := w ]> (styleWidth p) else styleWidth p
  end.

Definition classesOf (p : page) (e : elem) : gset jsstring :=
  default ∅ (classList p !! e).

Definition perform (a : action) (p : page) : page :=
  match a with
  | ClassAdd e c =>
      {| classList := <[ e := classesOf p e ∪ {[ c ]} ]> (classList p);
         styleWidth := styleWidth p; styleTransition := styleTransition p;
         observed := observed p; log := log p ++ [a];
         cssAccepts := cssAccepts p |}
  | SetWidth e w =>
      {| classList := classList p;
         styleWidth := assignWidth e w p;
         styleTransition := styleTransition p;
         observed := observed p; log := log p ++ [a];
         cssAccepts := cssAccepts p |}
  | SetTransition e t =>
      {| classList := classList p; styleWidth := styleWidth p;
         styleTransition := <[ e := t ]> (styleTransition p);
         observed := observed p; log := log p ++ [a];
         cssAccepts := cssAccepts p |}
  | Unobserve e =>
      {| classList := classList p; styleWidth := styleWidth p;
         styleTransition := styleTransition p;
         observed := observed p ∖ {[ e ]}; log := log p ++ [a];
         cssAccepts := cssAccepts p |}
  end.

(** [entries.forEach(entry => { if (entry.isIntersecting) { ... } })] *)
Definition forEachIntersecting (body : elem -> page -> page)
    (entries : list entry) (p : page) : page :=
  foldl (fun p entry => if isIntersecting entry then body (target entry) p else p)
        p entries.

(** [observer.observe(e)] and [observer.disconnect()] *)
Definition observe (e : elem) (p : page) : page :=
  {| classList := classList p; styleWidth := styleWidth p;
     styleTransition := styleTransition p;
     observed := observed p ∪ {[ e ]}; log := log p;
     cssAccepts := cssAccepts p |}.

Definition disconnect (p : page) : page :=
  {| classList := classList p; styleWidth := styleWidth p;
     styleTransition := styleTransition p;
     observed := ∅; log := log p;
     cssAccepts := cssAccepts p |}.

(** *** personal.js *)

(** [getAttribute(..) + '%']: a missing attribute reads as [null]. *)
Definition percent (attr : option jsstring) : jsstring :=
  default (str "null") attr ++ str "%".

(** [skillProgresses.forEach(progress => { ... })]; [skillProgresses] lists
    the [.skill-progress] elements of the document with their [data-width]
    attribute. *)
Definition animateProgress (skillProgresses : list (elem * option jsstring))
    (p : page) : page :=
  foldl (fun p progress =>
           let width := percent (snd progress) in
           let p := perform (SetWidth (fst progress) width) p in
           perform (SetTransition (fst progress) (str "width 1.5s ease-in-out")) p)
        p skillProgresses.

(** [skillObserver] *)
Definition skillObserver (skillProgresses : list (elem * option jsstring))
    : list entry -> page -> page :=
  forEachIntersecting (fun target p =>
    let p := animateProgress skillProgresses p in
    perform (Unobserve target) p).

(** [timelineObserver] *)
Definition timelineObserver : list entry -> page -> page :=
  forEachIntersecting (fun target p =>
    let p := perform (ClassAdd target (str "visible")) p in
    perform (Unobserve target) p).

(** [sectionObserver] *)
Definition sectionObserver : list entry -> page -> page :=
  forEachIntersecting (fun target p =>
    let p := perform (ClassAdd target (str "revealed")) p in
    perform (Unobserve target) p).

(** *** The React components *)

(** The observer callback of [Experience]. *)
Definition experienceObserver : list entry -> page -> page :=
  forEachIntersecting (fun target p =>
    perform (ClassAdd target (str "visible")) p).

(** [progressBars.forEach(bar => { ... })] *)
Definition fillBars (progressBars : list (elem * option jsstring))
    (p : page) : page :=
  foldl (fun p bar =>
           let width := snd bar in
           if truthy_opt width
           then perform (SetWidth (fst bar) (default [] width ++ str "%")) p
           else p)
        p progressBars.

(** The observer callback of [Skills]; [progressBars target] lists the
    [.skill-progress] descendants of [target] with their [data-level]
    attribute. *)
Definition skillsObserver (progressBars : elem -> list (elem * option jsstring))
    : list entry -> page -> page :=
  forEachIntersecting (fun target p => fillBars (progressBars target) p).

(** *** The browser side *)

(** One notification: the observer reports [batch], of which the callback
    receives the entries whose target it observes at that time. *)
Definition notify (callback : list entry -> page -> page)
    (batch : list entry) (p : page) : page :=
  callback (List.filter (fun e => bool_decide (target e ∈ observed p)) batch) p.

Definition run (callback : list entry -> page -> page)
    (batches : list (list entry)) (p : page) : page :=
  foldl (fun p batch => notify callback batch p) p batches.

(** A batch reports each target at most once. *)
Definition wellFormed (batch : list entry) : Prop :=
  NoDup (List.map target batch).

(** How many times the calls [l] contain [a]. *)
Definition occurrences (a : action) (l : list action) : nat :=
  length (List.filter (fun b => bool_decide (b = a)) l).

(** How many times the calls [l] set the width of [e]. *)
Definition widthSets (e : elem) (l : list action) : nat :=
  length (List.filter (fun b => match b with
                                | SetWidth e' _ => bool_decide (e' = e)
                                | _ => false
                                end) l).

(** An observer is one-shot, with [count t] counting the marking calls
    made for the element [t]: starting from a page without earlier calls,
    whatever well-formed batches the browser reports, [t] is marked at most
    once, and once it is marked it is not observed any more. *)
Definition oneShot (callback : list entry -> page -> page)
    (count : elem -> list action -> nat) : Prop :=
  forall (p : page) (batches : list (list entry)) (t : elem),
    log p = [] ->
    Forall wellFormed batches ->
    count t (log (run callback batches p)) <= 1 /\
    (count t (log (run callback batches p)) = 1 ->
     t ∉ observed (run callback batches p)).

(** The same without the condition on the batches: the browser may report
    a target more than once in one notification, when it crossed the
    threshold more than once before the callback ran. *)
Definition oneShotAlways (callback : list entry -> page -> page)
    (count : elem -> list action -> nat) : Prop :=
  forall (p : page) (batches : list (list entry)) (t : elem),
    log p = [] ->
    count t (log (run callback batches p)) <= 1 /\
    (count t (log (run callback batches p)) = 1 ->
     t ∉ observed (run callback batches p)).

(** How many entries of [batches] report [t] as intersecting. *)
Definition reportsOf (t : elem) (entries : list entry) : nat :=
  length (List.filter (fun e => bool_decide (target e = t) && isIntersecting e)
                      entries).

Definition reports (t : elem) (batches : list (list entry)) : nat :=
  reportsOf t (concat batches).

(** The invariant behind [oneShot]: no element is marked twice, and an
    element still observed is not marked yet. *)
Definition markedOnce (count : elem -> list action -> nat) (p : page) : Prop :=
  forall t, count t (log p) <= 1 /\ (t ∈ observed p -> count t (log p) = 0).

(** The calls [skillObserver] makes for the progress elements. *)
Definition progressCalls (skillProgresses : list (elem * option jsstring))
    : list action :=
  flat_map (fun progress =>
              [ SetWidth (fst progress) (percent (snd progress));
                SetTransition (fst progress) (str "width 1.5s ease-in-out") ])
           skillProgresses.

(** A CSS parser for the examples: it accepts a run of decimal digits
    followed by "%", which every browser takes as a width, and rejects
    every other text. *)
Definition isDigit (c : N) : bool := ((48 <=? c) && (c <=? 57))%N.

Definition plainPercentage (w : jsstring) : bool :=
  match rev w with
  | c :: (d :: _) as digits => (c =? 37)%N && forallb isDigit digits
  | _ => false
  end.

(** A page where the observer observes exactly the elements [ts]. *)
Definition observing (ts : list elem) : page :=
  foldr observe
        {| classList := ∅; styleWidth := ∅; styleTransition := ∅;
           observed := ∅; log := []; cssAccepts := plainPercentage |}
        ts.

End Observers.

(** ** The project gallery *)
Module Gallery.
Import JS.

Record Project := {
  title : jsstring;
  description : jsstring;
  technologies : list jsstring;
  githubLink : jsstring;
  liveLink : jsstring;
  image : jsstring
}.

Definition projects : list Project :=
  [ {| title := str "Personal Portfolio";
       description := str "A responsive personal portfolio website built with Next.js and TypeScript";
       technologies := [str "Next.js"; str "TypeScript"; str "CSS"];
       githubLink := str "https://github.com/yourusername/portfolio";
       liveLink := str "https://your-portfolio.com";
       image := str "/portfolio.jpg" |};
    {| title := str "E-commerce Platform";
       description := str "Full-stack e-commerce platform with user authentication and payment integration";
       technologies := [str "React"; str "Node.js"; str "MongoDB"; str "Stripe"];
       githubLink := str "https://github.com/yourusername/ecommerce";
       liveLink := str "https://your-ecommerce.com";
       image := str "/ecommerce.jpg" |};
    {| title := str "ML Image Classifier";
       description := str "Machine learning model for image classification using TensorFlow";
       technologies := [str "Python"; str "TensorFlow"; str "OpenCV"];
       githubLink := str "https://github.com/yourusername/ml-classifier";
       liveLink := str "https://your-ml-app.com";
       image := str "/ml-project.jpg" |} ].

(** *** The [Projects] component *)

Record state := {
  selectedProject : option Project;
  isModalOpen : bool
}.

Definition initial : state :=
  {| selectedProject := None; isModalOpen := false |}.

Definition handleProjectClick (project : Project) (s : state) : state :=
  {| selectedProject := Some project; isModalOpen := true |}.

Definition closeModal (s : state) : state :=
  {| selectedProject := None; isModalOpen := false |}.

(** The modals the component renders: [isModalOpen && selectedProject && ...],
    bound to [selectedProject]. *)
Definition modals (s : state) : list Project :=
  if isModalOpen s
  then match selectedProject s with Some p => [p] | None => [] end
  else [].

(** Clicks: on the card of the [i]-th project, on the close control, on the
    backdrop, or inside the modal content (which stops propagation). *)
Inductive event :=
| CardClick (i : nat)
| CloseClick
| BackdropClick
| ContentClick.

Definition step (s : state) (ev : event) : state :=
  match ev with
  | CardClick i =>
      match projects !! i with
      | Some project => handleProjectClick project s
      | None => s
      end
  | CloseClick => closeModal s
  | BackdropClick => closeModal s
  | ContentClick => s
  end.

Definition reach (evs : list event) : state := foldl step initial evs.

(** *** The card listeners of personal.js *)
Module Script.

Definition QUOTE : jsstring := [34%N].
Definition NEWLINE : jsstring := [10%N].

(** One line of the template literal, after [n] spaces. *)
Definition line (n : nat) (s : jsstring) : jsstring :=
  repeat 32%N n ++ s ++ NEWLINE.

(** The template literal assigned to [modal.innerHTML], with [title] put in
    as it is at both places. *)
Definition modalHTML (title : jsstring) : jsstring :=
  NEWLINE
  ++ line 12 (str "<div class=" ++ QUOTE ++ str "modal-content" ++ QUOTE ++ str ">")
  ++ line 16 (str "<span class=" ++ QUOTE ++ str "close-modal" ++ QUOTE
              ++ str ">&times;</span>")
  ++ line 16 (str "<h2>" ++ title ++ str "</h2>")
  ++ line 16 (str "<p>This is a detailed view of the " ++ title
              ++ str " project. In a real portfolio, this would show more information about the project, technologies used, and possibly a live demo.</p>")
  ++ line 16 (str "<div class=" ++ QUOTE ++ str "modal-buttons" ++ QUOTE ++ str ">")
  ++ line 20 (str "<a href=" ++ QUOTE ++ str "#" ++ QUOTE ++ str " class=" ++ QUOTE
              ++ str "btn" ++ QUOTE ++ str ">View Demo</a>")
  ++ line 20 (str "<a href=" ++ QUOTE ++ str "#" ++ QUOTE ++ str " class=" ++ QUOTE
              ++ str "btn btn-outline" ++ QUOTE ++ str ">GitHub</a>")
  ++ line 16 (str "</div>")
  ++ line 12 (str "</div>")
  ++ repeat 32%N 8.

(** A [.project-modal] element appended to the body; [node] tells the
    elements apart, [assignedHTML] is the string that was assigned to its
    [innerHTML], from which the browser parsed its content. *)
Record modal := {
  node : nat;
  assignedHTML : jsstring
}.

Record page := {
  cardClasses : gmap nat (gset jsstring);  (* class list of each card *)
  bodyModals : list modal;                 (* modal children of the body *)
  created : nat;                           (* elements created so far *)
  timers : list nat                        (* cards with a pending 300 ms timer *)
}.

Definition initial : page :=
  {| cardClasses := ∅; bodyModals := []; created := 0; timers := [] |}.

(** The click listener of [card], whose [h3] reads [title]. *)
Definition onCardClick (card : nat) (title : jsstring) (p : page) : page :=
  {| cardClasses :=
       <[ card := default ∅ (cardClasses p !! card) ∪ {[ str "clicked" ]} ]>
         (cardClasses p);
     bodyModals :=
       bodyModals p ++ [ {| node := created p; assignedHTML := modalHTML title |} ];
     created := S (created p);
     timers := timers p ++ [card] |}.

(** The pending timers without the oldest one of [card]. *)
Fixpoint fired (card : nat) (pending : list nat) : list nat :=
  match pending with
  | [] => []
  | c :: rest => if Nat.eqb c card then rest else c :: fired card rest
  end.

(** A 300 ms timer of [card] fires: the oldest one, every click of the card
    having armed its own. *)
Definition onClickedTimer (card : nat) (p : page) : page :=
  {| cardClasses :=
       <[ card := default ∅ (cardClasses p !! card) ∖ {[ str "clicked" ]} ]>
         (cardClasses p);
     bodyModals := bodyModals p;
     created := created p;
     timers := fired card (timers p) |}.

(** [modal.remove()] *)
Definition remove (n : nat) (p : page) : page :=
  {| cardClasses := cardClasses p;
     bodyModals := List.filter (fun m => negb (Nat.eqb (node m) n)) (bodyModals p);
     created := created p;
     timers := timers p |}.

(** A click on the close control of modal [n], or a click landing on modal
    [n] with [e.target] the modal itself or not. *)
Inductive event :=
| CardClick (card : nat) (title : jsstring)
| CloseClick (n : nat)
| ModalClick (n : nat) (onBackdrop : bool).

Definition step (p : page) (ev : event) : page :=
  match ev with
  | CardClick card title => onCardClick card title p
  | CloseClick n => remove n p
  | ModalClick n onBackdrop => if onBackdrop then remove n p else p
  end.

Definition reach (evs : list event) : page := foldl step initial evs.

End Script.
End Gallery.

(** ** The typing effect *)
Module Typing.
Import JS.

(** The cursor: an element after the text. *)
Definition QUOTE : jsstring := [34%N].

Definition cursorHTML : jsstring :=
  str "<span class=" ++ QUOTE ++ str "cursor" ++ QUOTE ++ str ">|</span>".

(** *** The [Hero] component *)

Definition fullText : jsstring := str "I'm Zheyuan Lin, a Computer Science Student".

Record state := {
  text : jsstring;
  currentIndex : nat
}.

Definition initial : state := {| text := []; currentIndex := 0 |}.

(** [fullText[i]] inside a string concatenation: an index out of range
    reads [undefined]. *)
Definition charAtIndex (s : jsstring) (i : nat) : jsstring :=
  match s !! i with Some c => [c] | None => str "undefined" end.

(** Does the effect arm a timer in this state? *)
Definition timerArmed (s : state) : bool :=
  currentIndex s <? length fullText.

(** The callback of the timer the effect armed. *)
Definition onTimeout (s : state) : state :=
  {| text := text s ++ charAtIndex fullText (currentIndex s);
     currentIndex := currentIndex s + 1 |}.

(** A timer tick: the armed timer, if there is one, fires. *)
Definition tick (s : state) : state :=
  if timerArmed s then onTimeout s else s.

(** The children of the rendered [h1]: the text, then the cursor element,
    which the component renders in every state. *)
Record heading := {
  shownText : jsstring;
  cursorShown : bool
}.

Definition render (s : state) : heading :=
  {| shownText := text s; cursorShown := true |}.

(** *** personal.js *)
Module Script.
Local Open Scope N_scope.

(** **** The heading and its HTML

    The script reads and writes the heading through [innerHTML]: reading
    serialises the children of the heading, writing parses the string and
    replaces the children. Here the children are a run of text, followed
    or not by the cursor element. *)
Record content := {
  textData : jsstring;
  cursor : bool
}.

(** Serialisation of text: "&", "<", ">" and the no-break space are
    written as character references. *)
Definition escapeChar (c : codeunit) : jsstring :=
  if c =? 38 then str "&amp;"
  else if c =? 60 then str "&lt;"
  else if c =? 62 then str "&gt;"
  else if c =? 160 then str "&nbsp;"
  else [c].

Definition escapeText (s : jsstring) : jsstring := flat_map escapeChar s.

(** Reading [innerHTML]. *)
Definition serialize (k : content) : jsstring :=
  escapeText (textData k) ++ (if cursor k then cursorHTML else []).

(** Parsing starts by reading every CR LF pair and every other CR as one
    LF. *)
Fixpoint normalizeNewlines (s : jsstring) : jsstring :=
  match s with
  | [] => []
  | c :: rest =>
      if c =? 13
      then 10 :: match rest with
                 | d :: rest' =>
                     if d =? 10 then normalizeNewlines rest'
                     else normalizeNewlines rest
                 | [] => []
                 end
      else c :: normalizeNewlines rest
  end.

Definition isAsciiAlpha (c : codeunit) : bool :=
  ((65 <=? c) && (c <=? 90)) || ((97 <=? c) && (c <=? 122)).

Definition isAsciiAlphanumeric (c : codeunit) : bool :=
  isAsciiAlpha c || ((48 <=? c) && (c <=? 57)).

Definition startsWith (prefix s : jsstring) : bool :=
  bool_decide (take (length prefix) s = prefix).

(** After "&": the references the serialisation writes, with the code
    unit each stands for and the number of code units to skip. *)
Definition reference (rest : jsstring) : option (codeunit * nat) :=
  if startsWith (str "amp;") rest then Some (38, 4%nat)
  else if startsWith (str "lt;") rest then Some (60, 3%nat)
  else if startsWith (str "gt;") rest then Some (62, 3%nat)
  else if startsWith (str "nbsp;") rest then Some (160, 5%nat)
  else None.

(** After "&": does a named or numeric reference start here? Otherwise the
    "&" is text. *)
Definition opensReference (rest : jsstring) : bool :=
  match rest with
  | c :: _ => isAsciiAlphanumeric c || (c =? 35)
  | [] => false
  end.

(** After "<": does a tag, a comment or a declaration start here?
    Otherwise the "<" is text. *)
Definition opensMarkup (rest : jsstring) : bool :=
  match rest with
  | c :: _ => isAsciiAlpha c || (c =? 47) || (c =? 33) || (c =? 63)
  | [] => false
  end.

Definition emit (c : codeunit) (r : option content) : option content :=
  k ← r; Some {| textData := c :: textData k; cursor := cursor k |}.

(** The HTML parser on the strings the heading is given: text with the
    references above, ended or not by the cursor element. NUL is dropped.
    [None] stands for any other markup and any other reference, which this
    model does not cover. [skip] counts the code units of a reference
    still to pass over. *)
Fixpoint parseContent (skip : nat) (s : jsstring) : option content :=
  match s with
  | [] => Some {| textData := []; cursor := false |}
  | c :: rest =>
      match skip with
      | S skip' => parseContent skip' rest
      | O =>
          if c =? 0 then parseContent 0 rest
          else if c =? 60 then
            if bool_decide (c :: rest = cursorHTML)
            then Some {| textData := []; cursor := true |}
            else if opensMarkup rest then None
            else emit c (parseContent 0 rest)
          else if c =? 38 then
            match reference rest with
            | Some (d, n) => emit d (parseContent n rest)
            | None =>
                if opensReference rest then None
                else emit c (parseContent 0 rest)
            end
          else emit c (parseContent 0 rest)
      end
  end.

(** Writing [innerHTML]. *)
Definition parseHTML (s : jsstring) : option content :=
  parseContent 0 (normalizeNewlines s).

(** **** The typing loop *)

Record page := {
  children : content;       (* the children of [typingElement] *)
  i : nat;
  pending : bool            (* is a [typeWriter] timer armed? *)
}.

Definition innerHTML (p : page) : jsstring := serialize (children p).

(** After the start-up code, which empties the heading and arms the first
    timer. *)
Definition initial : page :=
  {| children := {| textData := []; cursor := false |};
     i := 0; pending := true |}.

(** [s.charAt(i)]: the empty string when out of range. *)
Definition charAt (s : jsstring) (i : nat) : jsstring :=
  match s !! i with Some c => [c] | None => [] end.

(** [typeWriter], for a heading that read [originalText];
    [typingElement.innerHTML += s] reads, appends and writes. *)
Definition typeWriter (originalText : jsstring) (p : page) : option page :=
  if (i p <? length originalText)%nat
  then k ← parseHTML (innerHTML p ++ charAt originalText (i p));
       Some {| children := k; i := i p + 1; pending := true |}
  else k ← parseHTML (innerHTML p ++ cursorHTML);
       Some {| children := k; i := i p; pending := false |}.

(** A timer tick: the armed timer, if there is one, fires. *)
Definition tick (originalText : jsstring) (p : page) : option page :=
  if pending p then typeWriter originalText p else Some p.

(** The page after [n] ticks. *)
Definition after (originalText : jsstring) (n : nat) : option page :=
  Nat.iter n (fun o => o ≫= tick originalText) (Some initial).

(** What typing [c] adds to the text of the heading. *)
Definition typed (c : codeunit) : jsstring :=
  if c =? 0 then [] else if c =? 13 then [10] else [c].

Definition typedText (s : jsstring) : jsstring := flat_map typed s.

(** Text that reads back from [innerHTML] as it was typed. *)
Definition plainChar (c : codeunit) : bool :=
  negb ((c =? 0) || (c =? 13) || (c =? 38) || (c =? 60) || (c =? 62)
        || (c =? 160)).

Definition plain (s : jsstring) : bool := forallb plainChar s.

End Script.
End Typing.

(** ** The input listeners of the page script (personal.js) *)
Module ScriptInputs.
Import JS RegExp ScriptForm.

(** [classList.remove('error')] on the group and [display = 'none'] on its
    message. *)
Definition hideError (c : control) : control :=
  {| value := value c; defaultValue := defaultValue c;
     groupClasses := groupClasses c ∖ {[ str "error" ]};
     errorDisplay := str "none" |}.

(** The control once the user's edit has set its value to [v]. *)
Definition withValue (v : jsstring) (c : control) : control :=
  {| value := v; defaultValue := defaultValue c;
     groupClasses := groupClasses c; errorDisplay := errorDisplay c |}.

(** The body of the input listeners of name, subject and message. *)
Definition requiredListener (c : control) : control :=
  if bool_decide (trim (value c) = []) then showError c else hideError c.

(** The body of the input listener of email. *)
Definition emailListener (c : control) : control :=
  if negb (test emailRegex (value c)) then showError c else hideError c.

(** An input event on a control: the edit gave it the value [v], then its
    listener runs. *)
Definition onNameInput (v : jsstring) (f : form) : form :=
  {| nameInput := requiredListener (withValue v (nameInput f));
     emailInput := emailInput f; subjectInput := subjectInput f;
     messageInput := messageInput f; submitBtn := submitBtn f |}.

Definition onEmailInput (v : jsstring) (f : form) : form :=
  {| nameInput := nameInput f;
     emailInput := emailListener (withValue v (emailInput f));
     subjectInput := subjectInput f;
     messageInput := messageInput f; submitBtn := submitBtn f |}.

Definition onSubjectInput (v : jsstring) (f : form) : form :=
  {| nameInput := nameInput f; emailInput := emailInput f;
     subjectInput := requiredListener (withValue v (subjectInput f));
     messageInput := messageInput f; submitBtn := submitBtn f |}.

Definition onMessageInput (v : jsstring) (f : form) : form :=
  {| nameInput := nameInput f; emailInput := emailInput f;
     subjectInput := subjectInput f;
     messageInput := requiredListener (withValue v (messageInput f));
     submitBtn := submitBtn f |}.

(** Every control shows its error mark exactly when the check the submit
    listener makes on its value fails. *)
Definition marksCurrent (f : form) : Prop :=
  hasError (nameInput f) = blank (value (nameInput f)) /\
  hasError (emailInput f) = negb (test emailRegex (value (emailInput f))) /\
  hasError (subjectInput f) = blank (value (subjectInput f)) /\
  hasError (messageInput f) = blank (value (messageInput f)).

(** A form as a page may declare it: empty controls without marks and an
    enabled button. *)
Definition emptyControl : control :=
  {| value := []; defaultValue := []; groupClasses := {[ str "form-group" ]};
     errorDisplay := [] |}.

Definition blankForm : form :=
  {| nameInput := emptyControl; emailInput := emptyControl;
     subjectInput := emptyControl; messageInput := emptyControl;
     submitBtn := {| textContent := str "Send Message"; disabled := false;
                     btnClasses := {[ str "btn" ]} |} |}.

(** The blank form after the user filled in all four controls. *)
Definition filledForm : form :=
  onMessageInput (str "hi")
    (onSubjectInput (str "Hello")
       (onEmailInput (str "a@b.com")
          (onNameInput (str "A") blankForm))).

(** Some control shows its error mark. *)
Definition anyError (f : form) : bool :=
  hasError (nameInput f) || hasError (emailInput f)
  || hasError (subjectInput f) || hasError (messageInput f).

End ScriptInputs.

(** ** A session of the [Contact] component: edits, submits and the
    settling of submissions *)
Module ContactSession.
Import JS Contact.

Inductive event :=
| Change (f : field) (value : jsstring)   (* an input change *)
| Submit                                  (* the submit control is used *)
| Settle (o : outcome).                   (* an awaited submission settles *)

(** The component state and the number of submissions awaited. *)
Record session := {
  current : state;
  inFlight : nat
}.

Definition start : session := {| current := initial; inFlight := 0 |}.

(** A disabled submit control submits nothing; there is nothing to settle
    when no submission is awaited. *)
Definition step (x : session) (ev : event) : session :=
  match ev with
  | Change f value =>
      {| current := handleChange f value (current x); inFlight := inFlight x |}
  | Submit =>
      if submitDisabled (current x) then x
      else match handleSubmit (current x) with
           | Blocked s => {| current := s; inFlight := inFlight x |}
           | Awaiting s => {| current := s; inFlight := S (inFlight x) |}
           end
  | Settle o =>
      match inFlight x with
      | 0 => x
      | S n => {| current := afterAwait o (current x); inFlight := n |}
      end
  end.

Definition after (evs : list event) : session := foldl step start evs.

Definition isChange (ev : event) : Prop :=
  match ev with Change _ _ => True | _ => False end.

End ContactSession.

(** ** Navigation: the scrolled header and the mobile menu *)
Module Navigation.
Import JS.

(** [classList.toggle(c, force)] *)
Definition classToggleForce (c : jsstring) (force : bool) (cl : gset jsstring)
    : gset jsstring :=
  if force then cl ∪ {[ c ]} else cl ∖ {[ c ]}.

(** [window.scrollY > 50]; a scroll position is a finite number, here a
    rational. *)
Definition pastThreshold (scrollY : Q) : bool := negb (Qle_bool scrollY (inject_Z 50)).

(** *** personal.js *)

Record page := {
  headerClasses : gset jsstring;           (* header.classList *)
  navLinks : gset jsstring;                (* navLinks.classList *)
  hamburgerLines : list (gset jsstring)    (* class lists of [.hamburger div] *)
}.

(** The scroll listener. *)
Definition onScroll (p : page) (scrollY : Q) : page :=
  {| headerClasses :=
       classToggleForce (str "scrolled") (pastThreshold scrollY) (headerClasses p);
     navLinks := navLinks p;
     hamburgerLines := hamburgerLines p |}.

(** The click listener of the hamburger. *)
Definition onHamburgerClick (p : page) : page :=
  {| headerClasses := headerClasses p;
     navLinks := Theme.classToggle (str "active") (navLinks p);
     hamburgerLines :=
       List.map (Theme.classToggle (str "active")) (hamburgerLines p) |}.

(** How the click listener of an anchor ends: with a smooth scroll to
    [top], or with the exception of reading [offsetTop] of [null]. *)
Inductive completion :=
| ScrollTo (top : Z)
| Threw.

(** The click listener of an [a[href^="#"]]; [target] is the [offsetTop] of
    the element the [href] selects, if there is one. *)
Definition onAnchorClick (target : option Z) (p : page) : page * completion :=
  let p :=
    if bool_decide (str "active" ∈ navLinks p)
    then {| headerClasses := headerClasses p;
            navLinks := navLinks p ∖ {[ str "active" ]};
            hamburgerLines := hamburgerLines p |}
    else p in
  match target with
  | Some offsetTop => (p, ScrollTo (offsetTop - 70)%Z)
  | None => (p, Threw)
  end.

Definition menuOpen (p : page) : bool :=
  bool_decide (str "active" ∈ navLinks p).

(** Does every line of the hamburger show the cross ([b = true]) or the
    bars ([b = false])? *)
Definition linesShow (b : bool) (p : page) : Prop :=
  Forall (fun cl => bool_decide (str "active" ∈ cl) = b) (hamburgerLines p).

(** *** The [Header] component *)
Module Header.

Record state := {
  isScrolled : bool;
  isMobileMenuOpen : bool
}.

Definition handleScroll (s : state) (scrollY : Q) : state :=
  {| isScrolled := pastThreshold scrollY;
     isMobileMenuOpen := isMobileMenuOpen s |}.

Definition toggleMobileMenu (s : state) : state :=
  {| isScrolled := isScrolled s;
     isMobileMenuOpen := negb (isMobileMenuOpen s) |}.

End Header.
End Navigation.

(** ** The skill cards of the [Skills] component *)
Module SkillCards.

(** The click handler of the card at [index]:
    [setExpandedSkill(expandedSkill === index ? null : index)]. *)
Definition onCardClick (expandedSkill : option nat) (index : nat) : option nat :=
  if bool_decide (expandedSkill = Some index) then None else Some index.

(** Does the card at [index] carry the class [expanded]? *)
Definition isExpanded (expandedSkill : option nat) (index : nat) : bool :=
  bool_decide (expandedSkill = Some index).

End SkillCards.

(** * Properties *)

(** ** Strings *)
Section Strings.
Import JS.

Lemma trimStart_nil_iff (s : jsstring) : trimStart s = [] <-> blank s = true.
Proof.
  induction s as [|c s IH]; simpl; [tauto|].
  destruct (isWhiteSpace c); simpl; [exact IH|].
  split; discriminate.
Qed.

Lemma blank_app (s t : jsstring) : blank (s ++ t) = blank s && blank t.
Proof. apply forallb_app. Qed.

Lemma blank_rev (s : jsstring) : blank (rev s) = blank s.
Proof.
  induction s as [|c s IH]; [reflexivity|].
  simpl rev. rewrite blank_app, IH. simpl.
  destruct (isWhiteSpace c), (blank s); reflexivity.
Qed.

Lemma blank_trimStart (s : jsstring) : blank (trimStart s) = blank s.
Proof.
  induction s as [|c s IH]; [reflexivity|].
  simpl. destruct (isWhiteSpace c) eqn:E; simpl; [exact IH|].
  rewrite E. reflexivity.
Qed.

Lemma trim_nil_iff (s : jsstring) : trim s = [] <-> blank s = true.
Proof.
  unfold trim, trimEnd. split.
  - intros H.
    assert (E : trimStart (rev (trimStart s)) = []).
    { destruct (trimStart (rev (trimStart s))) as [|c r]; [reflexivity|].
      simpl in H. destruct (rev r); discriminate. }
    apply trimStart_nil_iff in E.
    rewrite blank_rev, blank_trimStart in E. exact E.
  - intros H. apply trimStart_nil_iff in H. rewrite H. reflexivity.
Qed.

Lemma truthy_trim (s : jsstring) : truthy (trim s) = negb (blank s).
Proof.
  destruct (blank s) eqn:E.
  - apply trim_nil_iff in E. rewrite E. reflexivity.
  - destruct (trim s) eqn:T; [|reflexivity].
    apply trim_nil_iff in T. congruence.
Qed.

End Strings.

(** ** The derivative matcher decides the language of a pattern *)
Section RegExpCorrect.
Import JS RegExp.

Lemma lang_Cat_inv (r1 r2 : regex) (s : jsstring) :
  lang (Cat r1 r2) s -> exists s1 s2, s = s1 ++ s2 /\ lang r1 s1 /\ lang r2 s2.
Proof. inversion 1; subst; eauto. Qed.

Lemma nullable_lang (r : regex) : nullable r = true <-> lang r [].
Proof.
  induction r as [| | a | items | r1 IH1 r2 IH2 | r IH]; simpl.
  - split; [constructor | reflexivity].
  - split; [discriminate | inversion 1].
  - split; [discriminate | inversion 1].
  - split; [discriminate | inversion 1].
  - rewrite andb_true_iff, IH1, IH2. split.
    + intros [H1 H2]. exact (LCat _ _ [] [] H1 H2).
    + intros H. apply lang_Cat_inv in H as (s1 & s2 & E & H1 & H2).
      symmetry in E. apply app_eq_nil in E as [-> ->]. split; assumption.
  - split; [constructor | reflexivity].
Qed.

(** A word of [r] that starts with [c] continues as a word of a derivative. *)
Lemma lang_deriv (r : regex) (w : jsstring) :
  lang r w ->
  forall c s, w = c :: s -> exists d, In d (deriv c r) /\ lang d s.
Proof.
  induction 1 as [| c' | a c' Ha | items c' Hc | r1 r2 s1 s2 H1 IH1 H2 IH2
                  | r | r c' s1 s2 H1 IH1 H2 IH2]; intros c s E.
  - discriminate.
  - injection E as -> <-. exists Eps. simpl. split; [auto | constructor].
  - injection E as -> <-. exists Eps. simpl. rewrite Ha.
    split; [left; reflexivity | constructor].
  - injection E as -> <-. exists Eps. simpl. rewrite Hc.
    split; [left; reflexivity | constructor].
  - destruct s1 as [|c1 s1]; simpl in E.
    + destruct (IH2 c s E) as (d & Hd & Hl).
      exists d. simpl. split; [|exact Hl].
      apply in_or_app. right.
      assert (Hn : nullable r1 = true) by (apply nullable_lang; exact H1).
      rewrite Hn. exact Hd.
    + injection E as -> <-.
      destruct (IH1 c s1 eq_refl) as (d & Hd & Hl).
      exists (Cat d r2). simpl. split.
      * apply in_or_app. left. apply in_map_iff. exists d. auto.
      * constructor; assumption.
  - discriminate.
  - injection E as -> <-.
    destruct (IH1 c s1 eq_refl) as (d & Hd & Hl).
    exists (Cat d (Star r)). simpl. split.
    + apply in_map_iff. exists d. auto.
    + constructor; assumption.
Qed.

(** Conversely, a word of a derivative by [c] extends to a word of [r]. *)
Lemma deriv_lang (r : regex) :
  forall c d s, In d (deriv c r) -> lang d s -> lang r (c :: s).
Proof.
  induction r as [| | a | items | r1 IH1 r2 IH2 | r IH];
    simpl; intros c d s Hd Hl.
  - contradiction.
  - destruct Hd as [<- | []]. inversion Hl; subst. constructor.
  - destruct (atom_matches a c) eqn:Ha; [|contradiction].
    destruct Hd as [<- | []]. inversion Hl; subst. constructor; exact Ha.
  - destruct (class_matches items c) eqn:Hc; [contradiction|].
    destruct Hd as [<- | []]. inversion Hl; subst. constructor; exact Hc.
  - apply in_app_or in Hd as [Hd | Hd].
    + apply in_map_iff in Hd as (d1 & <- & Hd1).
      apply lang_Cat_inv in Hl as (s1 & s2 & -> & L1 & L2).
      change (c :: s1 ++ s2) with ((c :: s1) ++ s2).
      constructor; [|exact L2]. eapply IH1; eassumption.
    + destruct (nullable r1) eqn:Hn; [|contradiction].
      change (c :: s) with ([] ++ c :: s).
      constructor; [apply nullable_lang; exact Hn|].
      eapply IH2; eassumption.
  - apply in_map_iff in Hd as (d1 & <- & Hd1).
    apply lang_Cat_inv in Hl as (s1 & s2 & -> & L1 & L2).
    constructor; [|exact L2]. eapply IH; eassumption.
Qed.

Lemma matches_any_lang (s : jsstring) :
  forall rs, matches_any rs s = true <-> exists r, In r rs /\ lang r s.
Proof.
  induction s as [|c s IH]; intros rs; simpl.
  - rewrite existsb_exists. split; intros (r & Hr & H); exists r;
      (split; [exact Hr | apply nullable_lang; exact H]).
  - rewrite IH. split.
    + intros (d & Hd & Hl).
      apply in_concat in Hd as (ds & Hds & Hd).
      apply in_map_iff in Hds as (r & <- & Hr).
      exists r. split; [exact Hr|]. eapply deriv_lang; eassumption.
    + intros (r & Hr & Hl).
      destruct (lang_deriv r _ Hl c s eq_refl) as (d & Hd & Hl').
      exists d. split; [|exact Hl'].
      apply in_concat. exists (deriv c r). split; [|exact Hd].
      apply in_map_iff. exists r. auto.
Qed.

Lemma matches_lang (r : regex) (s : jsstring) :
  matches r s = true <-> lang r s.
Proof.
  unfold matches. rewrite matches_any_lang. split.
  - intros (r' & [<- | []] & H). exact H.
  - intros H. exists r. simpl. auto.
Qed.

Lemma lang_star_any (s : jsstring) : lang (Star Any) s.
Proof.
  induction s as [|c s IH]; [constructor|].
  change (c :: s) with (c :: [] ++ s). constructor; [constructor | exact IH].
Qed.

Lemma lang_Lit_inv (c : N) (s : jsstring) : lang (Atom (Lit c)) s -> s = [c].
Proof.
  intros H. inversion H as [| | a c' Ha | | | |]. subst. simpl in Ha.
  apply N.eqb_eq in Ha. subst. reflexivity.
Qed.

(** [test] on a pattern: a match of the body somewhere in the string, at
    its ends where the pattern is anchored. *)
Lemma test_lang (p : pattern) (s : jsstring) :
  test p s = true <->
  exists pre mid post,
    s = pre ++ mid ++ post /\ lang (body p) mid /\
    (anchoredStart p = true -> pre = []) /\
    (anchoredEnd p = true -> post = []).
Proof.
  unfold test. rewrite matches_lang. split.
  - intros H.
    apply lang_Cat_inv in H as (pre & rest & -> & Hpre & H).
    apply lang_Cat_inv in H as (mid & post & -> & Hmid & Hpost).
    exists pre, mid, post. repeat split; [exact Hmid | |].
    + intros E. rewrite E in Hpre. inversion Hpre. reflexivity.
    + intros E. rewrite E in Hpost. inversion Hpost. reflexivity.
  - intros (pre & mid & post & -> & Hmid & Hs & He).
    constructor; [|constructor; [exact Hmid|]].
    + destruct (anchoredStart p); [rewrite Hs by reflexivity; constructor|].
      apply lang_star_any.
    + destruct (anchoredEnd p); [rewrite He by reflexivity; constructor|].
      apply lang_star_any.
Qed.

(** Runs of one-character expressions: [r*] and [r+]. *)
Lemma oneChar_NonSpace : oneChar (Atom NonSpace) (fun c => negb (isWhiteSpace c)).
Proof.
  intros s. split.
  - intros H. inversion H as [| | a c Ha | | | |]; subst. eauto.
  - intros (c & -> & Hc). constructor. exact Hc.
Qed.

Lemma oneChar_NegClass (items : list atom) :
  oneChar (NegClass items) (fun c => negb (class_matches items c)).
Proof.
  intros s. split.
  - intros H. inversion H as [| | | its c Hc | | |]; subst.
    exists c. rewrite Hc. auto.
  - intros (c & -> & Hc). constructor. apply negb_true_iff, Hc.
Qed.

Lemma lang_Star_oneChar (r : regex) (f : N -> bool) (s : jsstring) :
  oneChar r f -> (lang (Star r) s <-> forallb f s = true).
Proof.
  intros Hr. induction s as [|c s IH]; simpl.
  - split; [reflexivity | constructor].
  - rewrite andb_true_iff, <- IH. split.
    + intros H. inversion H as [| | | | | | r' c' s1 s2 H1 H2]; subst.
      apply Hr in H1 as (c'' & E & Hc). injection E as <- ->. auto.
    + intros [Hc Hs]. change (c :: s) with (c :: [] ++ s).
      constructor; [|exact Hs]. apply Hr. eauto.
Qed.

Lemma lang_Plus_oneChar (r : regex) (f : N -> bool) (s : jsstring) :
  oneChar r f -> (lang (Plus r) s <-> s <> [] /\ forallb f s = true).
Proof.
  intros Hr. unfold Plus. split.
  - intros H. apply lang_Cat_inv in H as (s1 & s2 & -> & H1 & H2).
    apply Hr in H1 as (c & -> & Hc).
    apply (lang_Star_oneChar r f s2 Hr) in H2.
    split; [discriminate|]. simpl. rewrite Hc, H2. reflexivity.
  - intros [Hne Hs]. destruct s as [|c s]; [congruence|].
    simpl in Hs. apply andb_true_iff in Hs as [Hc Hs].
    change (c :: s) with ([c] ++ s). constructor.
    + apply Hr. eauto.
    + apply (lang_Star_oneChar r f s Hr), Hs.
Qed.

(** The words of [X+ @ Y+ \. Z+] for one-character [X], [Y], [Z]. *)
Lemma lang_address (X Y Z : regex) (fx fy fz : N -> bool) (s : jsstring) :
  oneChar X fx -> oneChar Y fy -> oneChar Z fz ->
  (lang (Cat (Plus X) (Cat (Atom (Lit AT)) (Cat (Plus Y)
        (Cat (Atom (Lit DOT)) (Plus Z))))) s <->
   exists u v w,
     s = u ++ AT :: v ++ DOT :: w /\
     (u <> [] /\ forallb fx u = true) /\
     (v <> [] /\ forallb fy v = true) /\
     (w <> [] /\ forallb fz w = true)).
Proof.
  intros HX HY HZ. split.
  - intros H.
    apply lang_Cat_inv in H as (u & r1 & -> & Hu & H).
    apply lang_Cat_inv in H as (a & r2 & -> & Ha & H).
    apply lang_Cat_inv in H as (v & r3 & -> & Hv & H).
    apply lang_Cat_inv in H as (d & w & -> & Hd & Hw).
    apply lang_Lit_inv in Ha as ->. apply lang_Lit_inv in Hd as ->.
    exists u, v, w. split; [reflexivity|].
    rewrite <- (lang_Plus_oneChar X fx u HX), <- (lang_Plus_oneChar Y fy v HY),
      <- (lang_Plus_oneChar Z fz w HZ). auto.
  - intros (u & v & w & -> & Hu & Hv & Hw).
    apply (lang_Plus_oneChar X fx u HX) in Hu.
    apply (lang_Plus_oneChar Y fy v HY) in Hv.
    apply (lang_Plus_oneChar Z fz w HZ) in Hw.
    constructor; [exact Hu|].
    change (AT :: v ++ DOT :: w) with ([AT] ++ v ++ [DOT] ++ w).
    constructor; [constructor; apply N.eqb_refl|].
    constructor; [exact Hv|].
    constructor; [constructor; apply N.eqb_refl | exact Hw].
Qed.

End RegExpCorrect.

(** ** The email patterns *)
Section EmailPatterns.
Import JS RegExp.

Lemma dotAfterAt_has_at (s : jsstring) : dotAfterAt s -> AT ∈ s.
Proof.
  intros (a & b & c & ->). apply list_elem_of_In, in_or_app. right. left.
  reflexivity.
Qed.

(** Any pattern of the shape [X @ Y \. Z] matches only strings with a "."
    after an "@". *)
Lemma at_dot_shape (X Y Z : regex) (mid : jsstring) :
  lang (Cat X (Cat (Atom (Lit AT)) (Cat Y (Cat (Atom (Lit DOT)) Z)))) mid ->
  dotAfterAt mid.
Proof.
  intros H.
  apply lang_Cat_inv in H as (u & r1 & -> & _ & H).
  apply lang_Cat_inv in H as (a & r2 & -> & Ha & H).
  apply lang_Cat_inv in H as (v & r3 & -> & _ & H).
  apply lang_Cat_inv in H as (d & w & -> & Hd & _).
  apply lang_Lit_inv in Ha as ->. apply lang_Lit_inv in Hd as ->.
  exists u, v, w. reflexivity.
Qed.

Lemma dotAfterAt_extend (pre mid post : jsstring) :
  dotAfterAt mid -> dotAfterAt (pre ++ mid ++ post).
Proof.
  intros (a & b & c & ->). exists (pre ++ a), b, (c ++ post).
  repeat (rewrite <- ?app_assoc; simpl). reflexivity.
Qed.

Lemma emailPattern_dotAfterAt (s : jsstring) :
  test Contact.emailPattern s = true -> dotAfterAt s.
Proof.
  intros H. apply test_lang in H as (pre & mid & post & -> & H & _).
  apply dotAfterAt_extend. exact (at_dot_shape _ _ _ _ H).
Qed.

Lemma emailRegex_dotAfterAt (s : jsstring) :
  test ScriptForm.emailRegex s = true -> dotAfterAt s.
Proof.
  intros H. apply test_lang in H as (pre & mid & post & -> & H & _).
  apply dotAfterAt_extend. exact (at_dot_shape _ _ _ _ H).
Qed.

(** What the two validators accept as an email. *)
Lemma emailPattern_accepts (s : jsstring) :
  test Contact.emailPattern s = true <->
  exists pre u v w post,
    s = pre ++ (u ++ AT :: v ++ DOT :: w) ++ post /\
    (u <> [] /\ forallb (fun c => negb (isWhiteSpace c)) u = true) /\
    (v <> [] /\ forallb (fun c => negb (isWhiteSpace c)) v = true) /\
    (w <> [] /\ forallb (fun c => negb (isWhiteSpace c)) w = true).
Proof.
  rewrite test_lang. unfold Contact.emailPattern. cbn [body anchoredStart anchoredEnd].
  split.
  - intros (pre & mid & post & -> & H & _).
    apply (lang_address _ _ _ _ _ _ mid oneChar_NonSpace oneChar_NonSpace
             oneChar_NonSpace) in H as (u & v & w & -> & Hu & Hv & Hw).
    exists pre, u, v, w, post. auto.
  - intros (pre & u & v & w & post & -> & Hu & Hv & Hw).
    exists pre, (u ++ AT :: v ++ DOT :: w), post.
    split; [reflexivity|]. split; [|split; discriminate].
    apply (lang_address _ _ _ _ _ _ _ oneChar_NonSpace oneChar_NonSpace
             oneChar_NonSpace).
    exists u, v, w. auto.
Qed.

Lemma emailRegex_accepts (s : jsstring) :
  test ScriptForm.emailRegex s = true <->
  exists u v w,
    s = u ++ AT :: v ++ DOT :: w /\
    (u <> [] /\ forallb (fun c => negb (isWhiteSpace c || (c =? AT)%N)) u = true) /\
    (v <> [] /\ forallb (fun c => negb (isWhiteSpace c || (c =? AT)%N)) v = true) /\
    (w <> [] /\ forallb (fun c => negb (isWhiteSpace c || (c =? AT)%N)) w = true).
Proof.
  assert (Hc : oneChar (NegClass [Space; Lit AT])
                 (fun c => negb (isWhiteSpace c || (c =? AT)%N))).
  { intros x. rewrite (oneChar_NegClass [Space; Lit AT] x).
    split; intros (c & -> & H); exists c; (split; [reflexivity|]);
      revert H; unfold class_matches; simpl; rewrite orb_false_r; exact id. }
  rewrite test_lang. unfold ScriptForm.emailRegex.
  cbn [body anchoredStart anchoredEnd]. split.
  - intros (pre & mid & post & -> & H & Hs & He).
    rewrite (Hs eq_refl), (He eq_refl), app_nil_r. simpl.
    apply (lang_address _ _ _ _ _ _ mid Hc Hc Hc) in H. exact H.
  - intros H. exists [], s, []. rewrite app_nil_r. simpl.
    split; [reflexivity|]. split; [|auto].
    apply (lang_address _ _ _ _ _ _ s Hc Hc Hc). exact H.
Qed.

(** Both patterns fail on a string without "@", and on one without "."
    after an "@". *)
Lemma patterns_reject (s : jsstring) :
  AT ∉ s \/ ~ dotAfterAt s ->
  test Contact.emailPattern s = false /\ test ScriptForm.emailRegex s = false.
Proof.
  intros H.
  assert (Hn : ~ dotAfterAt s).
  { destruct H as [H | H]; [|exact H].
    intros D. apply H, dotAfterAt_has_at, D. }
  split.
  - destruct (test Contact.emailPattern s) eqn:E; [|reflexivity].
    destruct (Hn (emailPattern_dotAfterAt s E)).
  - destruct (test ScriptForm.emailRegex s) eqn:E; [|reflexivity].
    destruct (Hn (emailRegex_dotAfterAt s E)).
Qed.

End EmailPatterns.

(** ** The [Contact] component *)
Section ContactProperties.
Import JS RegExp Contact.

Lemma validateForm_name (fd : FormData) :
  getError (fst (validateForm fd)) FName =
  if blank (name fd) then Some (str "Name is required") else None.
Proof.
  unfold validateForm. rewrite !truthy_trim, !negb_involutive.
  destruct (blank (name fd)), (blank (email fd)),
    (test emailPattern (email fd)), (blank (message fd)); reflexivity.
Qed.

Lemma validateForm_email (fd : FormData) :
  getError (fst (validateForm fd)) FEmail =
  if blank (email fd) then Some (str "Email is required")
  else if test emailPattern (email fd) then None
  else Some (str "Email is invalid").
Proof.
  unfold validateForm. rewrite !truthy_trim, !negb_involutive.
  destruct (blank (name fd)), (blank (email fd)),
    (test emailPattern (email fd)), (blank (message fd)); reflexivity.
Qed.

Lemma validateForm_message (fd : FormData) :
  getError (fst (validateForm fd)) FMessage =
  if blank (message fd) then Some (str "Message is required") else None.
Proof.
  unfold validateForm. rewrite !truthy_trim, !negb_involutive.
  destruct (blank (name fd)), (blank (email fd)),
    (test emailPattern (email fd)), (blank (message fd)); reflexivity.
Qed.

(** [validateForm] returns [true] exactly when no field is blank and the
    email matches the pattern. *)
Lemma validateForm_result (fd : FormData) :
  snd (validateForm fd) =
  negb (blank (name fd)) && negb (blank (email fd))
  && test emailPattern (email fd) && negb (blank (message fd)).
Proof.
  unfold validateForm. rewrite !truthy_trim, !negb_involutive.
  destruct (blank (name fd)), (blank (email fd)),
    (test emailPattern (email fd)), (blank (message fd)); reflexivity.
Qed.

Lemma handleSubmit_valid (s : state) :
  snd (validateForm (formData s)) = true ->
  handleSubmit s =
  Awaiting (setSubmitStatus None (setIsSubmitting true
             (setErrors (fst (validateForm (formData s))) s))).
Proof.
  unfold handleSubmit. destruct (validateForm (formData s)) as [e ok].
  simpl. intros ->. reflexivity.
Qed.

Lemma handleSubmit_invalid (s : state) :
  snd (validateForm (formData s)) = false ->
  handleSubmit s = Blocked (setErrors (fst (validateForm (formData s))) s).
Proof.
  unfold handleSubmit. destruct (validateForm (formData s)) as [e ok].
  simpl. intros ->. reflexivity.
Qed.

(** A rejection leaves the fields as they are when it arrives, whatever was
    typed while the submission was pending; a resolution empties them. *)
Lemma afterAwait_formData (o : outcome) (cur : state) :
  formData (afterAwait o cur) =
  match o with Resolved => emptyForm | Rejected => formData cur end.
Proof. destruct o; reflexivity. Qed.

Lemma afterAwait_enabled (o : outcome) (cur : state) :
  submitDisabled (afterAwait o cur) = false.
Proof. destruct o; reflexivity. Qed.

Lemma afterAwait_errors (o : outcome) (cur : state) :
  errors (afterAwait o cur) = errors cur.
Proof. destruct o; reflexivity. Qed.

Lemma getError_insert_eq (e : gmap field (option jsstring)) (f : field)
    (v : option jsstring) :
  getError (<[f := v]> e) f = v.
Proof. unfold getError. rewrite lookup_insert_eq. reflexivity. Qed.

Lemma getError_insert_ne (e : gmap field (option jsstring)) (f g : field)
    (v : option jsstring) :
  f <> g -> getError (<[f := v]> e) g = getError e g.
Proof. intros H. unfold getError. rewrite lookup_insert_ne by exact H. reflexivity. Qed.

Lemma handleChange_formData (f : field) (value : jsstring) (s : state) :
  formData (handleChange f value s) = withField f value (formData s).
Proof.
  unfold handleChange. destruct (truthy_opt (getError (errors s) f)); reflexivity.
Qed.

(** An input change leaves every error as it was, except that it removes a
    displayed error of the changed field. *)
Lemma handleChange_errors (f g : field) (value : jsstring) (s : state) :
  getError (errors (handleChange f value s)) g =
  if bool_decide (f = g) && fieldErrorShown s f then None
  else getError (errors s) g.
Proof.
  unfold handleChange, fieldErrorShown.
  destruct (truthy_opt (getError (errors s) f)) eqn:E; simpl.
  - case_bool_decide as Hfg; simpl.
    + subst g. apply getError_insert_eq.
    + apply getError_insert_ne, Hfg.
  - rewrite andb_false_r. reflexivity.
Qed.

(** C1: a submit of valid data from the idle state commits the submitting
    state (control disabled, fields kept) and invokes the submission once;
    when it resolves the form is in the success state with the three fields
    empty and the success message shown, when it rejects the form is in the
    error state with the fields unchanged and the error message shown; the
    submit control is enabled again either way. *)
Theorem valid_submit_success_or_atomic_error
    (op : FormData -> outcome) (s : state) :
  phaseOf s = Idle ->
  snd (validateForm (formData s)) = true ->
  exists s1 s2,
    submitWith op s = {| trace := [s1; s2]; invocations := [formData s] |} /\
    phaseOf s1 = Submitting /\ submitDisabled s1 = true /\
    formData s1 = formData s /\
    submitDisabled s2 = false /\
    match op (formData s) with
    | Resolved =>
        phaseOf s2 = Succeeded /\ formData s2 = emptyForm /\
        successMessage s2 = Some (str "Message sent successfully!") /\
        errorMessage s2 = None
    | Rejected =>
        phaseOf s2 = Failed /\ formData s2 = formData s /\
        errorMessage s2 = Some (str "Failed to send message. Please try again.") /\
        successMessage s2 = None
    end.
Proof.
  intros _ Hvalid.
  unfold submitWith. rewrite (handleSubmit_valid s Hvalid).
  eexists _, _. split; [reflexivity|].
  cbn. destruct (op (formData s)); cbn; repeat split; reflexivity.
Qed.

Lemma valid_submit_example_resolved :
  exists s1 s2,
    submitWith simulatedSubmission (setFormData exampleData initial) =
      {| trace := [s1; s2]; invocations := [exampleData] |} /\
    phaseOf s1 = Submitting /\ submitDisabled s1 = true /\
    formData s1 = exampleData /\
    submitDisabled s2 = false /\
    phaseOf s2 = Succeeded /\ formData s2 = emptyForm /\
    successMessage s2 = Some (str "Message sent successfully!") /\
    errorMessage s2 = None.
Proof.
  apply (valid_submit_success_or_atomic_error simulatedSubmission
           (setFormData exampleData initial)); reflexivity.
Defined.

(** The same example with a submission that fails. *)
Lemma valid_submit_example_rejected :
  exists s1 s2,
    submitWith (fun _ => Rejected) (setFormData exampleData initial) =
      {| trace := [s1; s2]; invocations := [exampleData] |} /\
    phaseOf s2 = Failed /\ formData s2 = exampleData /\
    submitDisabled s2 = false.
Proof.
  eexists _, _. vm_compute. repeat split; reflexivity.
Qed.

End ContactProperties.

(** ** The contact form of the page script *)
Section ScriptFormProperties.
Import JS RegExp ScriptForm.

Lemma hasError_showError (c : control) : hasError (showError c) = true.
Proof. unfold hasError. apply bool_decide_eq_true. simpl. set_solver. Qed.

Lemma bool_decide_trim (s : jsstring) : bool_decide (trim s = []) = blank s.
Proof.
  destruct (blank s) eqn:E.
  - apply bool_decide_eq_true, trim_nil_iff, E.
  - apply bool_decide_eq_false. rewrite trim_nil_iff. congruence.
Qed.

Lemma validate_name (f : form) :
  nameInput (fst (validate f)) =
  if blank (value (nameInput f)) then showError (nameInput f) else nameInput f.
Proof.
  unfold validate. rewrite !bool_decide_trim.
  destruct (blank (value (nameInput f))), (test emailRegex (value (emailInput f))),
    (blank (value (subjectInput f))), (blank (value (messageInput f))); reflexivity.
Qed.

Lemma validate_email (f : form) :
  emailInput (fst (validate f)) =
  if test emailRegex (value (emailInput f)) then emailInput f
  else showError (emailInput f).
Proof.
  unfold validate. rewrite !bool_decide_trim.
  destruct (blank (value (nameInput f))), (test emailRegex (value (emailInput f))),
    (blank (value (subjectInput f))), (blank (value (messageInput f))); reflexivity.
Qed.

Lemma validate_message (f : form) :
  messageInput (fst (validate f)) =
  if blank (value (messageInput f)) then showError (messageInput f)
  else messageInput f.
Proof.
  unfold validate. rewrite !bool_decide_trim.
  destruct (blank (value (nameInput f))), (test emailRegex (value (emailInput f))),
    (blank (value (subjectInput f))), (blank (value (messageInput f))); reflexivity.
Qed.

Lemma validate_result (f : form) :
  snd (validate f) =
  negb (blank (value (nameInput f))) && test emailRegex (value (emailInput f))
  && negb (blank (value (subjectInput f)))
  && negb (blank (value (messageInput f))).
Proof.
  unfold validate. rewrite !bool_decide_trim.
  destruct (blank (value (nameInput f))), (test emailRegex (value (emailInput f))),
    (blank (value (subjectInput f))), (blank (value (messageInput f))); reflexivity.
Qed.

Lemma validate_button (f : form) : submitBtn (fst (validate f)) = submitBtn f.
Proof.
  unfold validate. rewrite !bool_decide_trim.
  destruct (blank (value (nameInput f))), (test emailRegex (value (emailInput f))),
    (blank (value (subjectInput f))), (blank (value (messageInput f))); reflexivity.
Qed.

(** An invalid form arms no timer and leaves the button alone. *)
Lemma onSubmit_invalid (f : form) :
  snd (validate f) = false -> onSubmit f = (fst (validate f), None).
Proof.
  unfold onSubmit. destruct (validate f) as [f' ok]. simpl. intros ->.
  reflexivity.
Qed.

Lemma validate_valid (f : form) : snd (validate f) = true -> fst (validate f) = f.
Proof.
  rewrite validate_result. unfold validate. rewrite !bool_decide_trim.
  destruct (blank (value (nameInput f))), (test emailRegex (value (emailInput f))),
    (blank (value (subjectInput f))), (blank (value (messageInput f)));
    try discriminate.
  intros _. destruct f; reflexivity.
Qed.

(** A valid submit of the script: the button is disabled while "Sending...",
    then reads "Sent!" with the success class, and two seconds later the
    controls are back to their default values and the button is as before.
    The script has no branch for a submission that fails. *)
Lemma script_valid_submit (f : form) :
  snd (validate f) = true ->
  exists f1 f2 f3,
    submitAndWait f = [f1; f2; f3] /\
    disabled (submitBtn f1) = true /\
    textContent (submitBtn f1) = str "Sending..." /\
    textContent (submitBtn f2) = str "Sent!" /\
    str "success" ∈ btnClasses (submitBtn f2) /\
    f3 = withButton {| textContent := textContent (submitBtn f);
                       disabled := false;
                       btnClasses := (btnClasses (submitBtn f) ∪ {[ str "success" ]})
                                     ∖ {[ str "success" ]} |}
                    (reset f).
Proof.
  intros Hv. unfold submitAndWait, onSubmit.
  pose proof (validate_valid f Hv) as Hf.
  destruct (validate f) as [f' ok]. simpl in Hv, Hf. subst ok f'.
  eexists _, _, _. split; [reflexivity|].
  repeat split. simpl. set_solver.
Qed.

End ScriptFormProperties.

(** ** Validation and submission of the two forms *)
Section FormValidation.
Import JS RegExp.

(** C2: an email value without "@", or without a "." after an "@", gets an
    email error from [validateForm] (which then returns [false]) and fails
    the email check of the script's submit listener; "foo" is rejected and
    "foo@bar.com" is accepted by both. *)
Theorem email_without_at_or_dot_is_rejected :
  (forall s : jsstring,
      AT ∉ s \/ ~ dotAfterAt s ->
      (forall fd : Contact.FormData,
          Contact.email fd = s ->
          truthy_opt (Contact.getError (fst (Contact.validateForm fd)) Contact.FEmail) = true /\
          snd (Contact.validateForm fd) = false) /\
      (forall f : ScriptForm.form,
          ScriptForm.value (ScriptForm.emailInput f) = s ->
          ScriptForm.hasError (ScriptForm.emailInput (fst (ScriptForm.validate f))) = true /\
          snd (ScriptForm.validate f) = false)) /\
  (forall fd : Contact.FormData,
      Contact.email fd = str "foo" ->
      Contact.getError (fst (Contact.validateForm fd)) Contact.FEmail
      = Some (str "Email is invalid")) /\
  (forall fd : Contact.FormData,
      Contact.email fd = str "foo@bar.com" ->
      Contact.getError (fst (Contact.validateForm fd)) Contact.FEmail = None) /\
  test ScriptForm.emailRegex (str "foo") = false /\
  test ScriptForm.emailRegex (str "foo@bar.com") = true.
Proof.
  split; [|repeat split; try reflexivity].
  - intros s Hs. destruct (patterns_reject s Hs) as [Hc Hj]. split.
    + intros fd <-. rewrite validateForm_email, validateForm_result, Hc.
      split; [destruct (blank (Contact.email fd)); reflexivity|].
      rewrite andb_false_r. reflexivity.
    + intros f <-. rewrite validate_email, validate_result, Hj.
      split; [apply hasError_showError|].
      rewrite andb_false_r. reflexivity.
  - intros fd E. rewrite validateForm_email, E. reflexivity.
  - intros fd E. rewrite validateForm_email, E. reflexivity.
Qed.

Lemma email_missing_at_example :
  truthy_opt (Contact.getError
                (fst (Contact.validateForm
                        {| Contact.name := str "A"; Contact.email := str "foo.bar";
                           Contact.message := str "hi" |}))
                Contact.FEmail) = true.
Proof.
  refine (proj1 (proj1 (proj1 email_without_at_or_dot_is_rejected
                          (str "foo.bar") _)
                   {| Contact.name := str "A"; Contact.email := str "foo.bar";
                      Contact.message := str "hi" |} eq_refl)).
  left. intros H. apply list_elem_of_In in H. vm_compute in H.
  repeat (destruct H as [H | H]; [discriminate H|]). exact H.
Defined.

(** C3: when the name or the message is empty or whitespace only, a submit
    is blocked: the handler returns before the submission is invoked, the
    form does not enter the submitting state, and the blank field has its
    error. *)
Theorem blank_name_or_message_blocks_submit
    (op : Contact.FormData -> Contact.outcome) (s : Contact.state) :
  blank (Contact.name (Contact.formData s)) = true \/
  blank (Contact.message (Contact.formData s)) = true ->
  exists s1,
    Contact.handleSubmit s = Contact.Blocked s1 /\
    Contact.submitWith op s = {| Contact.trace := [s1]; Contact.invocations := [] |} /\
    Contact.isSubmitting s1 = Contact.isSubmitting s /\
    Contact.submitStatus s1 = Contact.submitStatus s /\
    Contact.formData s1 = Contact.formData s /\
    (blank (Contact.name (Contact.formData s)) = true ->
     Contact.fieldErrorShown s1 Contact.FName = true /\
     Contact.getError (Contact.errors s1) Contact.FName = Some (str "Name is required")) /\
    (blank (Contact.message (Contact.formData s)) = true ->
     Contact.fieldErrorShown s1 Contact.FMessage = true /\
     Contact.getError (Contact.errors s1) Contact.FMessage = Some (str "Message is required")).
Proof.
  intros H.
  assert (Hinv : snd (Contact.validateForm (Contact.formData s)) = false).
  { rewrite validateForm_result.
    destruct H as [-> | ->]; simpl; [reflexivity|]. apply andb_false_r. }
  exists (Contact.setErrors (fst (Contact.validateForm (Contact.formData s))) s).
  unfold Contact.submitWith. rewrite (handleSubmit_invalid s Hinv).
  do 5 (split; [reflexivity|]).
  unfold Contact.fieldErrorShown, Contact.setErrors. cbn [Contact.errors].
  rewrite validateForm_name, validateForm_message.
  split; intros ->; split; reflexivity.
Qed.

Lemma blank_name_example :
  exists s1,
    Contact.handleSubmit
      (Contact.setFormData
         {| Contact.name := str "   "; Contact.email := str "a@b.com";
            Contact.message := str "hi" |} Contact.initial) = Contact.Blocked s1 /\
    Contact.isSubmitting s1 = false /\
    Contact.fieldErrorShown s1 Contact.FName = true.
Proof.
  destruct (blank_name_or_message_blocks_submit Contact.simulatedSubmission
              (Contact.setFormData
                 {| Contact.name := str "   "; Contact.email := str "a@b.com";
                    Contact.message := str "hi" |} Contact.initial))
    as (s1 & Hb & _ & Hs & _ & _ & Hn & _).
  - left. reflexivity.
  - exists s1. split; [exact Hb|]. split; [exact Hs|].
    apply Hn. reflexivity.
Defined.

End FormValidation.

(** ** Input changes in the [Contact] component *)
Section ContactChanges.
Import JS RegExp Contact.

(** C10: an input change on a field whose error is displayed removes that
    error whatever the new value is; an input change never adds an error,
    nor does the settling of a submission; the errors are set anew from the
    full validation when a submit is handled. *)
Theorem change_clears_error_whatever_the_value :
  (forall (s : state) (f : field) (value : jsstring),
      fieldErrorShown s f = true ->
      getError (errors (handleChange f value s)) f = None /\
      fieldErrorShown (handleChange f value s) f = false /\
      formData (handleChange f value s) = withField f value (formData s)) /\
  (forall (s : state) (f g : field) (value m : jsstring),
      getError (errors (handleChange f value s)) g = Some m ->
      getError (errors s) g = Some m) /\
  (forall (o : outcome) (s : state), errors (afterAwait o s) = errors s) /\
  (forall s : state,
      match handleSubmit s with
      | Blocked s1 | Awaiting s1 => errors s1 = fst (validateForm (formData s))
      end).
Proof.
  split; [|split; [|split]].
  - intros s f value Hshown.
    assert (Hnone : getError (errors (handleChange f value s)) f = None).
    { rewrite handleChange_errors, Hshown.
      rewrite bool_decide_eq_true_2 by reflexivity. reflexivity. }
    split; [exact Hnone|]. split; [|apply handleChange_formData].
    unfold fieldErrorShown. rewrite Hnone. reflexivity.
  - intros s f g value m. rewrite handleChange_errors.
    destruct (bool_decide (f = g) && fieldErrorShown s f); [discriminate|].
    exact id.
  - apply afterAwait_errors.
  - intros s. unfold handleSubmit.
    destruct (validateForm (formData s)) as [e ok]. destruct ok; reflexivity.
Qed.

(** After a blocked submit of the empty form the name error is displayed;
    typing an empty name again removes it, although the full validation
    would still report the name. *)
Lemma change_to_empty_name_clears_error :
  fieldErrorShown (setErrors (fst (validateForm emptyForm)) initial) FName = true /\
  getError (errors (handleChange FName []
                      (setErrors (fst (validateForm emptyForm)) initial))) FName
  = None /\
  getError (fst (validateForm
                   (formData (handleChange FName []
                      (setErrors (fst (validateForm emptyForm)) initial))))) FName
  = Some (str "Name is required").
Proof.
  split; [reflexivity|]. split; [|reflexivity].
  apply (proj1 change_clears_error_whatever_the_value
           (setErrors (fst (validateForm emptyForm)) initial) FName []).
  reflexivity.
Defined.

(** The same for an email that stays malformed. *)
Lemma change_to_malformed_email_clears_error :
  getError (errors (handleChange FEmail (str "foo")
                      (setErrors (fst (validateForm emptyForm)) initial))) FEmail
  = None.
Proof. reflexivity. Qed.

End ContactChanges.

(** ** The theme manager *)
Section ThemeProperties.
Import JS Theme.

Lemma classToggle_elem (c : jsstring) (cl : gset jsstring) :
  c ∈ classToggle c cl <-> c ∉ cl.
Proof. unfold classToggle. case_bool_decide; set_solver. Qed.

Lemma classToggle_twice (c : jsstring) (cl : gset jsstring) :
  classToggle c (classToggle c cl) = cl.
Proof.
  unfold classToggle at 2. case_bool_decide as Hc.
  - unfold classToggle. rewrite bool_decide_eq_false_2 by set_solver.
    apply set_eq. intros x. destruct (decide (x = c)); set_solver.
  - unfold classToggle. rewrite bool_decide_eq_true_2 by set_solver.
    set_solver.
Qed.

Lemma onToggleClick_classes (p : page) :
  bodyClasses (onToggleClick p) = classToggle (str "dark-mode") (bodyClasses p).
Proof. unfold onToggleClick. case_bool_decide; reflexivity. Qed.

Lemma displayed_dark (p : page) :
  str "dark-mode" ∈ bodyClasses p -> displayed p = str "dark".
Proof. intros H. unfold displayed. rewrite bool_decide_eq_true_2; done. Qed.

Lemma displayed_light (p : page) :
  str "dark-mode" ∉ bodyClasses p -> displayed p = str "light".
Proof. intros H. unfold displayed. rewrite bool_decide_eq_false_2; done. Qed.

Lemma displayed_cases (p : page) :
  displayed p = str "dark" \/ displayed p = str "light".
Proof. unfold displayed. case_bool_decide; auto. Qed.

Lemma init_saved (prefersDark : bool) (p : page) (v : jsstring) :
  str "dark-mode" ∉ bodyClasses p ->
  persisted p = Some v -> v = str "dark" \/ v = str "light" ->
  displayed (init prefersDark p) = v.
Proof.
  intros Hfresh. unfold persisted, init. intros -> [-> | ->]; cbn.
  - apply displayed_dark. simpl. set_solver.
  - apply displayed_light, Hfresh.
Qed.

Lemma onToggleClick_persisted (p : page) :
  persisted (onToggleClick p) = Some (displayed (onToggleClick p)).
Proof.
  unfold onToggleClick, persisted, displayed.
  case_bool_decide as Hd; cbn [bodyClasses localStorage].
  - rewrite bool_decide_eq_true_2 by exact Hd. apply lookup_insert_eq.
  - rewrite bool_decide_eq_false_2 by exact Hd. apply lookup_insert_eq.
Qed.




(** X10: what a click on the toggle persists is what the next load
    displays, on any system and whatever the markup's icon, provided the
    markup's body does not carry the dark-mode class. *)
Lemma toggled_theme_survives_reload (p : page) (markupClasses : gset jsstring)
    (markupText : jsstring) (prefersDark : bool) :
  str "dark-mode" ∉ markupClasses ->
  displayed (load markupClasses markupText prefersDark
               (localStorage (onToggleClick p)))
  = displayed (onToggleClick p).
Proof.
  intros Hfresh. unfold load. apply init_saved.
  - exact Hfresh.
  - apply onToggleClick_persisted.
  - apply displayed_cases.
Qed.

(** C5: two clicks on the toggle bring back the class list of the body,
    hence the displayed theme; after any click the persisted value is the
    displayed theme. *)
Theorem toggle_twice_restores_theme (p : page) :
  displayed (onToggleClick (onToggleClick p)) = displayed p /\
  bodyClasses (onToggleClick (onToggleClick p)) = bodyClasses p /\
  persisted (onToggleClick p) = Some (displayed (onToggleClick p)) /\
  persisted (onToggleClick (onToggleClick p))
  = Some (displayed (onToggleClick (onToggleClick p))).
Proof.
  assert (Hcl : bodyClasses (onToggleClick (onToggleClick p)) = bodyClasses p).
  { rewrite !onToggleClick_classes. apply classToggle_twice. }
  split; [|split; [exact Hcl | split; apply onToggleClick_persisted]].
  unfold displayed. rewrite Hcl. reflexivity.
Qed.

End ThemeProperties.

(** ** The intersection observers *)
Section ObserverProperties.
Import JS Observers.

Lemma occurrences_app (a : action) (l l' : list action) :
  occurrences a (l ++ l') = occurrences a l + occurrences a l'.
Proof. unfold occurrences. rewrite List.filter_app, length_app. reflexivity. Qed.

Lemma widthSets_app (e : elem) (l l' : list action) :
  widthSets e (l ++ l') = widthSets e l + widthSets e l'.
Proof. unfold widthSets. rewrite List.filter_app, length_app. reflexivity. Qed.

Lemma perform_log (a : action) (p : page) : log (perform a p) = log p ++ [a].
Proof. destruct a; reflexivity. Qed.

Lemma perform_observed (a : action) (p : page) :
  observed (perform a p) =
  match a with Unobserve e => observed p ∖ {[ e ]} | _ => observed p end.
Proof. destruct a; reflexivity. Qed.

Lemma classesOf_perform (a : action) (p : page) (t : elem) :
  classesOf (perform a p) t =
  match a with
  | ClassAdd e c => if decide (e = t) then classesOf p t ∪ {[ c ]} else classesOf p t
  | _ => classesOf p t
  end.
Proof.
  destruct a as [e c | | |]; try reflexivity.
  unfold classesOf at 1. simpl. destruct (decide (e = t)) as [->|Hne].
  - rewrite lookup_insert_eq. reflexivity.
  - rewrite lookup_insert_ne by exact Hne. reflexivity.
Qed.

(** No call of the callbacks takes a class away. *)
Lemma perform_keeps_classes (a : action) (p : page) (t : elem) (c : jsstring) :
  c ∈ classesOf p t -> c ∈ classesOf (perform a p) t.
Proof.
  intros H. rewrite classesOf_perform. destruct a; try exact H.
  destruct (decide (e = t)); set_solver.
Qed.

(** A property kept by the body of the loop is kept by the loop, by a
    notification and by a run. *)
Lemma forEachIntersecting_keeps (P : page -> Prop) (body : elem -> page -> page) :
  (forall t p, P p -> P (body t p)) ->
  forall entries p, P p -> P (forEachIntersecting body entries p).
Proof.
  intros Hbody entries. unfold forEachIntersecting.
  induction entries as [|e es IH]; intros p Hp; simpl; [exact Hp|].
  apply IH. destruct (isIntersecting e); [apply Hbody|]; exact Hp.
Qed.

Lemma run_keeps (P : page -> Prop) (callback : list entry -> page -> page) :
  (forall entries p, P p -> P (callback entries p)) ->
  forall batches p, P p -> P (run callback batches p).
Proof.
  intros Hcb batches. unfold run.
  induction batches as [|b bs IH]; intros p Hp; simpl; [exact Hp|].
  apply IH. unfold notify. apply Hcb, Hp.
Qed.

Lemma foldl_keeps {A : Type} (P : page -> Prop) (f : page -> A -> page) :
  (forall p x, P p -> P (f p x)) ->
  forall l p, P p -> P (foldl f p l).
Proof.
  intros Hf l. induction l as [|x l IH]; intros p Hp; simpl; [exact Hp|].
  apply IH, Hf, Hp.
Qed.

(** What every call keeps, every callback keeps. *)
Lemma callbacks_keep (P : page -> Prop) :
  (forall a p, P p -> P (perform a p)) ->
  forall entries p, P p ->
    P (timelineObserver entries p) /\
    P (sectionObserver entries p) /\
    P (experienceObserver entries p) /\
    (forall bars, P (skillObserver bars entries p)) /\
    (forall bars, P (skillsObserver bars entries p)).
Proof.
  intros HP entries p Hp.
  unfold timelineObserver, sectionObserver, experienceObserver.
  repeat split; try intros bars;
    try unfold skillObserver, skillsObserver, animateProgress, fillBars;
    apply (forEachIntersecting_keeps P); try exact Hp; intros t q Hq;
    cbv zeta; repeat apply HP; try exact Hq.
  - apply (foldl_keeps P); [|exact Hq]. intros q' x Hq'. repeat apply HP. exact Hq'.
  - apply (foldl_keeps P); [|exact Hq]. intros q' x Hq'.
    destruct (truthy_opt (snd x)); [apply HP|]; exact Hq'.
Qed.

(** C7: a class an element carries, "visible" in particular, is still there
    after any sequence of notifications of the timeline, experience and
    section observers, whatever the entries report. *)
Theorem marked_visible_stays_visible
    (p : page) (batches : list (list entry)) (t : elem) (c : jsstring) :
  c ∈ classesOf p t ->
  c ∈ classesOf (run timelineObserver batches p) t /\
  c ∈ classesOf (run experienceObserver batches p) t /\
  c ∈ classesOf (run sectionObserver batches p) t.
Proof.
  intros H.
  pose proof (callbacks_keep (fun q => c ∈ classesOf q t)
                (fun a q => perform_keeps_classes a q t c)) as K.
  repeat split; apply (run_keeps (fun q => c ∈ classesOf q t)); try exact H;
    intros entries q Hq; apply (K entries q Hq).
Qed.

(** A timeline item that became visible and then leaves the viewport. *)
Lemma visible_after_leaving_viewport :
  str "visible" ∈
    classesOf (run experienceObserver
                 [[ {| target := 1; isIntersecting := false |} ]]
                 (run experienceObserver
                    [[ {| target := 1; isIntersecting := true |} ]]
                    (observing [1]))) 1.
Proof.
  apply (marked_visible_stays_visible
           (run experienceObserver
              [[ {| target := 1; isIntersecting := true |} ]] (observing [1]))
           [[ {| target := 1; isIntersecting := false |} ]] 1 (str "visible")).
  apply (bool_decide_unpack _). vm_compute. exact I.
Defined.

Lemma occurrences_single (a b : action) :
  occurrences a [b] = if bool_decide (b = a) then 1 else 0.
Proof. unfold occurrences. simpl. destruct (bool_decide (b = a)); reflexivity. Qed.

Lemma filter_observed_targets (p : page) (batch : list entry) :
  Forall (fun e => target e ∈ observed p)
         (List.filter (fun e => bool_decide (target e ∈ observed p)) batch).
Proof.
  apply List.Forall_forall. intros e He. apply List.filter_In in He as [_ He].
  apply bool_decide_eq_true in He. exact He.
Qed.

Lemma filter_wellFormed (f : entry -> bool) (batch : list entry) :
  wellFormed batch -> wellFormed (List.filter f batch).
Proof.
  unfold wellFormed. induction batch as [|e es IH]; simpl; [auto|].
  rewrite NoDup_cons. intros [Hn Hes]. destruct (f e); simpl; [|auto].
  rewrite NoDup_cons. split; [|auto].
  intros Hin. apply Hn. apply list_elem_of_In in Hin. apply list_elem_of_In.
  apply List.in_map_iff in Hin as (e' & He' & Hin).
  apply List.in_map_iff. exists e'. split; [exact He'|].
  apply List.filter_In in Hin. tauto.
Qed.

(** From the invariant to the one-shot property. *)
Lemma oneShot_of_invariant (callback : list entry -> page -> page)
    (count : elem -> list action -> nat) :
  (forall t, count t [] = 0) ->
  (forall p batch, wellFormed batch -> markedOnce count p ->
                   markedOnce count (notify callback batch p)) ->
  oneShot callback count.
Proof.
  intros Hnil Hstep p batches t Hlog Hwf.
  assert (Hinv : markedOnce count p).
  { intros t'. rewrite Hlog, Hnil. split; [lia | reflexivity]. }
  clear Hlog. revert p Hinv. unfold run.
  induction Hwf as [|b bs Hb Hbs IH]; intros p Hinv; simpl.
  - destruct (Hinv t) as [Hle H0]. split; [exact Hle|].
    intros H1 Hobs. specialize (H0 Hobs). lia.
  - apply IH, Hstep; assumption.
Qed.

(** The loop of an observer that adds the class [c] and unobserves. *)
Lemma reveal_and_unobserve_step (c : jsstring) (entries : list entry) :
  forall p,
    wellFormed entries ->
    Forall (fun e => target e ∈ observed p) entries ->
    markedOnce (fun t => occurrences (ClassAdd t c)) p ->
    markedOnce (fun t => occurrences (ClassAdd t c))
      (forEachIntersecting
         (fun target p => perform (Unobserve target) (perform (ClassAdd target c) p))
         entries p).
Proof.
  unfold forEachIntersecting, wellFormed.
  induction entries as [|e es IH]; intros p Hnd Hobs Hinv; cbn [foldl];
    [exact Hinv|].
  cbn [List.map] in Hnd. apply NoDup_cons in Hnd as [Hfresh Hnd].
  apply Forall_cons in Hobs as [He Hes].
  destruct (isIntersecting e); [|apply IH; assumption].
  apply IH; [exact Hnd | |].
  - apply List.Forall_forall. intros e' Hin.
    rewrite !perform_observed. apply elem_of_difference. split.
    + apply (proj1 (List.Forall_forall _ _) Hes e' Hin).
    + intros Heq. apply elem_of_singleton in Heq. apply Hfresh.
      rewrite <- Heq. apply list_elem_of_In, List.in_map, Hin.
  - intros t. rewrite !perform_log, !perform_observed, !occurrences_app,
      !occurrences_single.
    destruct (Hinv t) as [Hle H0].
    rewrite (bool_decide_eq_false_2 (Unobserve (target e) = ClassAdd t c))
      by discriminate.
    case_bool_decide as Heq.
    + injection Heq as Heq. subst t. rewrite (H0 He). split; [lia|].
      intros Hin. apply elem_of_difference in Hin as [_ Hin].
      exfalso. apply Hin, elem_of_singleton. reflexivity.
    + split; [lia|]. intros Hin. apply elem_of_difference in Hin as [Hin _].
      rewrite (H0 Hin). reflexivity.
Qed.

Lemma reveal_and_unobserve_oneShot (c : jsstring) :
  oneShot
    (forEachIntersecting
       (fun target p => perform (Unobserve target) (perform (ClassAdd target c) p)))
    (fun t => occurrences (ClassAdd t c)).
Proof.
  apply oneShot_of_invariant; [reflexivity|].
  intros p batch Hwf Hinv. unfold notify.
  apply reveal_and_unobserve_step;
    [apply filter_wellFormed, Hwf | apply filter_observed_targets | exact Hinv].
Qed.

(** The calls and the targets after the progress loop of [skillObserver]. *)
Lemma animateProgress_log (bars : list (elem * option jsstring)) :
  forall p, log (animateProgress bars p) = log p ++ progressCalls bars.
Proof.
  unfold animateProgress, progressCalls.
  induction bars as [|b bs IH]; intros p; cbn [foldl flat_map].
  - rewrite app_nil_r. reflexivity.
  - rewrite IH, !perform_log, <- !app_assoc. reflexivity.
Qed.

Lemma animateProgress_observed (bars : list (elem * option jsstring)) :
  forall p, observed (animateProgress bars p) = observed p.
Proof.
  unfold animateProgress.
  induction bars as [|b bs IH]; intros p; cbn [foldl]; [reflexivity|].
  rewrite IH, !perform_observed. reflexivity.
Qed.

Lemma widthSets_progressCalls_absent (e : elem)
    (bars : list (elem * option jsstring)) :
  e ∉ List.map fst bars -> widthSets e (progressCalls bars) = 0.
Proof.
  induction bars as [|b bs IH]; intros Hn; [reflexivity|].
  cbn [List.map] in Hn. apply not_elem_of_cons in Hn as [Hne Hn].
  change (progressCalls (b :: bs))
    with ([ SetWidth (fst b) (percent (snd b));
            SetTransition (fst b) (str "width 1.5s ease-in-out") ]
          ++ progressCalls bs).
  rewrite widthSets_app, (IH Hn). unfold widthSets. cbn [List.filter].
  rewrite bool_decide_eq_false_2 by congruence. reflexivity.
Qed.

Lemma widthSets_progressCalls (e : elem) (bars : list (elem * option jsstring)) :
  NoDup (List.map fst bars) -> widthSets e (progressCalls bars) <= 1.
Proof.
  induction bars as [|b bs IH]; intros Hnd; [unfold widthSets; simpl; lia|].
  cbn [List.map] in Hnd. apply NoDup_cons in Hnd as [Hfresh Hnd].
  change (progressCalls (b :: bs))
    with ([ SetWidth (fst b) (percent (snd b));
            SetTransition (fst b) (str "width 1.5s ease-in-out") ]
          ++ progressCalls bs).
  rewrite widthSets_app. unfold widthSets at 1. cbn [List.filter].
  case_bool_decide as Heq; cbn [length].
  - subst e. rewrite (widthSets_progressCalls_absent _ _ Hfresh). lia.
  - specialize (IH Hnd). lia.
Qed.

(** [skillObserver], which observes the skills section only: the width of
    a progress element is set at most once, and not before the section is
    unobserved. *)
Lemma skillObserver_step (section : elem) (e : elem)
    (bars : list (elem * option jsstring)) (entries : list entry) :
  NoDup (List.map fst bars) ->
  forall p,
    wellFormed entries ->
    Forall (fun e => target e ∈ observed p) entries ->
    observed p ⊆ {[ section ]} ->
    (widthSets e (log p) <= 1 /\ (section ∈ observed p -> widthSets e (log p) = 0)) ->
    let p' := skillObserver bars entries p in
    observed p' ⊆ {[ section ]} /\
    widthSets e (log p') <= 1 /\ (section ∈ observed p' -> widthSets e (log p') = 0).
Proof.
  intros Hbars. unfold skillObserver, forEachIntersecting, wellFormed.
  induction entries as [|x xs IH]; intros p Hnd Hobs Hsub Hinv; cbn [foldl].
  - cbv zeta. tauto.
  - cbn [List.map] in Hnd. apply NoDup_cons in Hnd as [Hfresh Hnd].
    apply Forall_cons in Hobs as [Hx Hxs].
    destruct (isIntersecting x); [|apply IH; assumption].
    assert (Hsec : target x = section) by set_solver.
    apply IH; [exact Hnd | | |].
    + apply List.Forall_forall. intros x' Hin.
      rewrite perform_observed, animateProgress_observed.
      apply elem_of_difference. split.
      * apply (proj1 (List.Forall_forall _ _) Hxs x' Hin).
      * intros Heq. apply elem_of_singleton in Heq. apply Hfresh.
        rewrite <- Heq. apply list_elem_of_In, List.in_map, Hin.
    + rewrite perform_observed, animateProgress_observed. set_solver.
    + rewrite perform_observed, perform_log, animateProgress_observed,
        animateProgress_log, !widthSets_app.
      destruct Hinv as [_ H0]. rewrite Hsec in Hx. rewrite (H0 Hx).
      pose proof (widthSets_progressCalls e bars Hbars) as Hle.
      change (widthSets e [Unobserve (target x)]) with 0.
      split; [lia|]. rewrite Hsec. intros Hin.
      apply elem_of_difference in Hin as [_ Hin].
      exfalso. apply Hin, elem_of_singleton. reflexivity.
Qed.

Lemma skillObserver_once (section : elem) (e : elem)
    (bars : list (elem * option jsstring)) (batches : list (list entry)) :
  NoDup (List.map fst bars) ->
  Forall wellFormed batches ->
  forall p,
    observed p ⊆ {[ section ]} ->
    (widthSets e (log p) <= 1 /\ (section ∈ observed p -> widthSets e (log p) = 0)) ->
    let p' := run (skillObserver bars) batches p in
    observed p' ⊆ {[ section ]} /\
    widthSets e (log p') <= 1 /\ (section ∈ observed p' -> widthSets e (log p') = 0).
Proof.
  intros Hbars Hwf. unfold run.
  induction Hwf as [|b bs Hb Hbs IH]; intros p Hsub Hinv; cbn [foldl].
  - cbv zeta. tauto.
  - pose proof (skillObserver_step section e bars
                  (List.filter (fun e => bool_decide (target e ∈ observed p)) b)
                  Hbars p (filter_wellFormed _ _ Hb)
                  (filter_observed_targets p b) Hsub Hinv) as (H1 & H2).
    apply IH; assumption.
Qed.

(** The observers of the components keep their targets. *)
Lemma experienceObserver_observed (batches : list (list entry)) (p : page) :
  observed (run experienceObserver batches p) = observed p.
Proof.
  apply (run_keeps (fun q => observed q = observed p)); [|reflexivity].
  intros entries q Hq. unfold experienceObserver.
  apply (forEachIntersecting_keeps (fun q => observed q = observed p));
    [|exact Hq].
  intros t q' Hq'. rewrite perform_observed. exact Hq'.
Qed.

Lemma skillsObserver_observed (bars : elem -> list (elem * option jsstring))
    (batches : list (list entry)) (p : page) :
  observed (run (skillsObserver bars) batches p) = observed p.
Proof.
  apply (run_keeps (fun q => observed q = observed p)); [|reflexivity].
  intros entries q Hq. unfold skillsObserver.
  apply (forEachIntersecting_keeps (fun q => observed q = observed p));
    [|exact Hq].
  intros t q' Hq'. unfold fillBars.
  apply (foldl_keeps (fun q => observed q = observed p)); [|exact Hq'].
  intros q'' x Hq''. destruct (truthy_opt (snd x)); [|exact Hq''].
  rewrite perform_observed. exact Hq''.
Qed.

(** Marking a visible element again changes nothing in its class list. *)
Lemma experienceObserver_idempotent (batches : list (list entry)) (p : page)
    (t : elem) :
  str "visible" ∈ classesOf p t ->
  classesOf (run experienceObserver batches p) t = classesOf p t.
Proof.
  intros Hv.
  apply (run_keeps (fun q => classesOf q t = classesOf p t)); [|reflexivity].
  intros entries q Hq. unfold experienceObserver.
  apply (forEachIntersecting_keeps (fun q => classesOf q t = classesOf p t));
    [|exact Hq].
  intros t' q' Hq'. rewrite classesOf_perform.
  destruct (decide (t' = t)); [|exact Hq']. rewrite Hq'. set_solver.
Qed.

Lemma reportsOf_app (t : elem) (l l' : list entry) :
  reportsOf t (l ++ l') = reportsOf t l + reportsOf t l'.
Proof. unfold reportsOf. rewrite List.filter_app, length_app. reflexivity. Qed.

Lemma reportsOf_cons (t : elem) (e : entry) (l : list entry) :
  reportsOf t (e :: l)
  = (if bool_decide (target e = t) && isIntersecting e then 1 else 0)
    + reportsOf t l.
Proof.
  unfold reportsOf. cbn [List.filter].
  destruct (bool_decide (target e = t) && isIntersecting e); reflexivity.
Qed.

(** The callback receives every report of a target it observes. *)
Lemma reportsOf_observed (t : elem) (p : page) (batch : list entry) :
  t ∈ observed p ->
  reportsOf t (List.filter (fun e => bool_decide (target e ∈ observed p)) batch)
  = reportsOf t batch.
Proof.
  intros Hobs. induction batch as [|e es IH]; [reflexivity|].
  cbn [List.filter]. rewrite reportsOf_cons. case_bool_decide as Hin.
  - rewrite reportsOf_cons, IH. reflexivity.
  - rewrite IH. rewrite bool_decide_eq_false_2; [reflexivity|].
    intros Heq. apply Hin. rewrite Heq. exact Hobs.
Qed.

(** [Experience]: one [classList.add] for every entry that reports the
    element as intersecting. *)
Lemma experienceObserver_marks (t : elem) (entries : list entry) :
  forall p,
    occurrences (ClassAdd t (str "visible")) (log (experienceObserver entries p))
    = occurrences (ClassAdd t (str "visible")) (log p) + reportsOf t entries.
Proof.
  unfold experienceObserver, forEachIntersecting.
  induction entries as [|e es IH]; intros p; cbn [foldl].
  - unfold reportsOf. simpl. lia.
  - rewrite IH, reportsOf_cons. destruct (isIntersecting e).
    + rewrite perform_log, occurrences_app, occurrences_single, andb_true_r.
      destruct (decide (target e = t)) as [E|E].
      * rewrite !bool_decide_eq_true_2 by congruence. lia.
      * rewrite !bool_decide_eq_false_2 by congruence. lia.
    + rewrite andb_false_r. lia.
Qed.

Lemma experienceObserver_marks_again (batches : list (list entry)) (t : elem) :
  forall p,
    t ∈ observed p ->
    occurrences (ClassAdd t (str "visible"))
                (log (run experienceObserver batches p))
    = occurrences (ClassAdd t (str "visible")) (log p) + reports t batches.
Proof.
  unfold reports.
  induction batches as [|b bs IH]; intros p Hobs.
  - unfold reportsOf. simpl. lia.
  - change (run experienceObserver (b :: bs) p)
      with (run experienceObserver bs (notify experienceObserver b p)).
    rewrite IH.
    + unfold notify. rewrite experienceObserver_marks.
      rewrite (reportsOf_observed t p b Hobs). cbn [concat].
      rewrite reportsOf_app. lia.
    + change (notify experienceObserver b p) with (run experienceObserver [b] p).
      rewrite experienceObserver_observed. exact Hobs.
Qed.

(** [Skills]: the loop over the bars never takes a width assignment back,
    and makes one for a bar with a level. *)
Lemma fillBars_unfold (b : elem * option jsstring)
    (bs : list (elem * option jsstring)) (p : page) :
  fillBars (b :: bs) p =
  fillBars bs (if truthy_opt (snd b)
               then perform (SetWidth (fst b) (default [] (snd b) ++ str "%")) p
               else p).
Proof. reflexivity. Qed.

Lemma fillBars_widthSets_mono (b : elem) (bars : list (elem * option jsstring)) :
  forall p, widthSets b (log p) <= widthSets b (log (fillBars bars p)).
Proof.
  unfold fillBars. induction bars as [|x xs IH]; intros p; cbn [foldl]; [lia|].
  etransitivity; [|apply IH].
  destruct (truthy_opt (snd x)); [|lia].
  rewrite perform_log, widthSets_app. lia.
Qed.

Lemma fillBars_widthSets (b : elem) (c : N) (level : jsstring)
    (bars : list (elem * option jsstring)) :
  (b, Some (c :: level)) ∈ bars ->
  forall p, widthSets b (log p) + 1 <= widthSets b (log (fillBars bars p)).
Proof.
  induction bars as [|x xs IH]; intros Hin p; [inversion Hin|].
  rewrite fillBars_unfold.
  apply elem_of_cons in Hin as [<- | Hin].
  - cbn [snd fst truthy_opt truthy negb].
    etransitivity; [|apply fillBars_widthSets_mono].
    rewrite perform_log, widthSets_app. unfold widthSets at 3.
    cbn [List.filter]. rewrite bool_decide_eq_true_2 by reflexivity.
    cbn [length]. lia.
  - etransitivity; [|apply (IH Hin)].
    destruct (truthy_opt (snd x)); [|lia].
    rewrite perform_log, widthSets_app. lia.
Qed.

Lemma skillsObserver_sets (progressBars : elem -> list (elem * option jsstring))
    (t b : elem) (c : N) (level : jsstring) (entries : list entry) :
  (b, Some (c :: level)) ∈ progressBars t ->
  forall p,
    widthSets b (log p) + reportsOf t entries
    <= widthSets b (log (skillsObserver progressBars entries p)).
Proof.
  intros Hin. unfold skillsObserver, forEachIntersecting.
  induction entries as [|e es IH]; intros p; cbn [foldl].
  - unfold reportsOf. simpl. lia.
  - rewrite reportsOf_cons. etransitivity; [|apply IH].
    destruct (isIntersecting e).
    + rewrite andb_true_r. case_bool_decide as E.
      * rewrite E. pose proof (fillBars_widthSets b c level _ Hin p). lia.
      * pose proof (fillBars_widthSets_mono b (progressBars (target e)) p). lia.
    + rewrite andb_false_r. lia.
Qed.

Lemma skillsObserver_sets_again
    (progressBars : elem -> list (elem * option jsstring))
    (t b : elem) (c : N) (level : jsstring) (batches : list (list entry)) :
  (b, Some (c :: level)) ∈ progressBars t ->
  forall p,
    t ∈ observed p ->
    widthSets b (log p) + reports t batches
    <= widthSets b (log (run (skillsObserver progressBars) batches p)).
Proof.
  intros Hin. unfold reports.
  induction batches as [|x xs IH]; intros p Hobs.
  - unfold reportsOf. simpl. lia.
  - change (run (skillsObserver progressBars) (x :: xs) p)
      with (run (skillsObserver progressBars) xs
              (notify (skillsObserver progressBars) x p)).
    etransitivity; [|apply IH].
    + unfold notify.
      pose proof (skillsObserver_sets progressBars t b c level
                    (List.filter (fun e => bool_decide (target e ∈ observed p)) x)
                    Hin p) as H.
      rewrite (reportsOf_observed t p x Hobs) in H.
      cbn [concat]. rewrite reportsOf_app. lia.
    + change (notify (skillsObserver progressBars) x p)
        with (run (skillsObserver progressBars) [x] p).
      rewrite skillsObserver_observed. exact Hobs.
Qed.

(** C6, for the observers of the page script: as long as no notification
    reports a target twice, [timelineObserver] and [sectionObserver] add
    their class to an element at most once and unobserve it on marking,
    and [skillObserver], observing the skills section only, sets the width
    of a progress element at most once and unobserves the section on doing
    so. The observers of [Experience] and [Skills] keep all their targets
    through every notification, and every entry that reports an observed
    target as intersecting marks again: [Experience] adds the class once
    per such entry, [Skills] assigns a width at least once per such entry
    to every bar of the target that has a level. For [Experience] this
    leaves the class list of a visible element as it is. *)
Theorem script_observers_mark_once :
  oneShot timelineObserver (fun t => occurrences (ClassAdd t (str "visible"))) /\
  oneShot sectionObserver (fun t => occurrences (ClassAdd t (str "revealed"))) /\
  (forall (section e : elem) (bars : list (elem * option jsstring))
          (batches : list (list entry)) (p : page),
      NoDup (List.map fst bars) ->
      Forall wellFormed batches ->
      log p = [] ->
      observed p ⊆ {[ section ]} ->
      widthSets e (log (run (skillObserver bars) batches p)) <= 1 /\
      (widthSets e (log (run (skillObserver bars) batches p)) = 1 ->
       section ∉ observed (run (skillObserver bars) batches p))) /\
  (forall (batches : list (list entry)) (p : page),
      observed (run experienceObserver batches p) = observed p) /\
  (forall (bars : elem -> list (elem * option jsstring))
          (batches : list (list entry)) (p : page),
      observed (run (skillsObserver bars) batches p) = observed p) /\
  (forall (batches : list (list entry)) (p : page) (t : elem),
      t ∈ observed p ->
      occurrences (ClassAdd t (str "visible"))
                  (log (run experienceObserver batches p))
      = occurrences (ClassAdd t (str "visible")) (log p) + reports t batches) /\
  (forall (progressBars : elem -> list (elem * option jsstring))
          (batches : list (list entry)) (p : page)
          (t b : elem) (c : N) (level : jsstring),
      t ∈ observed p ->
      (b, Some (c :: level)) ∈ progressBars t ->
      widthSets b (log p) + reports t batches
      <= widthSets b (log (run (skillsObserver progressBars) batches p))) /\
  (forall (batches : list (list entry)) (p : page) (t : elem),
      str "visible" ∈ classesOf p t ->
      classesOf (run experienceObserver batches p) t = classesOf p t).
Proof.
  split; [apply reveal_and_unobserve_oneShot|].
  split; [apply reveal_and_unobserve_oneShot|].
  split; [|split; [exact experienceObserver_observed|
                   split; [exact skillsObserver_observed|
                           split; [|split;
                                    [|exact experienceObserver_idempotent]]]]].
  - intros section e bars batches p Hbars Hwf Hlog Hsub.
    destruct (skillObserver_once section e bars batches Hbars Hwf p Hsub)
      as (_ & Hle & H0).
    + rewrite Hlog. split; [unfold widthSets; simpl; lia | reflexivity].
    + split; [exact Hle|]. intros H1 Hobs. specialize (H0 Hobs). lia.
  - intros batches p t Hobs. apply experienceObserver_marks_again, Hobs.
  - intros progressBars batches p t b c level Hobs Hin.
    apply (skillsObserver_sets_again progressBars t b c level batches Hin p Hobs).
Qed.

(** A timeline item of the script that enters, leaves and enters the
    viewport again is marked once and no longer observed. *)
Lemma timeline_item_marked_once :
  occurrences (ClassAdd 1 (str "visible"))
    (log (run timelineObserver
            [ [ {| target := 1; isIntersecting := true |} ];
              [ {| target := 1; isIntersecting := false |} ];
              [ {| target := 1; isIntersecting := true |} ] ]
            (observing [1]))) <= 1.
Proof.
  apply (proj1 script_observers_mark_once (observing [1])); [reflexivity|].
  repeat constructor; apply not_elem_of_nil.
Defined.

(** The marking is not always done once. An item of [Experience] that
    enters, leaves and enters the viewport again gets the class added
    twice, one report per notification. And when one notification reports
    a target as entering twice, [timelineObserver] adds the class twice
    and [skillObserver] sets the width of a bar twice: the callbacks run
    through all the entries they were handed, unobserved target or not. *)
Lemma observers_mark_again :
  ~ oneShot experienceObserver
            (fun t => occurrences (ClassAdd t (str "visible"))) /\
  ~ oneShotAlways timelineObserver
                  (fun t => occurrences (ClassAdd t (str "visible"))) /\
  ~ (forall (section e : elem) (bars : list (elem * option jsstring))
            (batches : list (list entry)) (p : page),
        NoDup (List.map fst bars) ->
        log p = [] ->
        observed p ⊆ {[ section ]} ->
        widthSets e (log (run (skillObserver bars) batches p)) <= 1).
Proof.
  split; [|split].
  - intros H.
    destruct (H (observing [1])
                [ [ {| target := 1; isIntersecting := true |} ];
                  [ {| target := 1; isIntersecting := false |} ];
                  [ {| target := 1; isIntersecting := true |} ] ]
                1 eq_refl) as [Hle _].
    + repeat constructor; apply not_elem_of_nil.
    + vm_compute in Hle. lia.
  - intros H.
    destruct (H (observing [1])
                [ [ {| target := 1; isIntersecting := true |};
                    {| target := 1; isIntersecting := false |};
                    {| target := 1; isIntersecting := true |} ] ]
                1 eq_refl) as [Hle _].
    vm_compute in Hle. lia.
  - intros H.
    specialize (H 1 2 [(2, Some (str "90"))]
                  [ [ {| target := 1; isIntersecting := true |};
                      {| target := 1; isIntersecting := false |};
                      {| target := 1; isIntersecting := true |} ] ]
                  (observing [1])).
    assert (Hle : widthSets 2
                    (log (run (skillObserver [(2, Some (str "90"))])
                            [ [ {| target := 1; isIntersecting := true |};
                                {| target := 1; isIntersecting := false |};
                                {| target := 1; isIntersecting := true |} ] ]
                            (observing [1]))) <= 1).
    { apply H; [repeat constructor; set_solver | reflexivity | set_solver]. }
    vm_compute in Hle. lia.
Qed.

(** Likewise the observer of [Skills] sets the width of a bar on every
    visit of its container. *)
Lemma skills_observer_sets_width_again :
  widthSets 2
    (log (run (skillsObserver (fun _ => [(2, Some (str "90"))]))
            [ [ {| target := 1; isIntersecting := true |} ];
              [ {| target := 1; isIntersecting := false |} ];
              [ {| target := 1; isIntersecting := true |} ] ]
            (observing [1]))) = 2 /\
  1 ∈ observed (run (skillsObserver (fun _ => [(2, Some (str "90"))]))
            [ [ {| target := 1; isIntersecting := true |} ];
              [ {| target := 1; isIntersecting := false |} ];
              [ {| target := 1; isIntersecting := true |} ] ]
            (observing [1])).
Proof.
  split; [vm_compute; reflexivity|].
  rewrite skillsObserver_observed. apply (bool_decide_unpack _). vm_compute.
  exact I.
Qed.

End ObserverProperties.

(** ** The project gallery *)
Section GalleryProperties.
Import JS Gallery.

Lemma modals_at_most_one (s : state) : length (modals s) <= 1.
Proof.
  unfold modals. destruct (isModalOpen s), (selectedProject s); simpl; lia.
Qed.

Lemma remove_elem (n : nat) (p : Script.page) (m : Script.modal) :
  m ∈ Script.bodyModals (Script.remove n p)
  <-> m ∈ Script.bodyModals p /\ Script.node m <> n.
Proof.
  unfold Script.remove. cbn [Script.bodyModals].
  rewrite list_elem_of_In, List.filter_In, <- list_elem_of_In.
  destruct (Nat.eqb_spec (Script.node m) n); cbn [negb]; intuition congruence.
Qed.

(** C8, as the code has it: the [Projects] component renders at most one
    modal in every reachable state, and a click on a card binds the modal
    to the clicked project whatever was open before. The card listener of
    the page script appends a new modal, filled from the template with the
    card's title, to the body after those that are still open; a modal in
    the body stays there through every event but a click on its own close
    control or on its own backdrop, and through the timers of the cards. *)
Theorem gallery_single_modal_component_only :
  (forall evs : list event, length (modals (reach evs)) <= 1) /\
  (forall (evs : list event) (i : nat) (project : Project),
      projects !! i = Some project ->
      modals (step (reach evs) (CardClick i)) = [project]) /\
  (forall (p : Script.page) (card : nat) (title : jsstring),
      Script.bodyModals (Script.onCardClick card title p)
      = Script.bodyModals p
        ++ [ {| Script.node := Script.created p;
                Script.assignedHTML := Script.modalHTML title |} ]) /\
  (forall (p : Script.page) (ev : Script.event) (m : Script.modal),
      m ∈ Script.bodyModals p ->
      m ∉ Script.bodyModals (Script.step p ev) ->
      ev = Script.CloseClick (Script.node m) \/
      ev = Script.ModalClick (Script.node m) true) /\
  (forall (p : Script.page) (card : nat),
      Script.bodyModals (Script.onClickedTimer card p) = Script.bodyModals p).
Proof.
  split; [intros evs; apply modals_at_most_one|].
  split; [intros evs i project Hi; simpl; rewrite Hi; reflexivity|].
  split; [reflexivity|]. split; [|reflexivity].
  intros p ev m Hin Hout.
  destruct ev as [card title | n | n [|]]; cbn [Script.step] in Hout.
  - exfalso. apply Hout. unfold Script.onCardClick. cbn [Script.bodyModals].
    apply elem_of_app. left. exact Hin.
  - left. destruct (decide (Script.node m = n)) as [<-|Hne]; [reflexivity|].
    exfalso. apply Hout, remove_elem. split; assumption.
  - right. destruct (decide (Script.node m = n)) as [<-|Hne]; [reflexivity|].
    exfalso. apply Hout, remove_elem. split; assumption.
  - exfalso. exact (Hout Hin).
Qed.

(** With the first project open, a click on the second card shows the
    second project alone. *)
Lemma second_card_replaces_first :
  exists project,
    projects !! 1 = Some project /\
    modals (reach [CardClick 0]) <> [project] /\
    modals (step (reach [CardClick 0]) (CardClick 1)) = [project].
Proof.
  eexists. split; [reflexivity|]. split; [discriminate|].
  apply (proj1 (proj2 gallery_single_modal_component_only) [CardClick 0] 1).
  reflexivity.
Defined.

(** In the page script two card clicks in a row leave two modals in the
    body. *)
Lemma script_modals_stack :
  ~ (forall evs : list Script.event,
        length (Script.bodyModals (Script.reach evs)) <= 1).
Proof.
  intros H.
  specialize (H [ Script.CardClick 0 (str "Personal Portfolio");
                  Script.CardClick 1 (str "E-commerce Platform") ]).
  vm_compute in H. lia.
Qed.

End GalleryProperties.

(** ** The typing effect *)
Section TypingProperties.
Import JS Typing.

Lemma charAtIndex_take (s : jsstring) (n : nat) :
  n < length s -> take n s ++ charAtIndex s n = take (S n) s.
Proof.
  intros H. unfold charAtIndex.
  destruct (lookup_lt_is_Some_2 s n H) as [c Hc]. rewrite Hc.
  symmetry. apply take_S_r, Hc.
Qed.

(** The component after [n] ticks. *)
Lemma hero_after (n : nat) :
  Nat.iter n tick initial =
  {| text := take (Nat.min n (length fullText)) fullText;
     currentIndex := Nat.min n (length fullText) |}.
Proof.
  induction n as [|n IH]; [reflexivity|].
  rewrite Nat.iter_succ, IH. unfold tick, timerArmed, onTimeout.
  cbn [currentIndex text].
  destruct (Nat.ltb_spec (Nat.min n (length fullText)) (length fullText)) as [Hlt|Hge].
  - rewrite charAtIndex_take by exact Hlt.
    replace (Nat.min n (length fullText) + 1) with (S (Nat.min n (length fullText))) by lia.
    replace (Nat.min (S n) (length fullText)) with (S (Nat.min n (length fullText))) by lia.
    reflexivity.
  - replace (Nat.min (S n) (length fullText)) with (Nat.min n (length fullText)) by lia.
    reflexivity.
Qed.

(** *** The HTML round trip of the script's heading *)

Lemma escapeText_app (s s' : jsstring) :
  Script.escapeText (s ++ s') = Script.escapeText s ++ Script.escapeText s'.
Proof. unfold Script.escapeText. apply flat_map_app. Qed.

Lemma typedText_app (s s' : jsstring) :
  Script.typedText (s ++ s') = Script.typedText s ++ Script.typedText s'.
Proof. unfold Script.typedText. apply flat_map_app. Qed.

Lemma typedText_single (c : N) : Script.typedText [c] = Script.typed c.
Proof. unfold Script.typedText. cbn [flat_map]. apply app_nil_r. Qed.

(** Typed text holds neither NUL nor CR. *)
Lemma typed_clean (c : N) :
  Forall (fun d => d <> 0%N /\ d <> 13%N) (Script.typed c).
Proof.
  unfold Script.typed.
  destruct (N.eqb_spec c 0); [constructor|].
  destruct (N.eqb_spec c 13); repeat constructor; lia.
Qed.

Lemma typedText_clean (s : jsstring) :
  Forall (fun d => d <> 0%N /\ d <> 13%N) (Script.typedText s).
Proof.
  induction s as [|c s IH]; [constructor|].
  change (Script.typedText (c :: s)) with (Script.typed c ++ Script.typedText s).
  apply Forall_app. split; [apply typed_clean | exact IH].
Qed.

Lemma normalizeNewlines_escapeChar (c : N) (rest : jsstring) :
  c <> 13%N ->
  Script.normalizeNewlines (Script.escapeChar c ++ rest)
  = Script.escapeChar c ++ Script.normalizeNewlines rest.
Proof.
  intros H13. unfold Script.escapeChar.
  destruct (N.eqb_spec c 38); [reflexivity|].
  destruct (N.eqb_spec c 60); [reflexivity|].
  destruct (N.eqb_spec c 62); [reflexivity|].
  destruct (N.eqb_spec c 160); [reflexivity|].
  cbn [app Script.normalizeNewlines].
  destruct (N.eqb_spec c 13); [contradiction | reflexivity].
Qed.

Lemma normalizeNewlines_escapeText (t rest : jsstring) :
  Forall (fun d => d <> 0%N /\ d <> 13%N) t ->
  Script.normalizeNewlines (Script.escapeText t ++ rest)
  = Script.escapeText t ++ Script.normalizeNewlines rest.
Proof.
  induction 1 as [|c t [_ H13] _ IH]; [reflexivity|].
  change (Script.escapeText (c :: t))
    with (Script.escapeChar c ++ Script.escapeText t).
  rewrite <- !app_assoc, normalizeNewlines_escapeChar, IH by exact H13.
  reflexivity.
Qed.

Lemma parseContent_escapeChar (c : N) (rest : jsstring) :
  c <> 0%N ->
  Script.parseContent 0 (Script.escapeChar c ++ rest)
  = Script.emit c (Script.parseContent 0 rest).
Proof.
  intros H0. unfold Script.escapeChar.
  destruct (N.eqb_spec c 38) as [->|H38]; [reflexivity|].
  destruct (N.eqb_spec c 60) as [->|H60]; [reflexivity|].
  destruct (N.eqb_spec c 62) as [->|H62]; [reflexivity|].
  destruct (N.eqb_spec c 160) as [->|H160]; [reflexivity|].
  cbn [app Script.parseContent].
  destruct (N.eqb_spec c 0); [contradiction|].
  destruct (N.eqb_spec c 60); [contradiction|].
  destruct (N.eqb_spec c 38); [contradiction|]. reflexivity.
Qed.

Lemma parseContent_escapeText (t rest : jsstring) :
  Forall (fun d => d <> 0%N /\ d <> 13%N) t ->
  Script.parseContent 0 (Script.escapeText t ++ rest)
  = k ← Script.parseContent 0 rest;
    Some {| Script.textData := t ++ Script.textData k;
            Script.cursor := Script.cursor k |}.
Proof.
  induction 1 as [|c t [H0 _] _ IH].
  - cbn [Script.escapeText flat_map app].
    destruct (Script.parseContent 0 rest) as [[]|]; reflexivity.
  - change (Script.escapeText (c :: t))
      with (Script.escapeChar c ++ Script.escapeText t).
    rewrite <- !app_assoc, parseContent_escapeChar, IH by exact H0.
    unfold Script.emit.
    destruct (Script.parseContent 0 rest) as [[]|]; reflexivity.
Qed.

(** One more code unit written after the text. *)
Lemma parseContent_typed (c : N) :
  Script.parseContent 0 (Script.normalizeNewlines [c])
  = Some {| Script.textData := Script.typed c; Script.cursor := false |}.
Proof.
  unfold Script.typed. cbn [Script.normalizeNewlines].
  destruct (N.eqb_spec c 13) as [->|H13]; [reflexivity|].
  cbn [Script.parseContent].
  destruct (N.eqb_spec c 0) as [->|H0]; [reflexivity|].
  destruct (N.eqb_spec c 60) as [->|H60]; [reflexivity|].
  destruct (N.eqb_spec c 38) as [->|H38]; reflexivity.
Qed.

Lemma parseHTML_append_char (t : jsstring) (c : N) :
  Forall (fun d => d <> 0%N /\ d <> 13%N) t ->
  Script.parseHTML (Script.escapeText t ++ [c])
  = Some {| Script.textData := t ++ Script.typed c; Script.cursor := false |}.
Proof.
  intros Ht. unfold Script.parseHTML.
  rewrite normalizeNewlines_escapeText, parseContent_escapeText by exact Ht.
  rewrite parseContent_typed. reflexivity.
Qed.

Lemma parseHTML_append_cursor (t : jsstring) :
  Forall (fun d => d <> 0%N /\ d <> 13%N) t ->
  Script.parseHTML (Script.escapeText t ++ cursorHTML)
  = Some {| Script.textData := t; Script.cursor := true |}.
Proof.
  intros Ht. unfold Script.parseHTML.
  rewrite normalizeNewlines_escapeText, parseContent_escapeText by exact Ht.
  replace (Script.parseContent 0 (Script.normalizeNewlines cursorHTML))
    with (Some {| Script.textData := []; Script.cursor := true |})
    by (vm_compute; reflexivity).
  cbn. rewrite app_nil_r. reflexivity.
Qed.

(** The page of the script after [n] ticks. *)
Lemma script_after (originalText : jsstring) (n : nat) :
  Script.after originalText n =
  Some {| Script.children :=
            {| Script.textData :=
                 Script.typedText (take (Nat.min n (length originalText)) originalText);
               Script.cursor := negb (n <=? length originalText) |};
          Script.i := Nat.min n (length originalText);
          Script.pending := n <=? length originalText |}.
Proof.
  unfold Script.after.
  induction n as [|n IH]; [reflexivity|].
  rewrite Nat.iter_succ, IH. cbn [mbind option_bind].
  unfold Script.tick, Script.typeWriter, Script.innerHTML, Script.serialize.
  cbn [Script.pending Script.i Script.children Script.textData Script.cursor].
  destruct (Nat.leb_spec n (length originalText)) as [Hle|Hgt]; cbn [negb].
  - rewrite app_nil_r.
    destruct (Nat.ltb_spec (Nat.min n (length originalText)) (length originalText))
      as [Hlt|Hge].
    + destruct (Nat.leb_spec (S n) (length originalText)) as [_|Hbad]; [|lia].
      replace (Nat.min n (length originalText)) with n by lia.
      replace (Nat.min (S n) (length originalText)) with (S n) by lia.
      destruct (lookup_lt_is_Some_2 originalText n) as [c Hc]; [lia|].
      unfold Script.charAt. rewrite Hc.
      rewrite parseHTML_append_char by apply typedText_clean.
      cbn [mbind option_bind].
      rewrite (take_S_r _ _ _ Hc), typedText_app, typedText_single.
      replace (n + 1) with (S n) by lia. reflexivity.
    + destruct (Nat.leb_spec (S n) (length originalText)) as [Hbad|_]; [lia|].
      rewrite parseHTML_append_cursor by apply typedText_clean.
      cbn [mbind option_bind].
      replace (Nat.min (S n) (length originalText))
        with (Nat.min n (length originalText)) by lia.
      reflexivity.
  - destruct (Nat.leb_spec (S n) (length originalText)) as [Hbad|_]; [lia|].
    replace (Nat.min (S n) (length originalText))
      with (Nat.min n (length originalText)) by lia.
    reflexivity.
Qed.


Lemma escapeChar_plain (c : N) :
  Script.plainChar c = true -> Script.escapeChar c = [c] /\ Script.typed c = [c].
Proof.
  unfold Script.plainChar, Script.escapeChar, Script.typed.
  destruct (N.eqb_spec c 0); [discriminate|].
  destruct (N.eqb_spec c 13); [discriminate|].
  destruct (N.eqb_spec c 38); [discriminate|].
  destruct (N.eqb_spec c 60); [discriminate|].
  destruct (N.eqb_spec c 62); [discriminate|].
  destruct (N.eqb_spec c 160); [discriminate|].
  split; reflexivity.
Qed.

(** A code unit that is not plain reads back differently. *)
Lemma escapeChar_not_plain (c : N) :
  Script.plainChar c = false ->
  Script.escapeText (Script.typed c) <> [c].
Proof.
  unfold Script.plainChar, Script.typed.
  destruct (N.eqb_spec c 0) as [->|H0]; [discriminate|].
  destruct (N.eqb_spec c 13) as [->|H13]; [discriminate|].
  destruct (N.eqb_spec c 38) as [->|H38]; [discriminate|].
  destruct (N.eqb_spec c 60) as [->|H60]; [discriminate|].
  destruct (N.eqb_spec c 62) as [->|H62]; [discriminate|].
  destruct (N.eqb_spec c 160) as [->|H160]; discriminate.
Qed.

Lemma plain_reads_back (s : jsstring) :
  Script.plain s = true -> Script.escapeText (Script.typedText s) = s.
Proof.
  unfold Script.plain. induction s as [|c s IH]; [reflexivity|].
  cbn [forallb]. intros [Hc Hs]%andb_true_iff.
  change (Script.typedText (c :: s)) with (Script.typed c ++ Script.typedText s).
  destruct (escapeChar_plain c Hc) as [He Ht].
  rewrite Ht, escapeText_app, (IH Hs).
  unfold Script.escapeText. cbn [flat_map]. rewrite He. reflexivity.
Qed.

Lemma plain_take (s : jsstring) (n : nat) :
  Script.plain s = true -> Script.plain (take n s) = true.
Proof.
  unfold Script.plain. revert n. induction s as [|c s IH]; intros [|n] H;
    try reflexivity.
  cbn [take forallb] in *. apply andb_true_iff in H as [Hc Hs].
  rewrite Hc, (IH n Hs). reflexivity.
Qed.

(** The first code unit that is not plain. *)
Lemma not_plain_split (s : jsstring) :
  Script.plain s = false ->
  exists (pre : jsstring) (c : N) (rest : jsstring),
    s = pre ++ c :: rest /\ Script.plain pre = true /\ Script.plainChar c = false.
Proof.
  unfold Script.plain. induction s as [|c s IH]; [discriminate|].
  cbn [forallb]. destruct (Script.plainChar c) eqn:Hc.
  - intros H. destruct (IH H) as (pre & d & rest & -> & Hpre & Hd).
    exists (c :: pre), d, rest. cbn [forallb]. rewrite Hc. auto.
  - intros _. exists [], c, s. auto.
Qed.

(** What [innerHTML] reads after [n] ticks. *)
Lemma innerHTML_after (originalText : jsstring) (n : nat) :
  Script.innerHTML <$> Script.after originalText n
  = Some (Script.escapeText
            (Script.typedText (take (Nat.min n (length originalText)) originalText))
          ++ (if n <=? length originalText then [] else cursorHTML)).
Proof.
  rewrite script_after. cbn [fmap option_fmap option_map].
  unfold Script.innerHTML, Script.serialize.
  cbn [Script.children Script.textData Script.cursor].
  destruct (n <=? length originalText); reflexivity.
Qed.

(** C9: after any number of ticks the count is between 0 and the length of
    the string and the text is the prefix of that length; a tick adds one
    to a count below the length, and once the count is the length further
    ticks change nothing. In [Hero] the cursor element follows the text in
    every render, from the first one on. In the script every tick
    succeeds; the text of the heading is the prefix of [originalText] as
    typed (a carriage return typed as a line feed, NUL dropped),
    [innerHTML] reads as that text with its references written out,
    followed by the cursor once the tick after the last character has
    appended it; [innerHTML] is the prefix itself at every tick exactly
    when [originalText] is plain. *)
Theorem typing_reveals_prefix_then_cursor :
  (forall n : nat,
      let s := Nat.iter n tick initial in
      0 <= currentIndex s <= length fullText /\
      currentIndex s = Nat.min n (length fullText) /\
      text s = take (currentIndex s) fullText /\
      render s = {| shownText := text s; cursorShown := true |} /\
      currentIndex (tick s)
      = if currentIndex s <? length fullText then currentIndex s + 1
        else currentIndex s) /\
  (forall k : nat,
      let s := Nat.iter (length fullText + k) tick initial in
      currentIndex s = length fullText /\
      render s = {| shownText := fullText; cursorShown := true |} /\
      tick s = s) /\
  (forall (originalText : jsstring) (n : nat),
      exists p : Script.page,
        Script.after originalText n = Some p /\
        0 <= Script.i p <= length originalText /\
        Script.i p = Nat.min n (length originalText) /\
        Script.pending p = (n <=? length originalText) /\
        Script.children p
        = {| Script.textData := Script.typedText (take (Script.i p) originalText);
             Script.cursor := negb (Script.pending p) |} /\
        Script.innerHTML p
        = Script.escapeText (Script.typedText (take (Script.i p) originalText))
          ++ (if Script.pending p then [] else cursorHTML) /\
        Script.i <$> Script.tick originalText p
        = Some (if Script.i p <? length originalText then Script.i p + 1
                else Script.i p)) /\
  (forall (originalText : jsstring) (k : nat),
      Script.after originalText (length originalText + 1 + k)
      = Script.after originalText (length originalText + 1)) /\
  (forall originalText : jsstring,
      Script.plain originalText = true <->
      (forall n : nat,
          Script.innerHTML <$> Script.after originalText n
          = Some (take (Nat.min n (length originalText)) originalText
                  ++ (if n <=? length originalText then [] else cursorHTML)))).
Proof.
  split; [|split; [|split; [|split]]].
  - intros n s. subst s. rewrite hero_after. cbn [currentIndex text render shownText].
    split; [lia|]. split; [reflexivity|]. split; [reflexivity|].
    split; [reflexivity|].
    unfold tick, timerArmed, onTimeout. cbn [currentIndex].
    destruct (Nat.min n (length fullText) <? length fullText); reflexivity.
  - intros k s. subst s. rewrite hero_after.
    replace (Nat.min (length fullText + k) (length fullText))
      with (length fullText) by lia.
    rewrite firstn_all. split; [reflexivity|]. split; [reflexivity|].
    unfold tick, timerArmed. cbn [currentIndex].
    rewrite Nat.ltb_irrefl. reflexivity.
  - intros originalText n. eexists. split; [apply script_after|].
    cbn [Script.i Script.pending Script.children].
    split; [lia|]. split; [reflexivity|]. split; [reflexivity|].
    split; [reflexivity|]. split.
    + unfold Script.innerHTML, Script.serialize.
      cbn [Script.children Script.textData Script.cursor].
      destruct (n <=? length originalText); reflexivity.
    + pose proof (script_after originalText (S n)) as HS.
      unfold Script.after in HS. rewrite Nat.iter_succ in HS.
      fold (Script.after originalText n) in HS.
      rewrite script_after in HS. cbn [mbind option_bind] in HS.
      rewrite HS. cbn [fmap option_fmap option_map Script.i]. f_equal.
      destruct (Nat.ltb_spec (Nat.min n (length originalText)) (length originalText));
        lia.
  - intros originalText k. rewrite !script_after.
    replace (Nat.min (length originalText + 1 + k) (length originalText))
      with (Nat.min (length originalText + 1) (length originalText)) by lia.
    destruct (Nat.leb_spec (length originalText + 1 + k) (length originalText));
      [lia|].
    destruct (Nat.leb_spec (length originalText + 1) (length originalText));
      [lia|]. reflexivity.
  - intros originalText. split.
    + intros Hplain n. rewrite innerHTML_after.
      rewrite plain_reads_back by apply plain_take, Hplain. reflexivity.
    + intros H. destruct (Script.plain originalText) eqn:Hp; [reflexivity|].
      exfalso. destruct (not_plain_split _ Hp) as (pre & c & rest & -> & Hpre & Hc).
      specialize (H (length pre + 1)). rewrite innerHTML_after in H.
      rewrite length_app in H. cbn [length] in H.
      replace (Nat.min (length pre + 1) (length pre + S (length rest)))
        with (length (pre ++ [c])) in H by (rewrite length_app; simpl; lia).
      replace (pre ++ c :: rest) with ((pre ++ [c]) ++ rest) in H
        by (rewrite <- app_assoc; reflexivity).
      rewrite take_app_length in H.
      destruct (Nat.leb_spec (length pre + 1) (length pre + S (length rest)));
        [|lia].
      rewrite !app_nil_r, typedText_app, escapeText_app, typedText_single in H.
      rewrite (plain_reads_back _ Hpre) in H.
      injection H as H. apply app_inv_head in H.
      exact (escapeChar_not_plain c Hc H).
Qed.

(** A plain heading: after more ticks than it has characters, the text and
    the cursor. *)
Lemma plain_heading_typed :
  Script.innerHTML <$> Script.after (str "Hi") 3 = Some (str "Hi" ++ cursorHTML).
Proof.
  apply (proj1 (proj2 (proj2 (proj2 (proj2 typing_reveals_prefix_then_cursor)))
                  (str "Hi")) eq_refl 3).
Defined.

(** In [Hero] the cursor is there before the first character. And the
    [innerHTML] of the script is not always the prefix: for a heading that
    showed "R&D", whose [innerHTML] was "R&amp;D", it reads "R&amp;" after
    two ticks, the prefix being "R&". *)
Lemma cursor_from_the_start_and_text_read_back :
  ~ (forall n : nat,
        cursorShown (render (Nat.iter n tick initial)) = true ->
        currentIndex (Nat.iter n tick initial) = length fullText) /\
  ~ (forall (originalText : jsstring) (n : nat) (p : Script.page),
        Script.after originalText n = Some p ->
        Script.innerHTML p
        = take (Script.i p) originalText
          ++ (if Script.pending p then [] else cursorHTML)).
Proof.
  split.
  - intros H. specialize (H 0 eq_refl). discriminate H.
  - intros H. specialize (H (str "R&amp;D") 2 _ eq_refl). discriminate H.
Qed.

End TypingProperties.

(** * Further properties of the code *)

(** ** [validateForm] and the submission cycle of [Contact] *)
Section ContactFurther.
Import JS RegExp Contact.

(** X1: [validateForm] returns [false] exactly when its error object
    displays an error for some field, so a blocked submit never goes
    without a message; when it returns [true] the error object is empty,
    which clears every earlier error. *)
Theorem validateForm_blocks_iff_error_shown (fd : FormData) :
  (snd (validateForm fd) = false <->
   exists f, truthy_opt (getError (fst (validateForm fd)) f) = true) /\
  (snd (validateForm fd) = true -> fst (validateForm fd) = ∅).
Proof.
  split.
  - rewrite validateForm_result. split.
    + intros H.
      destruct (blank (name fd)) eqn:En.
      { exists FName. rewrite validateForm_name, En. reflexivity. }
      destruct (blank (email fd)) eqn:Ee.
      { exists FEmail. rewrite validateForm_email, Ee. reflexivity. }
      destruct (test emailPattern (email fd)) eqn:Et.
      2:{ exists FEmail. rewrite validateForm_email, Ee, Et. reflexivity. }
      destruct (blank (message fd)) eqn:Em; [|discriminate H].
      exists FMessage. rewrite validateForm_message, Em. reflexivity.
    + intros [f Hf]. destruct f.
      * rewrite validateForm_name in Hf.
        destruct (blank (name fd)); [reflexivity | discriminate Hf].
      * rewrite validateForm_email in Hf.
        destruct (blank (email fd)); [apply andb_false_iff; left;
                                      apply andb_false_iff; left;
                                      apply andb_false_r|].
        destruct (test emailPattern (email fd)); [discriminate Hf|].
        apply andb_false_iff. left. apply andb_false_r.
      * rewrite validateForm_message in Hf.
        destruct (blank (message fd)); [apply andb_false_r | discriminate Hf].
  - rewrite validateForm_result. unfold validateForm.
    rewrite !truthy_trim, !negb_involutive.
    destruct (blank (name fd)), (blank (email fd)),
      (test emailPattern (email fd)), (blank (message fd));
      try discriminate; reflexivity.
Qed.

(** The empty form is blocked with the name error displayed. *)
Lemma empty_form_shows_an_error :
  exists f, truthy_opt (getError (fst (validateForm emptyForm)) f) = true.
Proof.
  apply (proj1 (proj1 (validateForm_blocks_iff_error_shown emptyForm))).
  reflexivity.
Defined.

(** No email error, exactly when the pattern accepts: a value the pattern
    accepts is not blank. *)
Lemma contact_email_language (fd : FormData) :
  test emailPattern (email fd) = true ->
  getError (fst (validateForm fd)) FEmail = None.
Proof.
  intros Ht. rewrite validateForm_email, Ht.
  destruct (blank (email fd)) eqn:Eb; [|reflexivity].
  exfalso.
  apply emailPattern_accepts in Ht
    as (pre & u & v & w & post & E & [Hu Hun] & _).
  rewrite E in Eb. rewrite !blank_app in Eb.
  destruct u as [|c u]; [congruence|].
  simpl in Hun, Eb. destruct (isWhiteSpace c); [discriminate Hun|].
  simpl in Eb. rewrite andb_false_r in Eb. discriminate Eb.
Qed.

(** X2: [validateForm] leaves the email without error exactly when the
    value contains, anywhere, a run [u@v.w] whose three parts are non-empty
    and free of whitespace; text around that run does not matter. *)
Theorem contact_email_accepted_iff (fd : FormData) :
  getError (fst (validateForm fd)) FEmail = None <->
  exists pre u v w post,
    email fd = pre ++ (u ++ AT :: v ++ DOT :: w) ++ post /\
    (u <> [] /\ forallb (fun c => negb (isWhiteSpace c)) u = true) /\
    (v <> [] /\ forallb (fun c => negb (isWhiteSpace c)) v = true) /\
    (w <> [] /\ forallb (fun c => negb (isWhiteSpace c)) w = true).
Proof.
  rewrite validateForm_email, <- emailPattern_accepts. split.
  - destruct (blank (email fd)); [discriminate|].
    destruct (test emailPattern (email fd)); [reflexivity | discriminate].
  - intros Ht. rewrite <- validateForm_email. apply contact_email_language, Ht.
Qed.

(** The run may sit inside other text: a sentence that contains an address
    passes. *)
Lemma address_inside_text_is_accepted :
  getError (fst (validateForm
                   {| name := str "A"; email := str "mail me: a@b.com now";
                      message := str "hi" |})) FEmail = None.
Proof.
  apply (proj2 (contact_email_accepted_iff
                  {| name := str "A"; email := str "mail me: a@b.com now";
                     message := str "hi" |})).
  exists (str "mail me: "), (str "a"), (str "b"), (str "com"), (str " now").
  repeat split; discriminate.
Defined.

End ContactFurther.

(** ** Sessions of the [Contact] component *)
Section ContactSessions.
Import JS Contact ContactSession.

Lemma handleChange_flags (f : field) (value : jsstring) (s : state) :
  isSubmitting (handleChange f value s) = isSubmitting s /\
  submitStatus (handleChange f value s) = submitStatus s.
Proof.
  unfold handleChange. destruct (truthy_opt (getError (errors s) f)); auto.
Qed.

Lemma handleSubmit_flags (s : state) :
  match handleSubmit s with
  | Blocked s1 =>
      isSubmitting s1 = isSubmitting s /\ submitStatus s1 = submitStatus s
  | Awaiting s1 => isSubmitting s1 = true /\ submitStatus s1 = None
  end.
Proof.
  unfold handleSubmit. destruct (validateForm (formData s)) as [e ok].
  destruct ok; simpl; auto.
Qed.

Lemma step_keeps_count (x : session) (ev : event) :
  inFlight x = (if isSubmitting (current x) then 1 else 0) ->
  inFlight (step x ev) = (if isSubmitting (current (step x ev)) then 1 else 0).
Proof.
  intros Hx. destruct ev as [f value | | o]; cbn [step].
  - cbn [current inFlight].
    rewrite (proj1 (handleChange_flags f value (current x))). exact Hx.
  - unfold submitDisabled. destruct (isSubmitting (current x)) eqn:Es.
    + rewrite Es. exact Hx.
    + pose proof (handleSubmit_flags (current x)) as Hf.
      destruct (handleSubmit (current x)) as [s1 | s1]; cbn [current inFlight];
        destruct Hf as [-> _].
      * rewrite Es. exact Hx.
      * rewrite Hx. reflexivity.
  - destruct (inFlight x) as [|n] eqn:En.
    + rewrite En. exact Hx.
    + cbn [current inFlight]. rewrite afterAwait_enabled.
      destruct (isSubmitting (current x)); congruence.
Qed.

Lemma foldl_step_keeps_count (evs : list event) :
  forall x : session,
    inFlight x = (if isSubmitting (current x) then 1 else 0) ->
    inFlight (foldl step x evs)
    = (if isSubmitting (current (foldl step x evs)) then 1 else 0).
Proof.
  induction evs as [|ev evs IH]; intros x Hx; cbn [foldl]; [exact Hx|].
  apply IH, step_keeps_count, Hx.
Qed.

(** X3: in a session where the disabled submit control submits nothing, at
    most one submission is awaited at any time, and the control is disabled
    exactly while one is: whatever is typed, submitted or settled, the form
    is never left disabled with nothing to wait for. *)
Theorem one_submission_in_flight (evs : list event) :
  inFlight (after evs) <= 1 /\
  (submitDisabled (current (after evs)) = true <-> inFlight (after evs) = 1).
Proof.
  assert (H : inFlight (after evs)
              = if isSubmitting (current (after evs)) then 1 else 0).
  { unfold after. apply foldl_step_keeps_count. reflexivity. }
  unfold submitDisabled. rewrite H.
  destruct (isSubmitting (current (after evs))); split; try lia;
    split; congruence.
Qed.

(** X4: the outcome shown by the form changes only when a submit passes
    validation: input changes and blocked submits keep [submitStatus], so
    the message of the last submission stays on display while the user
    edits; a submit that passes validation takes it away. *)
Theorem outcome_message_stays_through_edits :
  (forall (x : session) (evs : list event),
      Forall isChange evs ->
      submitStatus (current (foldl step x evs)) = submitStatus (current x)) /\
  (forall s s1 : state,
      handleSubmit s = Blocked s1 ->
      successMessage s1 = successMessage s /\ errorMessage s1 = errorMessage s) /\
  (forall s s1 : state,
      handleSubmit s = Awaiting s1 ->
      successMessage s1 = None /\ errorMessage s1 = None).
Proof.
  split; [|split].
  - intros x evs Hevs. revert x.
    induction Hevs as [|ev evs Hev _ IH]; intros x; cbn [foldl]; [reflexivity|].
    rewrite IH. destruct ev as [f value | |]; try contradiction.
    cbn [step current]. apply handleChange_flags.
  - intros s s1 H. pose proof (handleSubmit_flags s) as Hf. rewrite H in Hf.
    unfold successMessage, errorMessage. destruct Hf as [_ ->]. auto.
  - intros s s1 H. pose proof (handleSubmit_flags s) as Hf. rewrite H in Hf.
    unfold successMessage, errorMessage. destruct Hf as [_ ->]. auto.
Qed.

(** After a successful submit of the example, typing a new name keeps the
    success message on display. *)
Lemma success_message_survives_typing :
  successMessage
    (current (foldl step (after [Change FName (str "A");
                                 Change FEmail (str "a@b.com");
                                 Change FMessage (str "hi");
                                 Submit; Settle Resolved])
                    [Change FName (str "B")]))
  = Some (str "Message sent successfully!").
Proof.
  unfold successMessage.
  rewrite (proj1 outcome_message_stays_through_edits
             (after [Change FName (str "A"); Change FEmail (str "a@b.com");
                     Change FMessage (str "hi"); Submit; Settle Resolved])
             [Change FName (str "B")]).
  - reflexivity.
  - repeat constructor.
Defined.

End ContactSessions.

(** ** The form of the page script: listeners, gating and the submit cycle *)
Section ScriptFormFurther.
Import JS RegExp ScriptForm ScriptInputs.

Lemma hasError_hideError (c : control) : hasError (hideError c) = false.
Proof. unfold hasError. apply bool_decide_eq_false. simpl. set_solver. Qed.

Lemma requiredListener_mark (c : control) :
  hasError (requiredListener c) = blank (value c) /\
  value (requiredListener c) = value c.
Proof.
  unfold requiredListener. rewrite bool_decide_trim.
  destruct (blank (value c)); split;
    auto using hasError_showError, hasError_hideError.
Qed.

Lemma emailListener_mark (c : control) :
  hasError (emailListener c) = negb (test emailRegex (value c)) /\
  value (emailListener c) = value c.
Proof.
  unfold emailListener.
  destruct (test emailRegex (value c)); cbn [negb]; split;
    auto using hasError_showError, hasError_hideError.
Qed.

Lemma validate_subject (f : form) :
  subjectInput (fst (validate f)) =
  if blank (value (subjectInput f)) then showError (subjectInput f)
  else subjectInput f.
Proof.
  unfold validate. rewrite !bool_decide_trim.
  destruct (blank (value (nameInput f))), (test emailRegex (value (emailInput f))),
    (blank (value (subjectInput f))), (blank (value (messageInput f))); reflexivity.
Qed.

Lemma forallb_weaken {A : Type} (f g : A -> bool) (l : list A) :
  (forall x, f x = true -> g x = true) ->
  forallb f l = true -> forallb g l = true.
Proof.
  intros Hfg. induction l as [|x l IH]; simpl; [reflexivity|].
  rewrite !andb_true_iff. intros [Hx Hl]. auto.
Qed.

(** Every string the pattern of the script accepts, the pattern of
    [Contact] accepts. *)
Lemma emailRegex_within_emailPattern (s : jsstring) :
  test emailRegex s = true -> test Contact.emailPattern s = true.
Proof.
  intros H. apply emailRegex_accepts in H as (u & v & w & -> & Hu & Hv & Hw).
  apply emailPattern_accepts. exists [], u, v, w, [].
  rewrite app_nil_r. split; [reflexivity|].
  assert (Hweak : forall c : N,
             negb (isWhiteSpace c || (c =? AT)%N) = true ->
             negb (isWhiteSpace c) = true).
  { intros c. destruct (isWhiteSpace c); simpl; [discriminate | reflexivity]. }
  destruct Hu as [Hu1 Hu2], Hv as [Hv1 Hv2], Hw as [Hw1 Hw2].
  split; [split; [exact Hu1 | exact (forallb_weaken _ _ u Hweak Hu2)]|].
  split; [split; [exact Hv1 | exact (forallb_weaken _ _ v Hweak Hv2)]|].
  split; [exact Hw1 | exact (forallb_weaken _ _ w Hweak Hw2)].
Qed.

(** X5: after an input event on the email control, the control is free of
    the error mark exactly when its value is [u@v.w] from end to end, with
    the three parts non-empty and free of whitespace and of "@". *)
Theorem script_email_unmarked_iff (v : jsstring) (f : form) :
  hasError (emailInput (onEmailInput v f)) = false <->
  exists u d w,
    v = u ++ AT :: d ++ DOT :: w /\
    (u <> [] /\ forallb (fun c => negb (isWhiteSpace c || (c =? AT)%N)) u = true) /\
    (d <> [] /\ forallb (fun c => negb (isWhiteSpace c || (c =? AT)%N)) d = true) /\
    (w <> [] /\ forallb (fun c => negb (isWhiteSpace c || (c =? AT)%N)) w = true).
Proof.
  rewrite <- emailRegex_accepts. cbn [onEmailInput emailInput].
  rewrite (proj1 (emailListener_mark _)). cbn [withValue value].
  destruct (test emailRegex v); simpl; split; congruence.
Qed.

(** A plain address typed into the blank form leaves no mark. *)
Lemma plain_address_leaves_no_mark :
  hasError (emailInput (onEmailInput (str "a@b.com") blankForm)) = false.
Proof.
  apply (proj2 (script_email_unmarked_iff (str "a@b.com") blankForm)).
  exists (str "a"), (str "b"), (str "com"). repeat split; discriminate.
Defined.

(** X6: the email check of the script is the stricter of the two: a value
    that passes the validation of the script's form gets no email error
    from [Contact.validateForm]. *)
Theorem script_email_check_is_stricter (f : form) (fd : Contact.FormData) :
  Contact.email fd = value (emailInput f) ->
  snd (validate f) = true ->
  Contact.getError (fst (Contact.validateForm fd)) Contact.FEmail = None.
Proof.
  intros E Hv. rewrite validate_result in Hv.
  destruct (test emailRegex (value (emailInput f))) eqn:Ht.
  2:{ rewrite andb_false_r in Hv. discriminate Hv. }
  rewrite <- E in Ht.
  pose proof (emailRegex_within_emailPattern _ Ht) as Hc.
  apply contact_email_language. exact Hc.
Qed.

Lemma onSubmit_unfold (f : form) :
  onSubmit f =
  if snd (validate f)
  then (withButton {| textContent := str "Sending..."; disabled := true;
                      btnClasses := btnClasses (submitBtn f) |}
                   (fst (validate f)),
        Some (SendTimer (textContent (submitBtn f))))
  else (fst (validate f), None).
Proof.
  unfold onSubmit. rewrite <- (validate_button f).
  destruct (validate f) as [f' ok]. destruct ok; reflexivity.
Qed.

Lemma showError_keeps (c : control) :
  value (showError c) = value c /\ defaultValue (showError c) = defaultValue c /\
  groupClasses c ⊆ groupClasses (showError c).
Proof. repeat split. simpl. set_solver. Qed.

(** What the checks of the submit listener leave of a control. *)
Lemma checked_control (b : bool) (c : control) :
  value (if b then showError c else c) = value c /\
  defaultValue (if b then showError c else c) = defaultValue c /\
  groupClasses c ⊆ groupClasses (if b then showError c else c) /\
  hasError (if b then showError c else c) = b || hasError c.
Proof.
  destruct b; [|repeat split; set_solver].
  destruct (showError_keeps c) as (Hv & Hd & Hc).
  repeat split; try assumption. apply hasError_showError.
Qed.

(** X7: the input listeners keep the error marks current, and on current
    marks the submit listener lets a form through exactly when no mark is
    shown: what the user sees while typing is what the submit will decide. *)
Theorem input_marks_agree_with_submit :
  (forall (f : form) (v : jsstring),
      marksCurrent f ->
      marksCurrent (onNameInput v f) /\ marksCurrent (onEmailInput v f) /\
      marksCurrent (onSubjectInput v f) /\ marksCurrent (onMessageInput v f)) /\
  (forall (f : form) (vn ve vs vm : jsstring),
      marksCurrent
        (onMessageInput vm (onSubjectInput vs (onEmailInput ve (onNameInput vn f))))) /\
  (forall f : form,
      marksCurrent f ->
      snd (validate f) = negb (anyError f) /\
      (is_Some (snd (onSubmit f)) <-> anyError f = false)).
Proof.
  split; [|split].
  - intros f v (Hn & He & Hs & Hm). unfold marksCurrent.
    cbn [onNameInput onEmailInput onSubjectInput onMessageInput
         nameInput emailInput subjectInput messageInput].
    pose proof (requiredListener_mark (withValue v (nameInput f))) as [Rn1 Rn2].
    pose proof (emailListener_mark (withValue v (emailInput f))) as [Re1 Re2].
    pose proof (requiredListener_mark (withValue v (subjectInput f))) as [Rs1 Rs2].
    pose proof (requiredListener_mark (withValue v (messageInput f))) as [Rm1 Rm2].
    rewrite Rn1, Rn2, Re1, Re2, Rs1, Rs2, Rm1, Rm2. tauto.
  - intros f vn ve vs vm. unfold marksCurrent.
    cbn [onNameInput onEmailInput onSubjectInput onMessageInput
         nameInput emailInput subjectInput messageInput].
    pose proof (requiredListener_mark (withValue vn (nameInput f))) as [Rn1 Rn2].
    pose proof (emailListener_mark (withValue ve (emailInput f))) as [Re1 Re2].
    pose proof (requiredListener_mark (withValue vs (subjectInput f))) as [Rs1 Rs2].
    pose proof (requiredListener_mark (withValue vm (messageInput f))) as [Rm1 Rm2].
    rewrite Rn1, Rn2, Re1, Re2, Rs1, Rs2, Rm1, Rm2. tauto.
  - intros f (Hn & He & Hs & Hm).
    assert (Hv : snd (validate f) = negb (anyError f)).
    { rewrite validate_result. unfold anyError. rewrite Hn, He, Hs, Hm.
      destruct (blank (value (nameInput f))),
        (test emailRegex (value (emailInput f))),
        (blank (value (subjectInput f))), (blank (value (messageInput f)));
        reflexivity. }
    split; [exact Hv|]. rewrite onSubmit_unfold, Hv.
    destruct (anyError f); simpl; split; intros H; try congruence.
    + destruct H as [t Ht]. discriminate Ht.
    + eexists. reflexivity.
Qed.

(** The filled form shows no mark and is let through. *)
Lemma filled_form_is_let_through :
  snd (validate filledForm) = negb (anyError filledForm).
Proof.
  apply (proj2 (proj2 input_marks_agree_with_submit) filledForm).
  apply (proj1 (proj2 input_marks_agree_with_submit)).
Defined.

(** X8: a submit that passes the checks runs the whole cycle: the button
    reads "Sending..." and is disabled; 1.5 s later it reads "Sent!" with
    the success class, still disabled; 2 s later every control is back at
    its default value, the button has its first label, is enabled and has
    lost the success class. The controls are untouched until the reset,
    and the reset leaves their error marks alone. *)
Theorem script_submit_cycle (f : form) :
  snd (validate f) = true ->
  exists f1 f2 f3,
    submitAndWait f = [f1; f2; f3] /\
    (withButton (submitBtn f) f1 = f /\
     disabled (submitBtn f1) = true /\
     textContent (submitBtn f1) = str "Sending...") /\
    (withButton (submitBtn f) f2 = f /\
     disabled (submitBtn f2) = true /\
     textContent (submitBtn f2) = str "Sent!" /\
     str "success" ∈ btnClasses (submitBtn f2)) /\
    (withButton (submitBtn f) f3 = reset f /\
     disabled (submitBtn f3) = false /\
     textContent (submitBtn f3) = textContent (submitBtn f) /\
     str "success" ∉ btnClasses (submitBtn f3)).
Proof.
  intros Hv. unfold submitAndWait. rewrite onSubmit_unfold, Hv.
  rewrite (validate_valid f Hv).
  eexists _, _, _. split; [reflexivity|].
  destruct f as [n e s m b]. cbn.
  repeat split; set_solver.
Qed.

Lemma filled_form_submit_cycle :
  exists f1 f2 f3,
    submitAndWait filledForm = [f1; f2; f3] /\
    disabled (submitBtn f1) = true /\
    disabled (submitBtn f2) = true /\
    value (emailInput f2) = str "a@b.com" /\
    value (emailInput f3) = [] /\
    disabled (submitBtn f3) = false.
Proof.
  destruct (script_submit_cycle filledForm eq_refl)
    as (f1 & f2 & f3 & Hrun & (H1 & D1 & _) & (H2 & D2 & _) & (H3 & D3 & _)).
  exists f1, f2, f3. split; [exact Hrun|]. split; [exact D1|].
  split; [exact D2|]. split; [|split; [|exact D3]].
  - change (value (emailInput f2))
      with (value (emailInput (withButton (submitBtn filledForm) f2))).
    rewrite H2. reflexivity.
  - change (value (emailInput f3))
      with (value (emailInput (withButton (submitBtn filledForm) f3))).
    rewrite H3. reflexivity.
Defined.

(** X9: the submit listener arms its timer exactly when the name, the
    subject and the message are not blank and the email matches; a blocked
    submit leaves the button and every value as they were and marks at
    least one control; blocked or not, the listener only ever adds marks,
    so a control marked before the submit is still marked after it. *)
Theorem script_submit_gating (f : form) :
  (is_Some (snd (onSubmit f)) <->
   blank (value (nameInput f)) = false /\
   test emailRegex (value (emailInput f)) = true /\
   blank (value (subjectInput f)) = false /\
   blank (value (messageInput f)) = false) /\
  (snd (onSubmit f) = None ->
   submitBtn (fst (onSubmit f)) = submitBtn f /\
   value (nameInput (fst (onSubmit f))) = value (nameInput f) /\
   value (emailInput (fst (onSubmit f))) = value (emailInput f) /\
   value (subjectInput (fst (onSubmit f))) = value (subjectInput f) /\
   value (messageInput (fst (onSubmit f))) = value (messageInput f) /\
   anyError (fst (onSubmit f)) = true) /\
  (groupClasses (nameInput f) ⊆ groupClasses (nameInput (fst (onSubmit f))) /\
   groupClasses (emailInput f) ⊆ groupClasses (emailInput (fst (onSubmit f))) /\
   groupClasses (subjectInput f) ⊆ groupClasses (subjectInput (fst (onSubmit f))) /\
   groupClasses (messageInput f) ⊆ groupClasses (messageInput (fst (onSubmit f)))).
Proof.
  pose proof (checked_control (blank (value (nameInput f))) (nameInput f))
    as (Vn & _ & Cn & En).
  pose proof (checked_control (negb (test emailRegex (value (emailInput f))))
                (emailInput f)) as (Ve & _ & Ce & Ee).
  pose proof (checked_control (blank (value (subjectInput f))) (subjectInput f))
    as (Vs & _ & Cs & Es).
  pose proof (checked_control (blank (value (messageInput f))) (messageInput f))
    as (Vm & _ & Cm & Em).
  assert (Hn : nameInput (fst (validate f))
               = if blank (value (nameInput f)) then showError (nameInput f)
                 else nameInput f) by apply validate_name.
  assert (He : emailInput (fst (validate f))
               = if negb (test emailRegex (value (emailInput f)))
                 then showError (emailInput f) else emailInput f).
  { rewrite validate_email.
    destruct (test emailRegex (value (emailInput f))); reflexivity. }
  assert (Hs : subjectInput (fst (validate f))
               = if blank (value (subjectInput f)) then showError (subjectInput f)
                 else subjectInput f) by apply validate_subject.
  assert (Hm : messageInput (fst (validate f))
               = if blank (value (messageInput f)) then showError (messageInput f)
                 else messageInput f) by apply validate_message.
  rewrite onSubmit_unfold, validate_result.
  split; [|split].
  - destruct (blank (value (nameInput f))),
      (test emailRegex (value (emailInput f))),
      (blank (value (subjectInput f))), (blank (value (messageInput f)));
      simpl; split; intros H; try (destruct H as [t Ht]; discriminate Ht);
      try (destruct H as (? & ? & ? & ?); discriminate);
      try (eexists; reflexivity); auto.
  - intros Hnone.
    destruct (negb (blank (value (nameInput f)))
              && test emailRegex (value (emailInput f))
              && negb (blank (value (subjectInput f)))
              && negb (blank (value (messageInput f)))) eqn:Hok;
      [discriminate Hnone|].
    cbn [fst]. rewrite validate_button. split; [reflexivity|].
    rewrite Hn, He, Hs, Hm, Vn, Ve, Vs, Vm. do 4 (split; [reflexivity|]).
    unfold anyError. rewrite Hn, He, Hs, Hm, En, Ee, Es, Em.
    destruct (blank (value (nameInput f))),
      (test emailRegex (value (emailInput f))),
      (blank (value (subjectInput f))), (blank (value (messageInput f)));
      try discriminate Hok; simpl; rewrite ?orb_true_r; reflexivity.
  - destruct (negb (blank (value (nameInput f)))
              && test emailRegex (value (emailInput f))
              && negb (blank (value (subjectInput f)))
              && negb (blank (value (messageInput f))));
      cbn [fst withButton nameInput emailInput subjectInput messageInput];
      rewrite Hn, He, Hs, Hm; auto.
Qed.

(** The filled form arms the timer; the blank form does not. *)
Lemma filled_form_arms_timer : is_Some (snd (onSubmit filledForm)).
Proof.
  apply (proj2 (proj1 (script_submit_gating filledForm))).
  repeat split; reflexivity.
Defined.

(** The filled form passes both checks. *)
Lemma filled_form_passes_contact_check :
  Contact.getError
    (fst (Contact.validateForm
            {| Contact.name := str "A"; Contact.email := str "a@b.com";
               Contact.message := str "hi" |}))
    Contact.FEmail = None.
Proof.
  apply (script_email_check_is_stricter filledForm
           {| Contact.name := str "A"; Contact.email := str "a@b.com";
              Contact.message := str "hi" |}); reflexivity.
Defined.

(** The converse fails: [Contact] accepts an address inside other text,
    the script does not. *)
Lemma contact_accepts_more :
  test Contact.emailPattern (str "mail me: a@b.com now") = true /\
  test emailRegex (str "mail me: a@b.com now") = false.
Proof. split; reflexivity. Qed.

End ScriptFormFurther.

(** ** The theme manager: reloads, odd stored values, what a click touches *)
Section ThemeFurther.
Import JS Theme.

(** A click on a light page of a system that prefers light, then a reload
    on a system that prefers light: the page is dark. *)
Lemma dark_choice_survives_reload :
  displayed (load ∅ MOON false
               (localStorage
                  (onToggleClick {| bodyClasses := ∅; toggleText := MOON;
                                    localStorage := ∅ |})))
  = str "dark".
Proof.
  rewrite (toggled_theme_survives_reload
             {| bodyClasses := ∅; toggleText := MOON; localStorage := ∅ |}
             ∅ MOON false).
  - reflexivity.
  - apply not_elem_of_empty.
Defined.

(** X11: the start-up code only ever adds the dark-mode class and never
    writes the storage. A stored value that is not empty and not exactly
    "dark" (a "Dark", a "light") leaves the page as the markup made it,
    whatever the system prefers; a stored empty string counts as no stored
    value, so the system preference decides. *)
Theorem start_up_with_odd_stored_value (prefersDark : bool) (p : page) :
  (forall v : jsstring,
      persisted p = Some v -> v <> [] -> v <> str "dark" ->
      init prefersDark p = p) /\
  (persisted p = Some [] ->
   (str "dark-mode" ∈ bodyClasses (init prefersDark p) <->
    prefersDark = true \/ str "dark-mode" ∈ bodyClasses p)) /\
  bodyClasses p ⊆ bodyClasses (init prefersDark p) /\
  localStorage (init prefersDark p) = localStorage p.
Proof.
  unfold persisted, init. split; [|split; [|split]].
  - intros v -> Hne Hnd. unfold strict_eq.
    rewrite bool_decide_eq_false_2 by congruence.
    destruct v as [|c v]; [congruence|]. reflexivity.
  - intros ->. cbn. destruct prefersDark; cbn; set_solver.
  - destruct (strict_eq _ _ || _); cbn; set_solver.
  - destruct (strict_eq _ _ || _); reflexivity.
Qed.

(** A stored "Dark" is not "dark": the page stays light on a system that
    prefers dark. *)
Lemma capitalised_dark_is_ignored :
  init true {| bodyClasses := ∅; toggleText := MOON;
               localStorage := {[ str "theme" := str "Dark" ]} |}
  = {| bodyClasses := ∅; toggleText := MOON;
       localStorage := {[ str "theme" := str "Dark" ]} |}.
Proof.
  apply (proj1 (start_up_with_odd_stored_value true
                  {| bodyClasses := ∅; toggleText := MOON;
                     localStorage := {[ str "theme" := str "Dark" ]} |})
               (str "Dark")).
  - reflexivity.
  - discriminate.
  - discriminate.
Defined.

(** X12: a click on the toggle always changes the displayed theme, shows
    the sun exactly on the dark theme, and touches nothing else: every
    other class of the body and every other key of the storage is as
    before. *)
Theorem toggle_click_touches_only_the_theme (p : page) :
  displayed (onToggleClick p) <> displayed p /\
  toggleText (onToggleClick p)
  = (if bool_decide (displayed (onToggleClick p) = str "dark") then SUN else MOON) /\
  (forall c : jsstring,
      c <> str "dark-mode" ->
      (c ∈ bodyClasses (onToggleClick p) <-> c ∈ bodyClasses p)) /\
  (forall k : jsstring,
      k <> str "theme" ->
      localStorage (onToggleClick p) !! k = localStorage p !! k).
Proof.
  split; [|split; [|split]].
  - unfold displayed. rewrite onToggleClick_classes.
    pose proof (classToggle_elem (str "dark-mode") (bodyClasses p)) as Ht.
    do 2 case_bool_decide; try discriminate; tauto.
  - unfold onToggleClick, displayed.
    case_bool_decide as Hd; cbn [bodyClasses toggleText].
    + rewrite (bool_decide_eq_true_2 _ Hd). reflexivity.
    + rewrite (bool_decide_eq_false_2 _ Hd). reflexivity.
  - intros c Hc. rewrite onToggleClick_classes. unfold classToggle.
    case_bool_decide; set_solver.
  - intros k Hk. unfold onToggleClick.
    case_bool_decide; cbn [localStorage]; apply lookup_insert_ne; congruence.
Qed.

(** A language choice stored beside the theme survives the click. *)
Lemma other_key_survives_click :
  localStorage
    (onToggleClick {| bodyClasses := ∅; toggleText := MOON;
                      localStorage := {[ str "lang" := str "en" ]} |})
  !! str "lang" = Some (str "en").
Proof.
  rewrite (proj2 (proj2 (proj2 (toggle_click_touches_only_the_theme
             {| bodyClasses := ∅; toggleText := MOON;
                localStorage := {[ str "lang" := str "en" ]} |})))
             (str "lang")).
  - reflexivity.
  - discriminate.
Defined.

End ThemeFurther.

(** ** Navigation *)
Section NavigationFurther.
Import JS Navigation.

Lemma pastThreshold_iff (scrollY : Q) :
  pastThreshold scrollY = true <-> Qlt (inject_Z 50) scrollY.
Proof.
  unfold pastThreshold. rewrite negb_true_iff. split.
  - intros H. apply Qnot_le_lt. intros Hle.
    apply Qle_bool_iff in Hle. congruence.
  - intros H. destruct (Qle_bool scrollY (inject_Z 50)) eqn:E; [|reflexivity].
    apply Qle_bool_iff in E. exfalso. exact (Qlt_not_le _ _ H E).
Qed.

Lemma onScroll_frame (p : page) (scrollY : Q) :
  (str "scrolled" ∈ headerClasses (onScroll p scrollY)
   <-> pastThreshold scrollY = true) /\
  (forall c, c <> str "scrolled" ->
             (c ∈ headerClasses (onScroll p scrollY) <-> c ∈ headerClasses p)) /\
  navLinks (onScroll p scrollY) = navLinks p /\
  hamburgerLines (onScroll p scrollY) = hamburgerLines p.
Proof.
  unfold onScroll, classToggleForce. cbn [headerClasses navLinks hamburgerLines].
  destruct (pastThreshold scrollY); repeat split; try set_solver.
Qed.

(** X13: after any scroll events the header is marked as scrolled exactly
    when the last position is above 50, whatever the earlier positions and
    the earlier classes were (50 itself is not above); the listener touches
    no other class and not the menu. [Header] computes the same flag. *)
Theorem scrolled_follows_last_position
    (p : page) (s : Header.state) (earlier : list Q) (scrollY : Q) :
  (str "scrolled" ∈ headerClasses (foldl onScroll p (earlier ++ [scrollY]))
   <-> Qlt (inject_Z 50) scrollY) /\
  (Header.isScrolled (foldl Header.handleScroll s (earlier ++ [scrollY])) = true
   <-> Qlt (inject_Z 50) scrollY) /\
  (forall c : jsstring,
      c <> str "scrolled" ->
      (c ∈ headerClasses (foldl onScroll p (earlier ++ [scrollY]))
       <-> c ∈ headerClasses p)) /\
  navLinks (foldl onScroll p (earlier ++ [scrollY])) = navLinks p /\
  hamburgerLines (foldl onScroll p (earlier ++ [scrollY])) = hamburgerLines p.
Proof.
  rewrite !foldl_app. cbn [foldl].
  assert (Hframe : forall ys q,
             (forall c, c <> str "scrolled" ->
                        (c ∈ headerClasses (foldl onScroll q ys)
                         <-> c ∈ headerClasses q)) /\
             navLinks (foldl onScroll q ys) = navLinks q /\
             hamburgerLines (foldl onScroll q ys) = hamburgerLines q).
  { induction ys as [|y ys IH]; intros q; cbn [foldl]; [tauto|].
    destruct (IH (onScroll q y)) as (Hc & Hn & Hl).
    destruct (onScroll_frame q y) as (_ & Hc' & Hn' & Hl').
    split; [|split; congruence].
    intros c Hne. rewrite (Hc c Hne). apply Hc', Hne. }
  destruct (Hframe earlier p) as (Hc & Hn & Hl).
  destruct (onScroll_frame (foldl onScroll p earlier) scrollY)
    as (Hs & Hc' & Hn' & Hl').
  split; [rewrite Hs; apply pastThreshold_iff|].
  split; [cbn [Header.handleScroll Header.isScrolled]; apply pastThreshold_iff|].
  split; [|split; congruence].
  intros c Hne. rewrite (Hc' c Hne). apply Hc, Hne.
Qed.

(** Half a pixel past the threshold counts, whatever came before. *)
Lemma half_pixel_past_threshold :
  str "scrolled" ∈
    headerClasses
      (foldl onScroll
             {| headerClasses := ∅; navLinks := ∅; hamburgerLines := [] |}
             ([inject_Z 0; inject_Z 300] ++ [Qmake 101 2])).
Proof.
  apply (proj2 (proj1 (scrolled_follows_last_position
                         {| headerClasses := ∅; navLinks := ∅; hamburgerLines := [] |}
                         {| Header.isScrolled := false;
                            Header.isMobileMenuOpen := false |}
                         [inject_Z 0; inject_Z 300] (Qmake 101 2)))).
  reflexivity.
Defined.

Lemma classToggle_flips (c : jsstring) (cl : gset jsstring) :
  bool_decide (c ∈ Theme.classToggle c cl) = negb (bool_decide (c ∈ cl)).
Proof.
  pose proof (classToggle_elem c cl) as H.
  do 2 case_bool_decide; simpl; tauto.
Qed.

(** X14: a click on the hamburger flips the menu and every line of the
    icon together; a click on a navigation link closes the menu, also when
    the link has no target and the listener then throws, but leaves the
    lines as they are. So a link click on an open menu leaves the icon on
    its cross over a closed menu, and from then on each hamburger click
    keeps icon and menu opposite. *)
Theorem menu_and_icon (p : page) (lines menu : bool) :
  linesShow lines p ->
  menuOpen p = menu ->
  (linesShow (negb lines) (onHamburgerClick p) /\
   menuOpen (onHamburgerClick p) = negb menu) /\
  (forall target : option Z,
      menuOpen (fst (onAnchorClick target p)) = false /\
      linesShow lines (fst (onAnchorClick target p)) /\
      headerClasses (fst (onAnchorClick target p)) = headerClasses p /\
      snd (onAnchorClick target p)
      = match target with
        | Some offsetTop => ScrollTo (offsetTop - 70)
        | None => Threw
        end).
Proof.
  intros Hl Hm. split.
  - split.
    + unfold linesShow, onHamburgerClick in *. cbn [hamburgerLines].
      apply List.Forall_map. revert Hl. apply List.Forall_impl.
      intros cl Hcl. rewrite classToggle_flips, Hcl. reflexivity.
    + unfold menuOpen, onHamburgerClick in *. cbn [navLinks].
      rewrite classToggle_flips, Hm. reflexivity.
  - intros target. unfold onAnchorClick, menuOpen, linesShow in *.
    case_bool_decide as Ha; destruct target; cbn [fst snd navLinks hamburgerLines headerClasses];
      (split; [apply bool_decide_eq_false; set_solver|]); auto.
Qed.

(** Open the menu, follow a link, press the hamburger: the menu is open
    under an icon that shows the bars. *)
Lemma icon_opposite_after_link_click :
  menuOpen
    (onHamburgerClick
       (fst (onAnchorClick (Some 900%Z)
               (onHamburgerClick
                  {| headerClasses := ∅; navLinks := ∅;
                     hamburgerLines := [∅; ∅; ∅] |})))) = true /\
  linesShow false
    (onHamburgerClick
       (fst (onAnchorClick (Some 900%Z)
               (onHamburgerClick
                  {| headerClasses := ∅; navLinks := ∅;
                     hamburgerLines := [∅; ∅; ∅] |})))).
Proof.
  destruct (menu_and_icon
              (fst (onAnchorClick (Some 900%Z)
                      (onHamburgerClick
                         {| headerClasses := ∅; navLinks := ∅;
                            hamburgerLines := [∅; ∅; ∅] |})))
              true false) as [[Hlines Hmenu] _].
  - repeat constructor.
  - reflexivity.
  - split; [exact Hmenu | exact Hlines].
Defined.

End NavigationFurther.

(** ** The skill cards *)
Section SkillCardsFurther.
Import SkillCards.

(** X15: a click on a skill card expands it unless it is the expanded one,
    which it collapses; after any clicks the expanded card, if there is
    one, is the card clicked last. Two clicks on one card bring the cards
    back only if that card or none was expanded: with another card
    expanded they leave no card expanded. *)
Theorem skill_card_clicks (expandedSkill : option nat) (earlier : list nat)
    (index : nat) :
  (foldl onCardClick expandedSkill (earlier ++ [index]) = None \/
   foldl onCardClick expandedSkill (earlier ++ [index]) = Some index) /\
  (isExpanded (onCardClick expandedSkill index) index
   = negb (isExpanded expandedSkill index)) /\
  (forall other : nat,
      other <> index -> isExpanded (onCardClick expandedSkill index) other = false) /\
  onCardClick (onCardClick expandedSkill index) index
  = (if bool_decide (expandedSkill = Some index) then Some index else None).
Proof.
  split; [|split; [|split]].
  - rewrite foldl_app. cbn [foldl]. unfold onCardClick.
    case_bool_decide; auto.
  - unfold isExpanded, onCardClick.
    destruct (decide (expandedSkill = Some index)) as [E|E];
      rewrite ?(bool_decide_eq_true_2 _ E), ?(bool_decide_eq_false_2 _ E); simpl;
      first [ reflexivity
            | symmetry; apply bool_decide_eq_true; reflexivity
            | apply bool_decide_eq_true; reflexivity
            | apply bool_decide_eq_false; discriminate ].
  - intros other Hne. unfold isExpanded, onCardClick.
    destruct (decide (expandedSkill = Some index)) as [E|E];
      rewrite ?(bool_decide_eq_true_2 _ E), ?(bool_decide_eq_false_2 _ E);
      first [ reflexivity | apply bool_decide_eq_false; congruence ].
  - unfold onCardClick.
    destruct (decide (expandedSkill = Some index)) as [E|E];
      rewrite ?(bool_decide_eq_true_2 _ E), ?(bool_decide_eq_false_2 _ E);
      first [ reflexivity
            | rewrite bool_decide_eq_false_2 by discriminate; reflexivity
            | rewrite bool_decide_eq_true_2 by reflexivity; reflexivity ].
Qed.

(** With the first card expanded, two clicks on the third leave nothing
    expanded. *)
Lemma double_click_elsewhere_collapses_all :
  onCardClick (onCardClick (Some 0) 2) 2 = None /\
  isExpanded (onCardClick (Some 0) 2) 0 = false.
Proof.
  split.
  - rewrite (proj2 (proj2 (proj2 (skill_card_clicks (Some 0) [] 2)))).
    reflexivity.
  - apply (proj1 (proj2 (proj2 (skill_card_clicks (Some 0) [] 2)))).
    discriminate.
Defined.

End SkillCardsFurther.

(** ** The observers: what a notification does, and to which elements *)
Section ObserversFurther.
Import JS Observers.

Lemma elem_of_filter_observed (p : page) (batch : list entry) (e : entry) :
  e ∈ List.filter (fun e => bool_decide (target e ∈ observed p)) batch
  <-> e ∈ batch /\ target e ∈ observed p.
Proof.
  rewrite !list_elem_of_In, List.filter_In, bool_decide_eq_true. reflexivity.
Qed.

(** The loop of an observer that adds [c] and unobserves: it unobserves
    exactly the targets of its intersecting entries and adds [c] to exactly
    those. *)
Lemma reveal_and_unobserve_loop (c : jsstring) (entries : list entry) :
  forall (p : page) (t : elem),
    let p' := forEachIntersecting
                (fun target p =>
                   perform (Unobserve target) (perform (ClassAdd target c) p))
                entries p in
    (t ∈ observed p' <->
     t ∈ observed p /\ {| target := t; isIntersecting := true |} ∉ entries) /\
    (forall c' : jsstring,
        c' ∈ classesOf p' t <->
        c' ∈ classesOf p t \/
        (c' = c /\ {| target := t; isIntersecting := true |} ∈ entries)).
Proof.
  unfold forEachIntersecting.
  induction entries as [|e es IH]; intros p t; cbn [foldl].
  - split; [|intros c']; rewrite ?elem_of_nil; tauto.
  - destruct e as [te ie]. cbn [target isIntersecting]. destruct ie.
    + destruct (IH (perform (Unobserve te) (perform (ClassAdd te c) p)) t)
        as [Ho Hc].
      split.
      * rewrite Ho, !perform_observed, elem_of_cons, elem_of_difference,
          elem_of_singleton.
        split.
        -- intros [[H1 H2] H3]. split; [exact H1|]. intros [H|H]; [|tauto].
           injection H as H. congruence.
        -- intros [H1 H2]. split; [split; [exact H1|]|].
           ++ intros ->. apply H2. left. reflexivity.
           ++ intros H. apply H2. right. exact H.
      * intros c'. rewrite Hc, !classesOf_perform, elem_of_cons.
        destruct (decide (te = t)) as [->|Hne].
        -- rewrite elem_of_union, elem_of_singleton. split.
           ++ intros [[H|H]|H]; [tauto | right; split; [exact H | left; reflexivity]
                                 | right; tauto].
           ++ intros [H|[H1 [H2|H2]]]; tauto.
        -- split.
           ++ intros [H|H]; tauto.
           ++ intros [H|[H1 [H2|H2]]]; [tauto | | tauto].
              injection H2 as H2. congruence.
    + destruct (IH p t) as [Ho Hc]. split.
      * rewrite Ho, elem_of_cons. split.
        -- intros [H1 H2]. split; [exact H1|]. intros [H|H]; [|tauto].
           discriminate H.
        -- intros [H1 H2]. split; [exact H1|]. intros H. apply H2. right. exact H.
      * intros c'. rewrite Hc, elem_of_cons. split.
        -- intros [H|[H1 H2]]; tauto.
        -- intros [H|[H1 [H2|H2]]]; [tauto | | tauto].
           discriminate H2.
Qed.

(** X16: one notification of [timelineObserver] (and, with "revealed", of
    [sectionObserver]) does exactly this: an observed element that the
    batch reports as intersecting gets the class and is unobserved; every
    other element keeps its classes and its observation, whatever else the
    batch reports about it. *)
Theorem reveal_notification (batch : list entry) (p : page) (t : elem) :
  (t ∈ observed (notify timelineObserver batch p) <->
   t ∈ observed p /\ {| target := t; isIntersecting := true |} ∉ batch) /\
  (forall c : jsstring,
      c ∈ classesOf (notify timelineObserver batch p) t <->
      c ∈ classesOf p t \/
      (c = str "visible" /\ t ∈ observed p /\
       {| target := t; isIntersecting := true |} ∈ batch)) /\
  (t ∈ observed (notify sectionObserver batch p) <->
   t ∈ observed p /\ {| target := t; isIntersecting := true |} ∉ batch) /\
  (forall c : jsstring,
      c ∈ classesOf (notify sectionObserver batch p) t <->
      c ∈ classesOf p t \/
      (c = str "revealed" /\ t ∈ observed p /\
       {| target := t; isIntersecting := true |} ∈ batch)).
Proof.
  unfold notify, timelineObserver, sectionObserver.
  pose proof (reveal_and_unobserve_loop (str "visible")
                (List.filter (fun e => bool_decide (target e ∈ observed p)) batch)
                p t) as [Ho Hc].
  pose proof (reveal_and_unobserve_loop (str "revealed")
                (List.filter (fun e => bool_decide (target e ∈ observed p)) batch)
                p t) as [Ho' Hc'].
  cbv zeta in Ho, Hc, Ho', Hc'.
  rewrite elem_of_filter_observed in Ho, Ho'. cbn [target] in Ho, Ho'.
  split; [rewrite Ho; tauto|]. split.
  - intros c. rewrite Hc, elem_of_filter_observed. cbn [target]. tauto.
  - split; [rewrite Ho'; tauto|].
    intros c. rewrite Hc', elem_of_filter_observed. cbn [target]. tauto.
Qed.

(** An item the batch reports as intersecting, on a page that observes it. *)
Lemma reported_item_becomes_visible :
  str "visible" ∈
    classesOf (notify timelineObserver
                 [ {| target := 2; isIntersecting := false |};
                   {| target := 1; isIntersecting := true |} ]
                 (observing [1; 2])) 1.
Proof.
  apply (proj2 (proj1 (proj2 (reveal_notification
                                [ {| target := 2; isIntersecting := false |};
                                  {| target := 1; isIntersecting := true |} ]
                                (observing [1; 2]) 1)) (str "visible"))).
  right. split; [reflexivity|]. split.
  - apply (bool_decide_unpack _). vm_compute. exact I.
  - apply list_elem_of_further, list_elem_of_here.
Defined.

(** The loop of the observer of [Experience]: it adds the class to the
    targets of its intersecting entries and keeps all targets. *)
Lemma experience_loop (entries : list entry) :
  forall (p : page) (t : elem),
    let p' := forEachIntersecting
                (fun target p => perform (ClassAdd target (str "visible")) p)
                entries p in
    observed p' = observed p /\
    (forall c' : jsstring,
        c' ∈ classesOf p' t <->
        c' ∈ classesOf p t \/
        (c' = str "visible" /\ {| target := t; isIntersecting := true |} ∈ entries)).
Proof.
  unfold forEachIntersecting.
  induction entries as [|e es IH]; intros p t; cbn [foldl].
  - split; [reflexivity|]. intros c'. rewrite elem_of_nil. tauto.
  - destruct e as [te ie]. cbn [target isIntersecting]. destruct ie.
    + destruct (IH (perform (ClassAdd te (str "visible")) p) t) as [Ho Hc].
      split; [rewrite Ho; apply perform_observed|].
      intros c'. rewrite Hc, classesOf_perform, elem_of_cons.
      destruct (decide (te = t)) as [->|Hne].
      * rewrite elem_of_union, elem_of_singleton. split.
        -- intros [[H|H]|H]; [tauto | right; split; [exact H | left; reflexivity]
                              | right; tauto].
        -- intros [H|[H1 [H2|H2]]]; tauto.
      * split.
        -- intros [H|H]; tauto.
        -- intros [H|[H1 [H2|H2]]]; [tauto | | tauto].
           injection H2 as H2. congruence.
    + destruct (IH p t) as [Ho Hc]. split; [exact Ho|].
      intros c'. rewrite Hc, elem_of_cons. split.
      * intros [H|[H1 H2]]; tauto.
      * intros [H|[H1 [H2|H2]]]; [tauto | | tauto]. discriminate H2.
Qed.

Lemma reveal_notify_unobserved (c : jsstring) (batch : list entry) (p : page)
    (t : elem) :
  t ∉ observed p ->
  let p' := notify (forEachIntersecting
                      (fun target p =>
                         perform (Unobserve target) (perform (ClassAdd target c) p)))
                   batch p in
  (t ∉ observed p') /\ classesOf p' t = classesOf p t.
Proof.
  intros Hn. unfold notify.
  pose proof (reveal_and_unobserve_loop c
                (List.filter (fun e => bool_decide (target e ∈ observed p)) batch)
                p t) as [Ho Hc].
  cbv zeta in *. split; [rewrite Ho; tauto|].
  apply set_eq. intros c'. rewrite Hc, elem_of_filter_observed. cbn [target].
  tauto.
Qed.

Lemma experience_notify_unobserved (batch : list entry) (p : page) (t : elem) :
  t ∉ observed p ->
  let p' := notify experienceObserver batch p in
  (t ∉ observed p') /\ classesOf p' t = classesOf p t.
Proof.
  intros Hn. unfold notify, experienceObserver.
  pose proof (experience_loop
                (List.filter (fun e => bool_decide (target e ∈ observed p)) batch)
                p t) as [Ho Hc].
  cbv zeta in *. split; [rewrite Ho; exact Hn|].
  apply set_eq. intros c'. rewrite Hc, elem_of_filter_observed. cbn [target].
  tauto.
Qed.

Lemma run_unobserved (callback : list entry -> page -> page) (t : elem) :
  (forall batch p, t ∉ observed p ->
                   (t ∉ observed (notify callback batch p)) /\
                   classesOf (notify callback batch p) t = classesOf p t) ->
  forall batches p, t ∉ observed p ->
                    classesOf (run callback batches p) t = classesOf p t.
Proof.
  intros Hstep batches. unfold run.
  induction batches as [|b bs IH]; intros p Hn; cbn [foldl]; [reflexivity|].
  destruct (Hstep b p Hn) as [Hn' Hc]. rewrite (IH _ Hn'). exact Hc.
Qed.

Lemma filter_none_observed (p : page) (batch : list entry) :
  observed p = ∅ ->
  List.filter (fun e => bool_decide (target e ∈ observed p)) batch = [].
Proof.
  intros ->. induction batch as [|e es IH]; [reflexivity|].
  cbn [List.filter]. rewrite bool_decide_eq_false_2 by apply not_elem_of_empty.
  exact IH.
Qed.

Lemma run_disconnected (body : elem -> page -> page) (batches : list (list entry)) :
  forall p, observed p = ∅ -> run (forEachIntersecting body) batches p = p.
Proof.
  unfold run. induction batches as [|b bs IH]; intros p Hp; cbn [foldl];
    [reflexivity|].
  unfold notify at 2. rewrite (filter_none_observed p b Hp).
  cbn [forEachIntersecting foldl]. apply IH, Hp.
Qed.

(** X17: an observer acts on its targets only. An element it does not
    observe keeps its class list through any notifications, and after
    [disconnect()], which the components call on teardown, no notification
    changes anything: not a class, not a width, not a call. *)
Theorem observers_act_on_targets_only :
  (forall (batches : list (list entry)) (p : page) (t : elem),
      t ∉ observed p ->
      classesOf (run timelineObserver batches p) t = classesOf p t /\
      classesOf (run sectionObserver batches p) t = classesOf p t /\
      classesOf (run experienceObserver batches p) t = classesOf p t) /\
  (forall (bars : elem -> list (elem * option jsstring))
          (batches : list (list entry)) (p : page),
      run experienceObserver batches (disconnect p) = disconnect p /\
      run (skillsObserver bars) batches (disconnect p) = disconnect p).
Proof.
  split.
  - intros batches p t Hn. split; [|split].
    + apply run_unobserved; [|exact Hn].
      intros batch q. apply reveal_notify_unobserved.
    + apply run_unobserved; [|exact Hn].
      intros batch q. apply reveal_notify_unobserved.
    + apply run_unobserved; [|exact Hn].
      intros batch q. apply experience_notify_unobserved.
  - intros bars batches p. split; apply run_disconnected; reflexivity.
Qed.

(** A section the timeline observer was never given stays as it is, even
    when the browser's report names it. *)
Lemma foreign_element_untouched :
  classesOf (run timelineObserver
               [[ {| target := 7; isIntersecting := true |} ]]
               (observing [1; 2])) 7
  = classesOf (observing [1; 2]) 7.
Proof.
  apply (proj1 observers_act_on_targets_only
               [[ {| target := 7; isIntersecting := true |} ]]
               (observing [1; 2]) 7).
  apply (bool_decide_unpack _). vm_compute. exact I.
Defined.

Lemma animateProgress_cons (b : elem * option jsstring)
    (bs : list (elem * option jsstring)) (p : page) :
  animateProgress (b :: bs) p =
  animateProgress bs
    (perform (SetTransition (fst b) (str "width 1.5s ease-in-out"))
       (perform (SetWidth (fst b) (percent (snd b))) p)).
Proof. reflexivity. Qed.

Lemma fillBars_cons (b : elem * option jsstring)
    (bs : list (elem * option jsstring)) (p : page) :
  fillBars (b :: bs) p =
  fillBars bs (if truthy_opt (snd b)
               then perform (SetWidth (fst b) (default [] (snd b) ++ str "%")) p
               else p).
Proof. reflexivity. Qed.

Lemma assignWidth_ne (e e' : elem) (w : jsstring) (p : page) :
  e <> e' -> assignWidth e' w p !! e = styleWidth p !! e.
Proof.
  intros Hne. unfold assignWidth. destruct w as [|c w].
  - apply lookup_delete_ne. congruence.
  - destruct (cssAccepts p (c :: w)); [|reflexivity].
    apply lookup_insert_ne. congruence.
Qed.

Lemma assignWidth_percent (e : elem) (s : jsstring) (p : page) :
  assignWidth e (s ++ str "%") p !! e
  = if cssAccepts p (s ++ str "%") then Some (s ++ str "%")
    else styleWidth p !! e.
Proof.
  unfold assignWidth. destruct (s ++ str "%") as [|c w] eqn:Hs.
  - destruct s; discriminate Hs.
  - destruct (cssAccepts p (c :: w)); [apply lookup_insert_eq | reflexivity].
Qed.

Lemma perform_cssAccepts (a : action) (p : page) :
  cssAccepts (perform a p) = cssAccepts p.
Proof. destruct a; reflexivity. Qed.

Lemma animateProgress_cssAccepts (bars : list (elem * option jsstring)) :
  forall p, cssAccepts (animateProgress bars p) = cssAccepts p.
Proof.
  induction bars as [|b bs IH]; intros p; [reflexivity|].
  rewrite animateProgress_cons, IH. reflexivity.
Qed.

Lemma fillBars_cssAccepts (bars : list (elem * option jsstring)) :
  forall p, cssAccepts (fillBars bars p) = cssAccepts p.
Proof.
  induction bars as [|b bs IH]; intros p; [reflexivity|].
  rewrite fillBars_cons, IH. destruct (truthy_opt (snd b)); reflexivity.
Qed.

Lemma animateProgress_absent (bars : list (elem * option jsstring)) (e : elem) :
  forall p,
    e ∉ List.map fst bars ->
    styleWidth (animateProgress bars p) !! e = styleWidth p !! e /\
    styleTransition (animateProgress bars p) !! e = styleTransition p !! e.
Proof.
  induction bars as [|b bs IH]; intros p Hn; [split; reflexivity|].
  cbn [List.map] in Hn. apply not_elem_of_cons in Hn as [Hne Hn].
  rewrite animateProgress_cons.
  match goal with
  | |- context [animateProgress bs ?q] => destruct (IH q Hn) as [-> ->]
  end.
  cbn [perform styleWidth styleTransition].
  split; [apply assignWidth_ne | apply lookup_insert_ne]; congruence.
Qed.

Lemma animateProgress_lookup (bars : list (elem * option jsstring))
    (e : elem) (a : option jsstring) :
  forall p,
    NoDup (List.map fst bars) ->
    (e, a) ∈ bars ->
    styleWidth (animateProgress bars p) !! e
    = (if cssAccepts p (percent a) then Some (percent a)
       else styleWidth p !! e) /\
    styleTransition (animateProgress bars p) !! e
    = Some (str "width 1.5s ease-in-out").
Proof.
  induction bars as [|b bs IH]; intros p Hnd Hin; [inversion Hin|].
  cbn [List.map] in Hnd. apply NoDup_cons in Hnd as [Hfresh Hnd].
  rewrite animateProgress_cons.
  apply elem_of_cons in Hin as [<- | Hin].
  - cbn [fst snd] in *. destruct (animateProgress_absent bs e
      (perform (SetTransition e (str "width 1.5s ease-in-out"))
         (perform (SetWidth e (percent a)) p)) Hfresh) as [-> ->].
    cbn [perform styleWidth styleTransition].
    split; [apply assignWidth_percent | apply lookup_insert_eq].
  - assert (Hne : e <> fst b).
    { intros Heq. apply Hfresh. rewrite <- Heq.
      apply list_elem_of_In, (List.in_map fst _ (e, a)), list_elem_of_In, Hin. }
    match goal with
    | |- context [animateProgress bs ?q] => destruct (IH q Hnd Hin) as [-> ->]
    end.
    rewrite !perform_cssAccepts. cbn [perform styleWidth].
    rewrite (assignWidth_ne e (fst b) _ p Hne).
    split; reflexivity.
Qed.

Lemma fillBars_absent (bars : list (elem * option jsstring)) (e : elem) :
  forall p,
    e ∉ List.map fst bars ->
    styleWidth (fillBars bars p) !! e = styleWidth p !! e.
Proof.
  induction bars as [|b bs IH]; intros p Hn; [reflexivity|].
  cbn [List.map] in Hn. apply not_elem_of_cons in Hn as [Hne Hn].
  rewrite fillBars_cons, (IH _ Hn).
  destruct (truthy_opt (snd b)); [|reflexivity].
  cbn [perform styleWidth]. apply assignWidth_ne. congruence.
Qed.

Lemma fillBars_lookup (bars : list (elem * option jsstring))
    (e : elem) (a : option jsstring) :
  forall p,
    NoDup (List.map fst bars) ->
    (e, a) ∈ bars ->
    styleWidth (fillBars bars p) !! e
    = if truthy_opt a && cssAccepts p (default [] a ++ str "%")
      then Some (default [] a ++ str "%")
      else styleWidth p !! e.
Proof.
  induction bars as [|b bs IH]; intros p Hnd Hin; [inversion Hin|].
  cbn [List.map] in Hnd. apply NoDup_cons in Hnd as [Hfresh Hnd].
  rewrite fillBars_cons.
  apply elem_of_cons in Hin as [<- | Hin].
  - cbn [fst snd] in *. rewrite (fillBars_absent bs e _ Hfresh).
    destruct (truthy_opt a); [|reflexivity].
    cbn [perform styleWidth andb]. apply assignWidth_percent.
  - assert (Hne : e <> fst b).
    { intros Heq. apply Hfresh. rewrite <- Heq.
      apply list_elem_of_In, (List.in_map fst _ (e, a)), list_elem_of_In, Hin. }
    rewrite (IH _ Hnd Hin).
    destruct (truthy_opt (snd b)); [|reflexivity].
    rewrite perform_cssAccepts. cbn [perform styleWidth].
    rewrite (assignWidth_ne e (fst b) _ p Hne). reflexivity.
Qed.

Lemma fillBars_frame (bars : list (elem * option jsstring)) :
  forall p,
    classList (fillBars bars p) = classList p /\
    observed (fillBars bars p) = observed p.
Proof.
  induction bars as [|b bs IH]; intros p; [split; reflexivity|].
  rewrite fillBars_cons. destruct (IH (if truthy_opt (snd b)
               then perform (SetWidth (fst b) (default [] (snd b) ++ str "%")) p
               else p)) as [-> ->].
  destruct (truthy_opt (snd b)); split; reflexivity.
Qed.

(** X18: for every progress element of its list the script assigns the
    text [data-width%] to [style.width] (so "null%" for an element without
    the attribute) and sets the transition; the width the element then
    carries is that text when the browser's CSS parser accepts it, and the
    width it had before when the parser does not. [Skills] assigns
    [data-level%] only when the attribute is there and not empty, with the
    same outcome, and leaves the width of any other bar as it was.
    Elements outside the list keep their width in both. *)
Theorem widths_set_from_attributes
    (bars : list (elem * option jsstring)) (p : page) (e : elem) :
  NoDup (List.map fst bars) ->
  (forall a : option jsstring,
      (e, a) ∈ bars ->
      SetWidth e (default (str "null") a ++ str "%")
        ∈ log (animateProgress bars p) /\
      styleWidth (animateProgress bars p) !! e
      = (if cssAccepts p (default (str "null") a ++ str "%")
         then Some (default (str "null") a ++ str "%")
         else styleWidth p !! e) /\
      styleTransition (animateProgress bars p) !! e
      = Some (str "width 1.5s ease-in-out") /\
      styleWidth (fillBars bars p) !! e
      = match a with
        | Some (c :: level) =>
            if cssAccepts p ((c :: level) ++ str "%")
            then Some ((c :: level) ++ str "%")
            else styleWidth p !! e
        | _ => styleWidth p !! e
        end) /\
  (e ∉ List.map fst bars ->
   styleWidth (animateProgress bars p) !! e = styleWidth p !! e /\
   styleWidth (fillBars bars p) !! e = styleWidth p !! e).
Proof.
  intros Hnd. split.
  - intros a Hin.
    destruct (animateProgress_lookup bars e a p Hnd Hin) as [Hw Ht].
    split; [|split; [exact Hw|split; [exact Ht|]]].
    + rewrite animateProgress_log. apply elem_of_app. right.
      apply list_elem_of_In, List.in_flat_map. exists (e, a).
      split; [apply list_elem_of_In, Hin | left; reflexivity].
    + rewrite (fillBars_lookup bars e a p Hnd Hin).
      destruct a as [[|c level]|]; reflexivity.
  - intros Hn. split; [apply animateProgress_absent, Hn | apply fillBars_absent, Hn].
Qed.

(** With a parser that takes digits and "%" only: the bar with
    [data-width="90"] gets the width "90%"; for the bar without the
    attribute the script assigns "null%", which leaves it without a width,
    and the component assigns nothing. *)
Lemma missing_attribute_widths :
  styleWidth (animateProgress [(5, Some (str "90")); (6, None)] (observing [1])) !! 5
  = Some (str "90%") /\
  SetWidth 6 (str "null%")
    ∈ log (animateProgress [(5, Some (str "90")); (6, None)] (observing [1])) /\
  styleWidth (animateProgress [(5, Some (str "90")); (6, None)] (observing [1])) !! 6
  = None /\
  styleWidth (fillBars [(5, Some (str "90")); (6, None)] (observing [1])) !! 6
  = None.
Proof.
  assert (Hnd : NoDup (List.map fst [(5, Some (str "90")); (6, @None jsstring)])).
  { repeat constructor; set_solver. }
  destruct (widths_set_from_attributes
              [(5, Some (str "90")); (6, None)] (observing [1]) 5 Hnd) as [H5 _].
  destruct (widths_set_from_attributes
              [(5, Some (str "90")); (6, None)] (observing [1]) 6 Hnd) as [H6 _].
  destruct (H5 (Some (str "90"))) as (_ & Hw5 & _).
  { apply list_elem_of_here. }
  destruct (H6 None) as (Hl & Hw & _ & Hf).
  { apply list_elem_of_further, list_elem_of_here. }
  split; [exact Hw5|]. split; [exact Hl|]. split; [exact Hw | exact Hf].
Defined.

(** X19: a second visit of the [Skills] container repeats the calls but
    changes no width: the callback run again on its own result leaves
    every inline width, class list and target as the first run left them. *)
Theorem skills_revisit_changes_nothing
    (progressBars : elem -> list (elem * option jsstring)) (t : elem) (p : page) :
  NoDup (List.map fst (progressBars t)) ->
  let visit := skillsObserver progressBars
                 [ {| target := t; isIntersecting := true |} ] in
  styleWidth (visit (visit p)) = styleWidth (visit p) /\
  classList (visit (visit p)) = classList (visit p) /\
  observed (visit (visit p)) = observed (visit p).
Proof.
  intros Hnd visit. subst visit. unfold skillsObserver.
  cbn [forEachIntersecting foldl isIntersecting target].
  destruct (fillBars_frame (progressBars t) (fillBars (progressBars t) p))
    as [Hc Ho].
  split; [|split; assumption].
  apply map_eq. intros k.
  destruct (decide (k ∈ List.map fst (progressBars t))) as [Hin|Hn].
  - apply list_elem_of_In, List.in_map_iff in Hin as ([k' a] & Hk & Hin).
    cbn [fst] in Hk. subst k'. apply list_elem_of_In in Hin.
    rewrite (fillBars_lookup _ k a _ Hnd Hin), fillBars_cssAccepts.
    destruct (truthy_opt a && cssAccepts p (default [] a ++ str "%")) eqn:Hset;
      [|reflexivity].
    rewrite (fillBars_lookup _ k a p Hnd Hin), Hset. reflexivity.
  - apply fillBars_absent, Hn.
Qed.

Lemma skills_revisit_example :
  styleWidth
    (skillsObserver (fun _ => [(2, Some (str "90")); (3, Some (str "85"))])
       [ {| target := 1; isIntersecting := true |} ]
       (skillsObserver (fun _ => [(2, Some (str "90")); (3, Some (str "85"))])
          [ {| target := 1; isIntersecting := true |} ] (observing [1])))
  = styleWidth
      (skillsObserver (fun _ => [(2, Some (str "90")); (3, Some (str "85"))])
         [ {| target := 1; isIntersecting := true |} ] (observing [1])).
Proof.
  apply (skills_revisit_changes_nothing
           (fun _ => [(2, Some (str "90")); (3, Some (str "85"))]) 1
           (observing [1])).
  repeat constructor; set_solver.
Defined.

End ObserversFurther.

(** ** The gallery: consistent state, and modals that close one by one *)
Section GalleryFurther.
Import JS Gallery.

Lemma step_consistent (s : state) (ev : event) :
  (isModalOpen s = true <-> is_Some (selectedProject s)) /\
  (forall project, selectedProject s = Some project -> project ∈ projects) ->
  (isModalOpen (step s ev) = true <-> is_Some (selectedProject (step s ev))) /\
  (forall project,
      selectedProject (step s ev) = Some project -> project ∈ projects).
Proof.
  intros [Ho Hp]. destruct ev as [i | | |]; cbn [step].
  - destruct (projects !! i) as [project|] eqn:Hi; [|split; assumption].
    split; cbn.
    + split; [eauto | reflexivity].
    + intros project' [= <-]. apply list_elem_of_lookup. eauto.
  - split; cbn; [split; [discriminate | intros [? [=]]] | discriminate].
  - split; cbn; [split; [discriminate | intros [? [=]]] | discriminate].
  - split; assumption.
Qed.

(** X20: in every reachable state of [Projects] the two state cells agree:
    the modal is flagged open exactly when a project is selected, and the
    selected project is one of the list; after the close control or the
    backdrop nothing is rendered, and a click inside the modal's content
    changes nothing. *)
Theorem projects_state_is_consistent (evs : list event) :
  (isModalOpen (reach evs) = true <-> is_Some (selectedProject (reach evs))) /\
  (forall project : Project,
      selectedProject (reach evs) = Some project -> project ∈ projects) /\
  modals (step (reach evs) CloseClick) = [] /\
  modals (step (reach evs) BackdropClick) = [] /\
  step (reach evs) ContentClick = reach evs.
Proof.
  assert (H : (isModalOpen (reach evs) = true
               <-> is_Some (selectedProject (reach evs))) /\
              (forall project,
                  selectedProject (reach evs) = Some project ->
                  project ∈ projects)).
  { unfold reach.
    assert (H0 : (isModalOpen initial = true <-> is_Some (selectedProject initial)) /\
                 (forall project,
                     selectedProject initial = Some project -> project ∈ projects)).
    { split; cbn; [split; [discriminate | intros [? [=]]] | discriminate]. }
    revert H0. generalize initial.
    induction evs as [|ev evs IH]; intros s Hs; cbn [foldl]; [exact Hs|].
    apply IH, step_consistent, Hs. }
  destruct H as [Ho Hp]. repeat split; try apply Ho; try exact Hp.
Qed.

(** The project shown after two card clicks is one of the list. *)
Lemma shown_project_is_listed :
  exists project,
    selectedProject (reach [CardClick 0; CardClick 2]) = Some project /\
    project ∈ projects.
Proof.
  eexists. split; [reflexivity|].
  apply (proj1 (proj2 (projects_state_is_consistent [CardClick 0; CardClick 2]))).
  reflexivity.
Defined.

Lemma remove_frame (n : nat) (p : Script.page) (m : Script.modal) :
  m ∈ Script.bodyModals (Script.remove n p)
  <-> m ∈ Script.bodyModals p /\ Script.node m <> n.
Proof.
  unfold Script.remove. cbn [Script.bodyModals].
  rewrite !list_elem_of_In, List.filter_In, negb_true_iff, Nat.eqb_neq.
  reflexivity.
Qed.

Lemma remove_one (n : nat) (l : list Script.modal) :
  NoDup (List.map Script.node l) ->
  n ∈ List.map Script.node l ->
  S (length (List.filter (fun m => negb (Nat.eqb (Script.node m) n)) l))
  = length l.
Proof.
  induction l as [|m l IH]; intros Hnd Hin; [inversion Hin|].
  cbn [List.map] in Hnd, Hin. apply NoDup_cons in Hnd as [Hfresh Hnd].
  cbn [List.filter]. destruct (Nat.eqb_spec (Script.node m) n) as [E|E]; cbn [negb length].
  - f_equal. rewrite E in Hfresh. clear -Hfresh.
    induction l as [|m' l IH]; [reflexivity|].
    cbn [List.map] in Hfresh. apply not_elem_of_cons in Hfresh as [Hne Hfresh].
    cbn [List.filter]. destruct (Nat.eqb_spec (Script.node m') n) as [E'|E'];
      [congruence|]. cbn [negb length]. f_equal. apply IH, Hfresh.
  - f_equal. apply IH; [exact Hnd|].
    apply elem_of_cons in Hin as [Hin|Hin]; [congruence | exact Hin].
Qed.

Lemma script_step_nodes (p : Script.page) (ev : Script.event) :
  NoDup (List.map Script.node (Script.bodyModals p)) /\
  Forall (fun m => Script.node m < Script.created p) (Script.bodyModals p) ->
  NoDup (List.map Script.node (Script.bodyModals (Script.step p ev))) /\
  Forall (fun m => Script.node m < Script.created (Script.step p ev))
         (Script.bodyModals (Script.step p ev)).
Proof.
  intros [Hnd Hlt].
  assert (Hrm : forall n,
             NoDup (List.map Script.node (Script.bodyModals (Script.remove n p))) /\
             Forall (fun m => Script.node m < Script.created (Script.remove n p))
                    (Script.bodyModals (Script.remove n p))).
  { intros n. unfold Script.remove. cbn [Script.bodyModals Script.created].
    split.
    - clear Hlt. induction (Script.bodyModals p) as [|m l IH]; [constructor|].
      cbn [List.map] in Hnd. apply NoDup_cons in Hnd as [Hfresh Hnd].
      cbn [List.filter]. destruct (negb (Script.node m =? n)); [|apply IH, Hnd].
      cbn [List.map]. apply NoDup_cons. split; [|apply IH, Hnd].
      intros Hin. apply Hfresh.
      apply list_elem_of_In, List.in_map_iff in Hin as (m' & Hm' & Hin).
      apply List.filter_In in Hin as [Hin _].
      apply list_elem_of_In, List.in_map_iff. eauto.
    - apply List.Forall_forall. intros m Hin.
      apply List.filter_In in Hin as [Hin _].
      exact (proj1 (List.Forall_forall _ _) Hlt m Hin). }
  destruct ev as [card title | n | n onBackdrop]; cbn [Script.step].
  - unfold Script.onCardClick. cbn [Script.bodyModals Script.created]. split.
    + rewrite List.map_app. cbn [List.map Script.node].
      apply NoDup_app. split; [exact Hnd|]. split.
      * intros x Hx Hin. apply list_elem_of_singleton in Hin.
        apply list_elem_of_In, List.in_map_iff in Hx as (m & Hm & Hin').
        pose proof (proj1 (List.Forall_forall _ _) Hlt m Hin') as Hl.
        cbv beta in Hl. lia.
      * apply NoDup_singleton.
    + apply Forall_app. split.
      * revert Hlt. apply List.Forall_impl. intros m Hm. lia.
      * constructor; [cbn; lia | constructor].
  - apply Hrm.
  - destruct onBackdrop; [apply Hrm | split; assumption].
Qed.

(** X21: in the page script every open modal is an element of its own, so
    its close control (or a click on its backdrop) removes exactly that
    modal: one modal fewer, the others still there in order; a click
    inside a modal's content removes nothing, and closing a modal that is
    gone changes nothing. *)
Theorem script_modals_close_one_by_one (evs : list Script.event) (n : nat) :
  NoDup (List.map Script.node (Script.bodyModals (Script.reach evs))) /\
  (n ∈ List.map Script.node (Script.bodyModals (Script.reach evs)) ->
   S (length (Script.bodyModals (Script.step (Script.reach evs) (Script.CloseClick n))))
   = length (Script.bodyModals (Script.reach evs)) /\
   Script.step (Script.reach evs) (Script.ModalClick n true)
   = Script.step (Script.reach evs) (Script.CloseClick n)) /\
  (n ∉ List.map Script.node (Script.bodyModals (Script.reach evs)) ->
   Script.step (Script.reach evs) (Script.CloseClick n) = Script.reach evs) /\
  (forall m : Script.modal,
      m ∈ Script.bodyModals (Script.step (Script.reach evs) (Script.CloseClick n))
      <-> m ∈ Script.bodyModals (Script.reach evs) /\ Script.node m <> n) /\
  Script.step (Script.reach evs) (Script.ModalClick n false) = Script.reach evs.
Proof.
  assert (H : NoDup (List.map Script.node (Script.bodyModals (Script.reach evs))) /\
              Forall (fun m => Script.node m < Script.created (Script.reach evs))
                     (Script.bodyModals (Script.reach evs))).
  { unfold Script.reach.
    assert (H0 : NoDup (List.map Script.node (Script.bodyModals Script.initial)) /\
                 Forall (fun m => Script.node m < Script.created Script.initial)
                        (Script.bodyModals Script.initial)).
    { split; constructor. }
    revert H0. generalize Script.initial.
    induction evs as [|ev evs IH]; intros p Hp; cbn [foldl]; [exact Hp|].
    apply IH, script_step_nodes, Hp. }
  destruct H as [Hnd _]. split; [exact Hnd|].
  split; [|split; [|split; [|reflexivity]]].
  - intros Hin. split; [|reflexivity].
    cbn [Script.step]. unfold Script.remove. cbn [Script.bodyModals].
    apply remove_one; assumption.
  - intros Hn. cbn [Script.step]. unfold Script.remove.
    destruct (Script.reach evs) as [cc bm cr tm]. cbn [Script.bodyModals] in *.
    f_equal. clear Hnd. induction bm as [|m l IH]; [reflexivity|].
    cbn [List.map] in Hn. apply not_elem_of_cons in Hn as [Hne Hn].
    cbn [List.filter]. destruct (Nat.eqb_spec (Script.node m) n) as [E|E];
      [congruence|]. cbn [negb]. f_equal. apply IH, Hn.
  - intros m. apply remove_frame.
Qed.

(** Two modals open; closing the first leaves the second. *)
Lemma closing_first_leaves_second :
  length (Script.bodyModals
            (Script.step
               (Script.reach [ Script.CardClick 0 (str "A");
                               Script.CardClick 1 (str "B") ])
               (Script.CloseClick 0))) = 1.
Proof.
  destruct (script_modals_close_one_by_one
              [ Script.CardClick 0 (str "A"); Script.CardClick 1 (str "B") ] 0)
    as (_ & H & _).
  destruct H as [H _].
  - apply list_elem_of_here.
  - exact (Nat.succ_inj _ 1 H).
Defined.

End GalleryFurther.
